(** * stremio-bitmagnet-2: title parsing, quality ranking and stream selection

    A shallow embedding of the pure core of the add-on:
      - [constants.ts]        the lexical patterns and lookup tables,
      - [metadataParser.ts]   [parseSize], [cleanTitle], [parseTorrentTitle],
      - [stremioFormatter.ts] [getQualityRank],
      - [addonService.ts]     [processStreamRequest]: the choice of the
                              upstream queries, and the body that runs after
                              they have returned,
      - [standardization.ts]  [standardizeTitle], [standardizeYear],
      - [server.ts]           the stream route up to the call of
                              [processStreamRequest],
      - [types.ts]            the records and the [VideoQualityRank] enum.

    Modelling conventions.
      - A JavaScript string is a [list ascii].  The model covers ASCII text:
        on it [toUpperCase], [\s], [\d], [\b] and the [i] flag are exactly
        the functions below.
      - A JavaScript [number] is a [Z] where the program only ever holds an
        integer in it (years, seeders, ranks, indexes) and a [Q] where it may
        hold a fraction (sizes, comparator results).  Rationals are exact, so
        rounding of IEEE doubles is outside the model.
      - An optional field is an [option]; the guards of the program test
        truthiness, which is written out ([truthy_str], [truthy_Z], ...).
      - Regular expressions are run by a backtracking matcher with the
        priorities of the ECMAScript one: leftmost start, first alternative,
        greedy quantifiers, capture groups, look-ahead. *)

From Stdlib Require Import Ascii String Bool Arith ZArith QArith Lia List.
From Stdlib Require Import DecimalString Sorted Permutation Lqa.
Import ListNotations.
Close Scope Q_scope.
Open Scope string_scope.
Open Scope nat_scope.
Open Scope list_scope.

Set Implicit Arguments.

(** ** Characters and strings *)

Definition str := list ascii.

Definition S_ (s : string) : str := list_ascii_of_string s.
Coercion S_ : string >-> str.

Definition code (c : ascii) : nat := nat_of_ascii c.

Definition between (lo hi n : nat) : bool := (lo <=? n) && (n <=? hi).

Definition is_digit (c : ascii) : bool := between 48 57 (code c).
Definition is_upper (c : ascii) : bool := between 65 90 (code c).
Definition is_lower (c : ascii) : bool := between 97 122 (code c).
Definition is_alpha (c : ascii) : bool := is_upper c || is_lower c.

(** [\w]: letters, digits and the underscore. *)
Definition is_word (c : ascii) : bool :=
  is_alpha c || is_digit c || (code c =? 95).

(** [\s] and the characters [trim] strips: tab, LF, VT, FF, CR, space. *)
Definition is_space (c : ascii) : bool :=
  between 9 13 (code c) || (code c =? 32).

Definition upper_char (c : ascii) : ascii :=
  if is_lower c then ascii_of_nat (code c - 32) else c.

Definition lower_char (c : ascii) : ascii :=
  if is_upper c then ascii_of_nat (code c + 32) else c.

(** [String.prototype.toUpperCase]. *)
Definition toUpperCase (s : str) : str := map upper_char s.

Definition ascii_eqb (a b : ascii) : bool := Ascii.eqb a b.

Fixpoint str_eqb (a b : str) : bool :=
  match a, b with
  | [], [] => true
  | x :: a', y :: b' => ascii_eqb x y && str_eqb a' b'
  | _, _ => false
  end.

(** [String.prototype.startsWith]. *)
Fixpoint startsWith (s p : str) {struct p} : bool :=
  match p, s with
  | [], _ => true
  | x :: p', y :: s' => ascii_eqb x y && startsWith s' p'
  | _ :: _, [] => false
  end.

(** [String.prototype.includes]: [p] occurs somewhere in [s]. *)
Fixpoint includes (s p : str) : bool :=
  startsWith s p ||
  match s with
  | [] => false
  | _ :: s' => includes s' p
  end.

Fixpoint trimStart (s : str) : str :=
  match s with
  | c :: s' => if is_space c then trimStart s' else s
  | [] => []
  end.

(** [String.prototype.trim]. *)
Definition trim (s : str) : str := rev (trimStart (rev (trimStart s))).

(** [Array.prototype.join]. *)
Fixpoint join (sep : str) (l : list str) : str :=
  match l with
  | [] => []
  | [x] => x
  | x :: l' => x ++ sep ++ join sep l'
  end.

(** [Array.prototype.includes] on an array of strings. *)
Definition arr_includes (l : list str) (x : str) : bool :=
  existsb (str_eqb x) l.

(** [Array.prototype.indexOf]: the first position, or [-1]. *)
Fixpoint indexOf_from (l : list str) (x : str) (i : Z) : Z :=
  match l with
  | [] => (-1)%Z
  | y :: l' => if str_eqb y x then i else indexOf_from l' x (i + 1)%Z
  end.

Definition indexOf (l : list str) (x : str) : Z := indexOf_from l x 0%Z.

(** [Array.from(new Set(l))]: the first occurrence of every string, in order. *)
Fixpoint uniq_acc (seen : list str) (l : list str) : list str :=
  match l with
  | [] => []
  | x :: l' =>
      if arr_includes seen x then uniq_acc seen l'
      else x :: uniq_acc (x :: seen) l'
  end.

Definition uniq (l : list str) : list str := uniq_acc [] l.

(** [String(n)] for an integer. *)
Definition string_of_Z (z : Z) : str :=
  S_ (NilZero.string_of_int (Z.to_int z)).

(** [s.padStart(2, '0')]. *)
Definition padStart2 (s : str) : str :=
  match s with
  | [] => "00"%string : str
  | [c] => "0"%char :: [c]
  | _ => s
  end.

(** [parseInt(s, 10)] on a string of decimal digits. *)
Definition digit_val (c : ascii) : Z := Z.of_nat (code c - 48).

Definition parseInt (s : str) : Z :=
  fold_left (fun acc c => (acc * 10 + digit_val c)%Z) s 0%Z.

(** [parseFloat(s)] on [digits] or [digits.digits], as an exact rational. *)
Fixpoint take_digits (s : str) : str * str :=
  match s with
  | c :: s' =>
      if is_digit c then let (d, r) := take_digits s' in (c :: d, r)
      else ([], s)
  | [] => ([], [])
  end.

Definition parseFloat (s : str) : Q :=
  let (ip, r) := take_digits s in
  match r with
  | c :: r' =>
      if ascii_eqb c "."%char then
        let (fp, _) := take_digits r' in
        Qplus (inject_Z (parseInt ip))
              (Qmake (parseInt fp) (Pos.of_nat (10 ^ length fp)))
      else inject_Z (parseInt ip)
  | [] => inject_Z (parseInt ip)
  end.

(** ** Regular expressions

    The patterns of [constants.ts] and the ones the functions build with
    [new RegExp] use: literals, classes, [\d] [\s], groups, alternation,
    [?] [+] [*] [{m,n}], [^] [$] [\b], [(?!..)] and [(?<!\d)]. *)

Inductive cset : Type :=
| CChar (c : ascii)            (* a literal character *)
| CRange (lo hi : ascii)       (* [lo-hi] *)
| CDigit                       (* \d *)
| CSpace.                      (* \s *)

Inductive regex : Type :=
| REps                                 (* the empty pattern *)
| RSet (cs : list cset)                (* one character of a class *)
| RSeq (r1 r2 : regex)
| RAlt (r1 r2 : regex)                 (* r1|r2, r1 tried first *)
| RStar (r : regex)                    (* r*, greedy *)
| RGroup (i : nat) (r : regex)         (* the i-th capture group *)
| RBol                                 (* ^ *)
| REol                                 (* $ *)
| RWordB                               (* \b *)
| RNotAhead (r : regex)                (* (?!r) *)
| RNotBehind (cs : list cset).         (* (?<![cs]) *)

(** Membership of a character in one class item.  Under the [i] flag two
    characters agree when their upper-case forms do. *)
Definition in_cset1 (ic : bool) (x : cset) (a : ascii) : bool :=
  match x with
  | CChar c =>
      ascii_eqb c a || (ic && ascii_eqb (upper_char c) (upper_char a))
  | CRange lo hi =>
      let inr c := between (code lo) (code hi) (code c) in
      inr a || (ic && (inr (upper_char a) || inr (lower_char a)))
  | CDigit => is_digit a
  | CSpace => is_space a
  end.

Definition in_cset (ic : bool) (cs : list cset) (a : ascii) : bool :=
  existsb (fun x => in_cset1 ic x a) cs.

(** A position in the subject: the character just before it (none at the
    start) and the text still to read. *)
Record pos : Type := Pos { before : option ascii; rest : str }.

Definition caps : Type := list (nat * str).

Definition is_word_opt (o : option ascii) : bool :=
  match o with Some c => is_word c | None => false end.

(** The text consumed between two positions of the same subject. *)
Definition consumed (p p' : pos) : str :=
  firstn (length (rest p) - length (rest p')) (rest p).

(** What is left to match after a piece of the pattern. *)
Definition cont : Type := pos -> caps -> option (pos * caps).

(** The iterations of [r*], given the matcher [m1] of [r]: one more round of
    [r] first, the rest of the pattern [k] when that fails.  A round that
    consumes nothing is rejected, as in ECMAScript, so [n], the number of
    characters left, bounds the rounds. *)
Fixpoint star_loop (m1 : pos -> caps -> cont -> option (pos * caps)) (k : cont)
    (n : nat) (p : pos) (c : caps) {struct n} : option (pos * caps) :=
  match n with
  | O => k p c
  | S n' =>
      match m1 p c (fun p' c' =>
                      if length (rest p') <? length (rest p)
                      then star_loop m1 k n' p' c' else None) with
      | Some x => Some x
      | None => k p c
      end
  end.

(** The backtracking matcher, in continuation-passing style: [k] is what is
    left of the pattern. *)
Fixpoint rmatch (ic : bool) (r : regex) (p : pos) (c : caps) (k : cont)
    {struct r} : option (pos * caps) :=
  match r with
  | REps => k p c
  | RSet cs =>
      match rest p with
      | a :: tl => if in_cset ic cs a then k (Pos (Some a) tl) c else None
      | [] => None
      end
  | RSeq r1 r2 => rmatch ic r1 p c (fun p' c' => rmatch ic r2 p' c' k)
  | RAlt r1 r2 =>
      match rmatch ic r1 p c k with
      | Some x => Some x
      | None => rmatch ic r2 p c k
      end
  | RStar r1 => star_loop (rmatch ic r1) k (length (rest p)) p c
  | RGroup i r1 =>
      rmatch ic r1 p c (fun p' c' => k p' ((i, consumed p p') :: c'))
  | RBol => match before p with None => k p c | Some _ => None end
  | REol => match rest p with [] => k p c | _ :: _ => None end
  | RWordB =>
      if xorb (is_word_opt (before p)) (is_word_opt (hd_error (rest p)))
      then k p c else None
  | RNotAhead r1 =>
      match rmatch ic r1 p c (fun p' c' => Some (p', c')) with
      | Some _ => None
      | None => k p c
      end
  | RNotBehind cs =>
      match before p with
      | Some a => if in_cset ic cs a then None else k p c
      | None => k p c
      end
  end.

(** The result of a successful match: [index], [m[0]] and the groups. *)
Record rmatch_result : Type := MatchResult {
  index : nat;
  whole : str;
  groups : caps;
  after_prev : option ascii;     (* the position just after the match *)
  after_rest : str
}.

(** [m[i]]: the text of group [i], [None] when it did not take part. *)
Fixpoint group (i : nat) (c : caps) : option str :=
  match c with
  | [] => None
  | (j, s) :: c' => if i =? j then Some s else group i c'
  end.

(** A compiled pattern: its body and whether the [i] flag is set.  The [g]
    flag only matters to the callers, which reset [lastIndex] before every
    use, so every search below starts at the beginning of the subject. *)
Record RegExp : Type := Re { body : regex; ignoreCase : bool }.

(** An attempt at one position. *)
Definition match_here (re : RegExp) (p : pos) : option (pos * caps) :=
  rmatch (ignoreCase re) (body re) p [] (fun p' c' => Some (p', c')).

Definition result_at (i : nat) (p : pos) (pc : pos * caps) : rmatch_result :=
  MatchResult i (consumed p (fst pc)) (snd pc) (before (fst pc)) (rest (fst pc)).

(** [re.exec(s)] with [lastIndex = 0]: the leftmost position that matches. *)
Fixpoint exec_from (re : RegExp) (prev : option ascii) (s : str) (i : nat)
    : option rmatch_result :=
  match match_here re (Pos prev s) with
  | Some pc => Some (result_at i (Pos prev s) pc)
  | None =>
      match s with
      | [] => None
      | a :: tl => exec_from re (Some a) tl (S i)
      end
  end.

Definition exec (re : RegExp) (s : str) : option rmatch_result :=
  exec_from re None s 0.

(** [re.test(s)]. *)
Definition test (re : RegExp) (s : str) : bool :=
  match exec re s with Some _ => true | None => false end.

(** [m[1] || m[0]]: the first group when it took part and is not empty. *)
Definition group1_or_whole (m : rmatch_result) : str :=
  match group 1 (groups m) with
  | Some (c :: g) => c :: g
  | _ => whole m
  end.

(** The successive matches of a global pattern, as the [while ((m =
    re.exec(s)) !== null)] loops and [replace] enumerate them: the search
    resumes where the last match ended, one character further after an empty
    match.  [fuel] bounds the number of positions visited. *)
Fixpoint matches_from (fuel : nat) (re : RegExp) (prev : option ascii)
    (s : str) (i : nat) : list rmatch_result :=
  match fuel with
  | O => []
  | S fuel' =>
      match match_here re (Pos prev s) with
      | Some pc =>
          let m := result_at i (Pos prev s) pc in
          if length (after_rest m) <? length s
          then m :: matches_from fuel' re (after_prev m) (after_rest m)
                      (i + length (whole m))
          else m :: match s with
                    | [] => []
                    | a :: tl => matches_from fuel' re (Some a) tl (S i)
                    end
      | None =>
          match s with
          | [] => []
          | a :: tl => matches_from fuel' re (Some a) tl (S i)
          end
      end
  end.

Definition matchAll (re : RegExp) (s : str) : list rmatch_result :=
  matches_from (S (length s)) re None s 0.

(** [s.replace(re, repl)] for a global pattern and a plain replacement. *)
Fixpoint replace_from (fuel : nat) (re : RegExp) (repl : str)
    (prev : option ascii) (s : str) : str :=
  match fuel with
  | O => s
  | S fuel' =>
      let step :=
        match s with
        | [] => []
        | a :: tl => a :: replace_from fuel' re repl (Some a) tl
        end in
      match match_here re (Pos prev s) with
      | Some (p', _) =>
          if length (rest p') <? length s
          then repl ++ replace_from fuel' re repl (before p') (rest p')
          else repl ++ step
      | None => step
      end
  end.

Definition replaceAll (re : RegExp) (repl : str) (s : str) : str :=
  replace_from (S (length s)) re repl None s.

(** [s.replace(re, repl)] for a pattern without the [g] flag. *)
Definition replaceFirst (re : RegExp) (repl : str) (s : str) : str :=
  match exec re s with
  | Some m => firstn (index m) s ++ repl ++ after_rest m
  | None => s
  end.

(** [s.split(re)[0]] for a pattern that consumes one character. *)
Definition splitHead (re : RegExp) (s : str) : str :=
  match exec re s with
  | Some m => firstn (index m) s
  | None => s
  end.

(** *** Writing patterns *)

Definition chr (c : ascii) : regex := RSet [CChar c].
Definition digit : regex := RSet [CDigit].

(** A literal text. *)
Fixpoint lit (s : str) : regex :=
  match s with
  | [] => REps
  | [c] => chr c
  | c :: s' => RSeq (chr c) (lit s')
  end.

Fixpoint seq (l : list regex) : regex :=
  match l with
  | [] => REps
  | [r] => r
  | r :: l' => RSeq r (seq l')
  end.

(** [r1|r2|...], tried from left to right; the empty list never matches. *)
Fixpoint alts (l : list regex) : regex :=
  match l with
  | [] => RSet []
  | [r] => r
  | r :: l' => RAlt r (alts l')
  end.

Definition words (l : list string) : regex := alts (map (fun w => lit (S_ w)) l).

Definition opt (r : regex) : regex := RAlt r REps.          (* r? *)
Definition plus (r : regex) : regex := RSeq r (RStar r).    (* r+ *)

(** [r{0,n}] and [r{m,n}], greedy. *)
Fixpoint upto (n : nat) (r : regex) : regex :=
  match n with
  | O => REps
  | S n' => opt (RSeq r (upto n' r))
  end.

Fixpoint rep (m n : nat) (r : regex) : regex :=
  match m with
  | O => upto n r
  | S m' => RSeq r (rep m' (n - 1) r)
  end.

(** ** types.ts *)

(** [enum VideoQualityRank]: "Higher number = better". *)
Inductive VideoQualityRank : Type :=
| UHD_BLURAY | BLURAY_1080P | WEBDL_2160P | WEBDL_1080P | BLURAY_720P
| WEBDL_720P | HDTV_1080P | DVD | HDTV_720P | SD | LOW_QUALITY | UNKNOWN.

(** The number each member stands for; the program compares ranks with the
    numeric [>=], [<], [===] and [-]. *)
Definition rank_value (r : VideoQualityRank) : Z :=
  match r with
  | UHD_BLURAY => 10
  | BLURAY_1080P => 9
  | WEBDL_2160P => 8
  | WEBDL_1080P => 7
  | BLURAY_720P => 6
  | WEBDL_720P => 5
  | HDTV_1080P => 4
  | DVD => 3
  | HDTV_720P => 2
  | SD => 1
  | LOW_QUALITY => 0
  | UNKNOWN => -1
  end%Z.

Definition all_ranks : list VideoQualityRank :=
  [UHD_BLURAY; BLURAY_1080P; WEBDL_2160P; WEBDL_1080P; BLURAY_720P;
   WEBDL_720P; HDTV_1080P; DVD; HDTV_720P; SD; LOW_QUALITY; UNKNOWN].

Definition rank_leb (a b : VideoQualityRank) : bool :=
  (rank_value a <=? rank_value b)%Z.
Definition rank_ltb (a b : VideoQualityRank) : bool :=
  (rank_value a <? rank_value b)%Z.
Definition rank_eqb (a b : VideoQualityRank) : bool :=
  (rank_value a =? rank_value b)%Z.

Definition rank_le (a b : VideoQualityRank) : Prop :=
  (rank_value a <= rank_value b)%Z.
Definition rank_lt (a b : VideoQualityRank) : Prop :=
  (rank_value a < rank_value b)%Z.

Inductive SortPreference : Type :=
| Seeders | PreferredLanguage | Quality | Size.

Inductive StremioItemType : Type := movie | series | channel | tv.

(** [audioCodec?: string | string[]]. *)
Inductive StrOrArr : Type :=
| OneStr (s : str)
| StrArr (l : list str).

Record ParsedMetadata : Type := mkMeta {
  originalTitle : str;
  cleanedTitle : option str;
  year : option Z;
  resolution : option str;
  qualitySource : option str;
  videoCodec : option str;
  audioCodec : option StrOrArr;
  languages : option (list str);
  isHDR : option bool;
  is3D : option bool;
  releaseGroup : option str;
  episodeInfo : option str;
  rawSize : option str;
  calculatedSize : option Q;
  seeders : option Z
}.

(** The fields of [BitmagnetTorrent] the core reads. *)
Record BitmagnetTorrent : Type := mkTorrent {
  t_infoHash : str;
  t_title : str;
  t_seeders : option Z;
  t_size : option Q;
  t_source : option str;
  t_videoResolution : option str;
  t_videoCodec : option str;
  t_releaseDate : option str
}.

(** The fields of [StremioStream] a candidate carries before formatting. *)
Record StremioStream : Type := mkStream {
  s_infoHash : option str;
  s_parsedMeta : option ParsedMetadata;
  s_seeders : option Z;
  s_size : option Q
}.

Record AddonConfig : Type := mkConfig {
  preferredLanguage : str;
  qualitySortOrder : list str;
  filterLowQuality : bool;
  minSeeders : Z;
  sortPreference : list SortPreference
}.

(** *** Truthiness, [||] and [?.] on optional values *)

Definition truthy_str (o : option str) : bool :=
  match o with Some (_ :: _) => true | _ => false end.

Definition truthy_Z (o : option Z) : bool :=
  match o with Some z => negb (z =? 0)%Z | None => false end.

Definition truthy_Q (o : option Q) : bool :=
  match o with Some q => negb (Qeq_bool q 0) | None => false end.

Definition truthy_bool (o : option bool) : bool :=
  match o with Some b => b | None => false end.

(** [a || b] on optional strings and numbers: [a] when truthy, else [b]. *)
Definition or_str (a b : option str) : option str :=
  if truthy_str a then a else b.
Definition or_Z (a b : option Z) : option Z :=
  if truthy_Z a then a else b.
Definition or_Q (a b : option Q) : option Q :=
  if truthy_Q a then a else b.

(** ** constants.ts *)

Module REGEX_PATTERNS.

(* /\b((?:19[89]|20[0-2])\d)\b/g *)
Definition YEAR : RegExp :=
  Re (seq [RWordB;
           RGroup 1 (seq [RAlt (seq [lit "19"; RSet [CChar "8"; CChar "9"]])
                               (seq [lit "20"; RSet [CRange "0" "2"]]);
                          digit]);
           RWordB]) false.

(* /\b(4K|2160p|1080p|720p|576p|480p|360p|SD)\b/ig *)
Definition RESOLUTION : RegExp :=
  Re (seq [RWordB;
           RGroup 1 (words ["4K"; "2160p"; "1080p"; "720p"; "576p"; "480p";
                            "360p"; "SD"]);
           RWordB]) true.

(* /\b(BluRay|Blu-Ray|BDRip|BRRip|WEB-DL|WEBDL|WEB-Rip|WEBRIP|WEB|HDRip|
      DVDRip|DVD-R|DVDScr|SCREENER|SCR|TS|TELESYNC|TC|TELECINE|CAM|HDTV|
      PDTV|SATRip|DSR|REMUX|Complete|REPACK|PROPER)\b/ig *)
Definition QUALITY_SOURCE : RegExp :=
  Re (seq [RWordB;
           RGroup 1 (words ["BluRay"; "Blu-Ray"; "BDRip"; "BRRip"; "WEB-DL";
                            "WEBDL"; "WEB-Rip"; "WEBRIP"; "WEB"; "HDRip";
                            "DVDRip"; "DVD-R"; "DVDScr"; "SCREENER"; "SCR";
                            "TS"; "TELESYNC"; "TC"; "TELECINE"; "CAM";
                            "HDTV"; "PDTV"; "SATRip"; "DSR"; "REMUX";
                            "Complete"; "REPACK"; "PROPER"]);
           RWordB]) true.

(* /\b(x26[45]|H\.?26[45]|HEVC|AV1|AVC|XViD|DiVX|VP9)\b/ig *)
Definition VIDEO_CODEC : RegExp :=
  let d45 := RSet [CChar "4"; CChar "5"] in
  Re (seq [RWordB;
           RGroup 1 (alts [seq [lit "x26"; d45];
                           seq [chr "H"; opt (chr "."); lit "26"; d45];
                           lit "HEVC"; lit "AV1"; lit "AVC"; lit "XViD";
                           lit "DiVX"; lit "VP9"]);
           RWordB]) true.

(* /\b(Atmos|TrueHD|DTS-HD(?:[\s.]?MA)?|DTS(?:-ES|-EX|-X)?|Dolby Digital Plus|
      DD\+|EAC3|AC3|AAC(?:-LC|-HE)?|MP3|Opus|FLAC|PCM|Vorbis|DD\+?P?5\.1|
      DD\+?P?7\.1|5\.1|7\.1|2\.0|LiNE|AUD|STEREO)\b/ig *)
Definition AUDIO_CODEC : RegExp :=
  let dd n := seq [lit "DD"; opt (chr "+"); opt (chr "P"); lit n] in
  Re (seq [RWordB;
           RGroup 1 (alts [lit "Atmos"; lit "TrueHD";
                           seq [lit "DTS-HD";
                                opt (seq [opt (RSet [CSpace; CChar "."]);
                                          lit "MA"])];
                           seq [lit "DTS";
                                opt (alts [lit "-ES"; lit "-EX"; lit "-X"])];
                           lit "Dolby Digital Plus"; lit "DD+"; lit "EAC3";
                           lit "AC3";
                           seq [lit "AAC"; opt (alts [lit "-LC"; lit "-HE"])];
                           lit "MP3"; lit "Opus"; lit "FLAC"; lit "PCM";
                           lit "Vorbis"; dd "5.1"; dd "7.1"; lit "5.1";
                           lit "7.1"; lit "2.0"; lit "LiNE"; lit "AUD";
                           lit "STEREO"]);
           RWordB]) true.

(* /\b(HDR10(?:Plus|\+)?|HDR|Dolby Vision|DV|HLG)\b/ig *)
Definition HDR : RegExp :=
  Re (seq [RWordB;
           RGroup 1 (alts [seq [lit "HDR10"; opt (alts [lit "Plus"; chr "+"])];
                           lit "HDR"; lit "Dolby Vision"; lit "DV";
                           lit "HLG"]);
           RWordB]) true.

(* /\b(3D)\b/ig *)
Definition THREE_D : RegExp :=
  Re (seq [RWordB; RGroup 1 (lit "3D"); RWordB]) true.

(* /\b(English|ENG|Spanish|SPA|ESP|French|FRE|FRA|FR|German|GER|DEU|DE|
      Italian|ITA|IT|Russian|RUS|RU|Japanese|JPN|JP|Korean|KOR|KO|Chinese|
      CHI|ZH|Mandarin|Cantonese|Hindi|HIN|HI|Tamil|TAM|TA|Telugu|TEL|TE|
      Malayalam|MAL|ML|Dual[\s.]Audio|Multi[\s.]Audio|VOSTFR|SUBFRENCH|
      ENGSUB|SUBBED)\b/ig *)
Definition LANGUAGES : RegExp :=
  let sd := RSet [CSpace; CChar "."] in
  Re (seq [RWordB;
           RGroup 1
             (alts (map (fun w => lit (S_ w))
                        ["English"; "ENG"; "Spanish"; "SPA"; "ESP"; "French";
                         "FRE"; "FRA"; "FR"; "German"; "GER"; "DEU"; "DE";
                         "Italian"; "ITA"; "IT"; "Russian"; "RUS"; "RU";
                         "Japanese"; "JPN"; "JP"; "Korean"; "KOR"; "KO";
                         "Chinese"; "CHI"; "ZH"; "Mandarin"; "Cantonese";
                         "Hindi"; "HIN"; "HI"; "Tamil"; "TAM"; "TA";
                         "Telugu"; "TEL"; "TE"; "Malayalam"; "MAL"; "ML"]
                    ++ [seq [lit "Dual"; sd; lit "Audio"];
                        seq [lit "Multi"; sd; lit "Audio"];
                        lit "VOSTFR"; lit "SUBFRENCH"; lit "ENGSUB";
                        lit "SUBBED"]));
           RWordB]) true.

(* /[Ss](\d{1,3})[Ee](\d{1,4})(?:-[Ee]?(\d{1,4}))?|[Ss](\d{1,3})(?!\d|p|K)|
    [Ee][Pp]?(\d{1,4})(?!\d|p|K)|PART\.?(\d{1,2})/gi *)
Definition SEASON_EPISODE : RegExp :=
  let Ss := RSet [CChar "S"; CChar "s"] in
  let Ee := RSet [CChar "E"; CChar "e"] in
  let Pp := RSet [CChar "P"; CChar "p"] in
  let stop := RNotAhead (alts [digit; chr "p"; chr "K"]) in
  Re (alts [seq [Ss; RGroup 1 (rep 1 3 digit); Ee; RGroup 2 (rep 1 4 digit);
                 opt (seq [chr "-"; opt Ee; RGroup 3 (rep 1 4 digit)])];
            seq [Ss; RGroup 4 (rep 1 3 digit); stop];
            seq [Ee; opt Pp; RGroup 5 (rep 1 4 digit); stop];
            seq [lit "PART"; opt (chr "."); RGroup 6 (rep 1 2 digit)]])
     true.

(* /(?:^|[\s.\-_\[])([a-zA-Z0-9]+(?:-[a-zA-Z0-9]+)?)$/i *)
Definition RELEASE_GROUP : RegExp :=
  let alnum := RSet [CRange "a" "z"; CRange "A" "Z"; CRange "0" "9"] in
  Re (seq [RAlt RBol
                (RSet [CSpace; CChar "."; CChar "-"; CChar "_"; CChar "["]);
           RGroup 1 (seq [plus alnum; opt (seq [chr "-"; plus alnum])]);
           REol]) true.

(* /(\d+(?:\.\d+)?)\s*(TB|GB|MB|KB|TiB|GiB|MiB|KiB)/ig *)
Definition SIZE : RegExp :=
  Re (seq [RGroup 1 (seq [plus digit; opt (seq [chr "."; plus digit])]);
           RStar (RSet [CSpace]);
           RGroup 2 (words ["TB"; "GB"; "MB"; "KB"; "TiB"; "GiB"; "MiB";
                            "KiB"])]) true.

End REGEX_PATTERNS.

(** [QUALITY_RANK_MAP], in the order of the source. *)
Definition QUALITY_RANK_MAP : list (string * VideoQualityRank) :=
  [("2160P BLURAY", UHD_BLURAY); ("4K BLURAY", UHD_BLURAY);
   ("2160P REMUX", UHD_BLURAY); ("4K REMUX", UHD_BLURAY);
   ("2160P WEB-DL", WEBDL_2160P); ("2160P WEBDL", WEBDL_2160P);
   ("4K WEB-DL", WEBDL_2160P); ("4K WEBDL", WEBDL_2160P);
   ("2160P WEB", WEBDL_2160P); ("4K WEB", WEBDL_2160P);
   ("2160P WEBRIP", WEBDL_2160P); ("4K WEBRIP", WEBDL_2160P);
   ("1080P BLURAY", BLURAY_1080P);
   ("1080P REMUX", BLURAY_1080P);
   ("1080P WEB-DL", WEBDL_1080P); ("1080P WEBDL", WEBDL_1080P);
   ("1080P WEB", WEBDL_1080P); ("1080P WEBRIP", WEBDL_1080P);
   ("1080P BDRIP", BLURAY_1080P); ("1080P BRRIP", BLURAY_1080P);
   ("1080P HDTV", HDTV_1080P);
   ("720P BLURAY", BLURAY_720P);
   ("720P REMUX", BLURAY_720P);
   ("720P WEB-DL", WEBDL_720P); ("720P WEBDL", WEBDL_720P);
   ("720P WEB", WEBDL_720P); ("720P WEBRIP", WEBDL_720P);
   ("720P BDRIP", BLURAY_720P); ("720P BRRIP", BLURAY_720P);
   ("720P HDTV", HDTV_720P);
   ("DVDRIP", DVD); ("DVD-R", DVD);
   ("480P DVD", DVD); ("576P DVD", DVD);
   ("480P BDRIP", DVD); ("576P BDRIP", DVD);
   ("480P", SD); ("576P", SD); ("SD", SD);
   ("DVDSCR", LOW_QUALITY); ("SCREENER", LOW_QUALITY); ("SCR", LOW_QUALITY);
   ("TS", LOW_QUALITY); ("TELESYNC", LOW_QUALITY);
   ("TC", LOW_QUALITY); ("TELECINE", LOW_QUALITY);
   ("CAM", LOW_QUALITY); ("CAMRIP", LOW_QUALITY);
   ("BLURAY", BLURAY_1080P);
   ("WEB-DL", WEBDL_1080P); ("WEBDL", WEBDL_1080P);
   ("WEB", WEBDL_1080P); ("WEBRIP", WEBDL_1080P);
   ("BDRIP", BLURAY_720P); ("BRRIP", BLURAY_720P);
   ("HDTV", HDTV_720P);
   ("UNKNOWN", UNKNOWN)].

Definition LOW_QUALITY_TERMS : list string :=
  ["CAM"; "CAMRIP"; "TS"; "TELESYNC"; "TC"; "TELECINE"; "SCR"; "SCREENER";
   "DVDSCR"; "PDVD"].

Definition LOW_QUALITY_RESOLUTIONS : list string := ["480P"; "360P"; "SD"].

Definition LANGUAGE_MAP : list (string * string) :=
  [("ENG", "English"); ("ENGLISH", "English"); ("EN", "English");
   ("SPA", "Spanish"); ("ESPANOL", "Spanish"); ("ESP", "Spanish");
   ("ES", "Spanish");
   ("FRE", "French"); ("FRENCH", "French"); ("FRA", "French");
   ("FR", "French");
   ("GER", "German"); ("GERMAN", "German"); ("DEU", "German");
   ("DE", "German");
   ("ITA", "Italian"); ("ITALIAN", "Italian"); ("IT", "Italian");
   ("RUS", "Russian"); ("RUSSIAN", "Russian"); ("RU", "Russian");
   ("JPN", "Japanese"); ("JAPANESE", "Japanese"); ("JP", "Japanese");
   ("KOR", "Korean"); ("KOREAN", "Korean"); ("KO", "Korean");
   ("CHI", "Chinese"); ("CHINESE", "Chinese"); ("ZH", "Chinese");
   ("HIN", "Hindi"); ("HINDI", "Hindi"); ("HI", "Hindi");
   ("TAM", "Tamil"); ("TA", "Tamil");
   ("TEL", "Telugu"); ("TE", "Telugu");
   ("MAL", "Malayalam"); ("ML", "Malayalam");
   ("DUALAUDIO", "Dual Audio"); ("MULTIAUDIO", "Multi Audio");
   ("DUAL", "Dual Audio"); ("MULTI", "Multi Audio");
   ("VOSTFR", "French (VOSTFR)"); ("SUBFRENCH", "French (Subbed)");
   ("ENGSUB", "English Subtitles"); ("SUBBED", "Subbed")].

(** [table[key]] on an object literal used as a lookup table. *)
Fixpoint lookup {A : Type} (table : list (string * A)) (key : str) : option A :=
  match table with
  | [] => None
  | (k, v) :: table' => if str_eqb (S_ k) key then Some v else lookup table' key
  end.

(** [COMMON_TRASH_TERMS]: every plain term becomes [\bterm\b], the last entry
    is the pattern [\[[a-zA-Z0-9\s\-]+\]]; all carry the flags [ig]. *)
Definition COMMON_TRASH_TERMS : list RegExp :=
  map (fun term => Re (seq [RWordB; lit (S_ term); RWordB]) true)
      ["REQ"; "REQUEST"; "RARBG"; "PROPER"; "REPACK"; "REAL"; "FINAL";
       "UNRATED"; "DIRECTORS CUT"; "EXTENDED"; "LIMITED"; "CRITERION";
       "COLLECTION"; "INTERNAL"; "COMPLETE"; "SUBBED"; "SUBS"; "SUBTITLE";
       "SUBTITLES"]
  ++ [Re (seq [chr "[";
               plus (RSet [CRange "a" "z"; CRange "A" "Z"; CRange "0" "9";
                           CSpace; CChar "-"]);
               chr "]"]) true].

(** ** metadataParser.ts *)

(** *** Assignment to one field of the metadata object *)

Definition set_cleanedTitle (v : option str) (m : ParsedMetadata) : ParsedMetadata :=
  mkMeta (originalTitle m) v (year m) (resolution m) (qualitySource m)
    (videoCodec m) (audioCodec m) (languages m) (isHDR m) (is3D m)
    (releaseGroup m) (episodeInfo m) (rawSize m) (calculatedSize m)
    (seeders m).

Definition set_year (v : option Z) (m : ParsedMetadata) : ParsedMetadata :=
  mkMeta (originalTitle m) (cleanedTitle m) v (resolution m)
    (qualitySource m) (videoCodec m) (audioCodec m) (languages m) (isHDR m)
    (is3D m) (releaseGroup m) (episodeInfo m) (rawSize m)
    (calculatedSize m) (seeders m).

Definition set_resolution (v : option str) (m : ParsedMetadata) : ParsedMetadata :=
  mkMeta (originalTitle m) (cleanedTitle m) (year m) v (qualitySource m)
    (videoCodec m) (audioCodec m) (languages m) (isHDR m) (is3D m)
    (releaseGroup m) (episodeInfo m) (rawSize m) (calculatedSize m)
    (seeders m).

Definition set_qualitySource (v : option str) (m : ParsedMetadata) : ParsedMetadata :=
  mkMeta (originalTitle m) (cleanedTitle m) (year m) (resolution m) v
    (videoCodec m) (audioCodec m) (languages m) (isHDR m) (is3D m)
    (releaseGroup m) (episodeInfo m) (rawSize m) (calculatedSize m)
    (seeders m).

Definition set_videoCodec (v : option str) (m : ParsedMetadata) : ParsedMetadata :=
  mkMeta (originalTitle m) (cleanedTitle m) (year m) (resolution m)
    (qualitySource m) v (audioCodec m) (languages m) (isHDR m) (is3D m)
    (releaseGroup m) (episodeInfo m) (rawSize m) (calculatedSize m)
    (seeders m).

Definition set_audioCodec (v : option StrOrArr) (m : ParsedMetadata) : ParsedMetadata :=
  mkMeta (originalTitle m) (cleanedTitle m) (year m) (resolution m)
    (qualitySource m) (videoCodec m) v (languages m) (isHDR m) (is3D m)
    (releaseGroup m) (episodeInfo m) (rawSize m) (calculatedSize m)
    (seeders m).

Definition set_languages (v : option (list str)) (m : ParsedMetadata) : ParsedMetadata :=
  mkMeta (originalTitle m) (cleanedTitle m) (year m) (resolution m)
    (qualitySource m) (videoCodec m) (audioCodec m) v (isHDR m) (is3D m)
    (releaseGroup m) (episodeInfo m) (rawSize m) (calculatedSize m)
    (seeders m).

Definition set_isHDR (v : option bool) (m : ParsedMetadata) : ParsedMetadata :=
  mkMeta (originalTitle m) (cleanedTitle m) (year m) (resolution m)
    (qualitySource m) (videoCodec m) (audioCodec m) (languages m) v
    (is3D m) (releaseGroup m) (episodeInfo m) (rawSize m)
    (calculatedSize m) (seeders m).

Definition set_is3D (v : option bool) (m : ParsedMetadata) : ParsedMetadata :=
  mkMeta (originalTitle m) (cleanedTitle m) (year m) (resolution m)
    (qualitySource m) (videoCodec m) (audioCodec m) (languages m) (isHDR m)
    v (releaseGroup m) (episodeInfo m) (rawSize m) (calculatedSize m)
    (seeders m).

Definition set_releaseGroup (v : option str) (m : ParsedMetadata) : ParsedMetadata :=
  mkMeta (originalTitle m) (cleanedTitle m) (year m) (resolution m)
    (qualitySource m) (videoCodec m) (audioCodec m) (languages m) (isHDR m)
    (is3D m) v (episodeInfo m) (rawSize m) (calculatedSize m) (seeders m).

Definition set_episodeInfo (v : option str) (m : ParsedMetadata) : ParsedMetadata :=
  mkMeta (originalTitle m) (cleanedTitle m) (year m) (resolution m)
    (qualitySource m) (videoCodec m) (audioCodec m) (languages m) (isHDR m)
    (is3D m) (releaseGroup m) v (rawSize m) (calculatedSize m) (seeders m).

Definition set_rawSize (v : option str) (m : ParsedMetadata) : ParsedMetadata :=
  mkMeta (originalTitle m) (cleanedTitle m) (year m) (resolution m)
    (qualitySource m) (videoCodec m) (audioCodec m) (languages m) (isHDR m)
    (is3D m) (releaseGroup m) (episodeInfo m) v (calculatedSize m)
    (seeders m).

Definition set_calculatedSize (v : option Q) (m : ParsedMetadata) : ParsedMetadata :=
  mkMeta (originalTitle m) (cleanedTitle m) (year m) (resolution m)
    (qualitySource m) (videoCodec m) (audioCodec m) (languages m) (isHDR m)
    (is3D m) (releaseGroup m) (episodeInfo m) (rawSize m) v (seeders m).

Definition set_seeders (v : option Z) (m : ParsedMetadata) : ParsedMetadata :=
  mkMeta (originalTitle m) (cleanedTitle m) (year m) (resolution m)
    (qualitySource m) (videoCodec m) (audioCodec m) (languages m) (isHDR m)
    (is3D m) (releaseGroup m) (episodeInfo m) (rawSize m)
    (calculatedSize m) v.


(** A settable field, as [keyof ParsedMetadata] is used by the extraction
    helpers: how to read it, how to assign it, and which values the guard
    [!metadata[field]] takes for present. *)
Record Field (A : Type) : Type := mkField {
  fget : ParsedMetadata -> option A;
  fset : A -> ParsedMetadata -> ParsedMetadata;
  fpresent : A -> bool
}.

Definition nonempty (s : str) : bool :=
  match s with [] => false | _ :: _ => true end.

Definition f_year : Field Z :=
  mkField year (fun v => set_year (Some v)) (fun z => negb (z =? 0)%Z).
Definition f_episodeInfo : Field str :=
  mkField episodeInfo (fun v => set_episodeInfo (Some v)) nonempty.
Definition f_resolution : Field str :=
  mkField resolution (fun v => set_resolution (Some v)) nonempty.
Definition f_qualitySource : Field str :=
  mkField qualitySource (fun v => set_qualitySource (Some v)) nonempty.
Definition f_videoCodec : Field str :=
  mkField videoCodec (fun v => set_videoCodec (Some v)) nonempty.
Definition f_releaseGroup : Field str :=
  mkField releaseGroup (fun v => set_releaseGroup (Some v)) nonempty.

(** For [audioCodec] the guard of [extractAllMatches] also takes an empty
    string or array for absent. *)
Definition f_audioCodec : Field StrOrArr :=
  mkField audioCodec (fun v => set_audioCodec (Some v))
          (fun v => match v with
                    | OneStr s => nonempty s
                    | StrArr l => negb (length l =? 0)
                    end).

(** [metadata[field]] holds a value the guards take for present. *)
Definition is_set {A : Type} (f : Field A) (m : ParsedMetadata) : bool :=
  match fget f m with
  | Some v => fpresent f v
  | None => false
  end.

(** *** parseSize *)

(** [m[i]] where the group is known to take part in every match. *)
Definition group_text (i : nat) (m : rmatch_result) : str :=
  match group i (groups m) with Some s => s | None => [] end.

(* /(\d+(?:\.\d+)?)\s*(TB|GB|MB|KB|TiB|GiB|MiB|KiB)/i *)
Definition sizeRegexLocal : RegExp :=
  Re (seq [RGroup 1 (seq [plus digit; opt (seq [chr "."; plus digit])]);
           RStar (RSet [CSpace]);
           RGroup 2 (words ["TB"; "GB"; "MB"; "KB"; "TiB"; "GiB"; "MiB";
                            "KiB"])]) true.

(** The arithmetic of [parseSize] once the pattern has matched. *)
Definition parseSize_unit (value : Q) (unit : str) : option Q :=
  if startsWith unit "KB" || startsWith unit "KIB"
  then Some (value * 1024)%Q
  else if startsWith unit "MB" || startsWith unit "MIB"
  then Some (value * 1024 * 1024)%Q
  else if startsWith unit "GB" || startsWith unit "GIB"
  then Some (value * 1024 * 1024 * 1024)%Q
  else if startsWith unit "TB" || startsWith unit "TIB"
  then Some (value * 1024 * 1024 * 1024 * 1024)%Q
  else None.

Definition parseSize (sizeStr : str) : option Q :=
  match exec sizeRegexLocal sizeStr with
  | None => None
  | Some localMatch =>
      let value := parseFloat (group_text 1 localMatch) in
      let unit := toUpperCase (group_text 2 localMatch) in
      parseSize_unit value unit
  end.

(** *** cleanTitle *)

(** [(?:^|[.\s_\-\[])term(?:[.\s_\-\]]|$)] with the flags [ig]; the term is
    escaped in the source, so it stands for itself. *)
Definition termRegex (term : str) : RegExp :=
  Re (seq [RAlt RBol
                (RSet [CChar "."; CSpace; CChar "_"; CChar "-"; CChar "["]);
           lit term;
           RAlt (RSet [CChar "."; CSpace; CChar "_"; CChar "-"; CChar "]"])
                REol]) true.

(** [[.\s_-]?text[.\s_-]?] with the flags [ig], as the fallback builds it for
    the year and the release group.  The text is spliced in unescaped; it is
    read here as a literal, which it is for every value the extractor can
    produce (digits; letters and digits with at most one hyphen). *)
Definition looseRegex (text : str) : RegExp :=
  let sep := RSet [CChar "."; CSpace; CChar "_"; CChar "-"] in
  Re (seq [opt sep; lit text; opt sep]) true.

(* /[._-]+/g *)
Definition separatorsRegex : RegExp :=
  Re (plus (RSet [CChar "."; CChar "_"; CChar "-"])) false.

(* /\s+/g *)
Definition spacesRegex : RegExp := Re (plus (RSet [CSpace])) false.

(* /^\d{4}$/ *)
Definition fourDigitsRegex : RegExp :=
  Re (seq [RBol; rep 4 4 digit; REol]) false.

(** [.replace(/[._-]+/g, ' ').replace(/\s+/g, ' ').trim()]. *)
Definition collapse (s : str) : str :=
  trim (replaceAll spacesRegex " " (replaceAll separatorsRegex " " s)).

(** What [filter(Boolean)] keeps of an optional string. *)
Definition keep (o : option str) : list str :=
  match o with
  | Some (c :: s) => [c :: s]
  | _ => []
  end.

(** The array [toRemoveExact]. *)
Definition toRemoveExact (parsedMeta : ParsedMetadata) : list str :=
  keep (option_map string_of_Z (year parsedMeta))
  ++ keep (resolution parsedMeta)
  ++ keep (qualitySource parsedMeta)
  ++ keep (videoCodec parsedMeta)
  ++ keep (if truthy_bool (isHDR parsedMeta)
           then match exec REGEX_PATTERNS.HDR (originalTitle parsedMeta) with
                | Some m => if nonempty (whole m) then Some (whole m)
                            else Some ("HDR" : str)
                | None => Some ("HDR" : str)
                end
           else None)
  ++ keep (if truthy_bool (is3D parsedMeta) then Some ("3D" : str) else None)
  ++ keep (episodeInfo parsedMeta)
  ++ keep (releaseGroup parsedMeta)
  ++ flat_map (fun lang => keep (Some lang))
       (match languages parsedMeta with
        | Some langs =>
            filter (fun lang =>
                      (length lang <=? 3)
                      || match lookup LANGUAGE_MAP (toUpperCase lang) with
                         | Some _ => true
                         | None => false
                         end) langs
        | None => []
        end).

(** The first part of [cleanTitle]: strip the captured values and the trash
    terms, then collapse the separators. *)
Definition primaryClean (title : str) (parsedMeta : ParsedMetadata) : str :=
  let cleaned :=
    fold_left (fun cleaned term => replaceAll (termRegex term) " " cleaned)
              (toRemoveExact parsedMeta) title in
  let cleaned :=
    fold_left (fun cleaned trashRegex => replaceAll trashRegex " " cleaned)
              COMMON_TRASH_TERMS cleaned in
  collapse cleaned.

(** The branch taken when the primary result is implausible. *)
Definition fallbackClean (title : str) (parsedMeta : ParsedMetadata)
    (originalSearchTitle : option str) : str :=
  let fallbackCleaned :=
    match or_str originalSearchTitle (Some title) with
    | Some s => s
    | None => title
    end in
  let fallbackCleaned :=
    match year parsedMeta with
    | Some y =>
        if negb (y =? 0)%Z
        then replaceAll (looseRegex (string_of_Z y)) " " fallbackCleaned
        else fallbackCleaned
    | None => fallbackCleaned
    end in
  let fallbackCleaned :=
    match releaseGroup parsedMeta with
    | Some (c :: g) => replaceAll (looseRegex (c :: g)) " " fallbackCleaned
    | _ => fallbackCleaned
    end in
  let fallbackCleaned := collapse fallbackCleaned in
  match fallbackCleaned, releaseGroup parsedMeta with
  | [], Some (c :: g) => trim (replaceAll (looseRegex (c :: g)) [] title)
  | [], _ => trim title
  | _ :: _, _ => fallbackCleaned
  end.

Definition cleanTitle (title : str) (parsedMeta : ParsedMetadata)
    (originalSearchTitle : option str) : str :=
  let cleaned := primaryClean title parsedMeta in
  if ((length cleaned <? 5) && (10 <? length title))
     || test fourDigitsRegex cleaned
  then fallbackClean title parsedMeta originalSearchTitle
  else cleaned.

(** *** parseTorrentTitle *)

(** [extractFirstMatch(regex, field, transform)]: the leftmost match, its
    first group if any, transformed, assigned only when the field is not
    already set. *)
Definition extractFirstMatch {A : Type} (regex : RegExp) (field : Field A)
    (transform : str -> A) (workTitle : str) (metadata : ParsedMetadata)
    : ParsedMetadata :=
  match exec regex workTitle with
  | Some m =>
      let valueToSet := group1_or_whole m in
      let processedValue := transform valueToSet in
      if is_set field metadata then metadata
      else fset field processedValue metadata
  | None => metadata
  end.

(** [extractAllMatches(regex, field, unique)] with the default transform. *)
Definition extractAllMatches (regex : RegExp) (field : Field StrOrArr)
    (unique : bool) (workTitle : str) (metadata : ParsedMetadata)
    : ParsedMetadata :=
  let values :=
    map (fun m => toUpperCase (group1_or_whole m)) (matchAll regex workTitle) in
  match values with
  | [] => metadata
  | _ :: _ =>
      let finalValues := if unique then uniq values else values in
      if is_set field metadata then metadata
      else fset field
             (match finalValues with
              | [v] => if unique then OneStr v else StrArr finalValues
              | _ => StrArr finalValues
              end) metadata
  end.

(** [s.split(/[+,]/)]. *)
Fixpoint split_plus_comma (s : str) : list str :=
  match s with
  | [] => [[]]
  | c :: s' =>
      if ascii_eqb c "+" || ascii_eqb c ","
      then [] :: split_plus_comma s'
      else match split_plus_comma s' with
           | w :: ws => (c :: w) :: ws
           | [] => [[c]]
           end
  end.

(* /[\s.]AUDIO/ and /SUB$/ *)
Definition audioSuffixRegex : RegExp :=
  Re (seq [RSet [CSpace; CChar "."]; lit "AUDIO"]) false.
Definition subSuffixRegex : RegExp := Re (seq [lit "SUB"; REol]) false.

(** The body of the language loop for one match: what it pushes. *)
Definition languagesOfMatch (langMatch : rmatch_result) : list str :=
  let langKeyPart := group1_or_whole langMatch in
  let langKey :=
    trim (replaceFirst subSuffixRegex []
            (replaceFirst audioSuffixRegex [] (toUpperCase langKeyPart))) in
  let short (s : str) := (2 <=? length s) && (length s <=? 7) in
  match lookup LANGUAGE_MAP langKey with
  | Some name => [S_ name]
  | None =>
      if includes langKey "+" || includes langKey ","
      then flat_map (fun sl =>
                       match lookup LANGUAGE_MAP sl with
                       | Some name => [S_ name]
                       | None => if short sl then [sl] else []
                       end)
                    (map trim (split_plus_comma langKey))
      else if short langKey then [langKey] else []
  end.

Section Passes.

Variable title : str.
Variable originalSearchTitle : option str.
Variable torrentYearFromBitmagnet : option Z.

(** [workTitle] is never reassigned (the statement that would do it is
    commented out in the source). *)
Let workTitle : str := title.

(* 1. Year *)
Definition pass_year (metadata : ParsedMetadata) : ParsedMetadata :=
  if truthy_Z torrentYearFromBitmagnet
  then set_year torrentYearFromBitmagnet metadata
  else extractFirstMatch REGEX_PATTERNS.YEAR f_year parseInt
         workTitle metadata.

(* 2. Season/Episode Info *)
Definition pass_episodeInfo : ParsedMetadata -> ParsedMetadata :=
  extractFirstMatch REGEX_PATTERNS.SEASON_EPISODE f_episodeInfo toUpperCase
    workTitle.

(* 3. Resolution *)
Definition pass_resolution : ParsedMetadata -> ParsedMetadata :=
  extractFirstMatch REGEX_PATTERNS.RESOLUTION f_resolution toUpperCase
    workTitle.

(* 4. Quality Source *)
Definition pass_qualitySource : ParsedMetadata -> ParsedMetadata :=
  extractFirstMatch REGEX_PATTERNS.QUALITY_SOURCE f_qualitySource toUpperCase
    workTitle.

(* 5. Video Codec *)
Definition pass_videoCodec : ParsedMetadata -> ParsedMetadata :=
  extractFirstMatch REGEX_PATTERNS.VIDEO_CODEC f_videoCodec toUpperCase
    workTitle.

(* 6. Audio Codecs, consolidated into one string *)
Definition pass_audioCodec (metadata : ParsedMetadata) : ParsedMetadata :=
  let metadata :=
    extractAllMatches REGEX_PATTERNS.AUDIO_CODEC f_audioCodec true
      workTitle metadata in
  match audioCodec metadata with
  | Some (StrArr l) => set_audioCodec (Some (OneStr (join " " l))) metadata
  | _ => metadata
  end.

(* 7. HDR and 3D *)
Definition pass_flags (metadata : ParsedMetadata) : ParsedMetadata :=
  let metadata :=
    if test REGEX_PATTERNS.HDR workTitle
    then set_isHDR (Some true) metadata else metadata in
  if test REGEX_PATTERNS.THREE_D workTitle
  then set_is3D (Some true) metadata else metadata.

(* 8. Languages *)
Definition pass_languages (metadata : ParsedMetadata) : ParsedMetadata :=
  let foundLanguages :=
    flat_map languagesOfMatch (matchAll REGEX_PATTERNS.LANGUAGES workTitle) in
  match foundLanguages with
  | [] => metadata
  | _ :: _ =>
      set_languages
        (Some (uniq (filter (fun l => (1 <? length l)
                                      && negb (includes l "AUDIO"))
                            foundLanguages)))
        metadata
  end.

(* 9. Release Group *)
Definition pass_releaseGroup : ParsedMetadata -> ParsedMetadata :=
  extractFirstMatch REGEX_PATTERNS.RELEASE_GROUP f_releaseGroup
    (fun val => if startsWith val "-" then skipn 1 val else val)
    workTitle.

(* 10. Size, matched against the original title *)
Definition pass_size (metadata : ParsedMetadata) : ParsedMetadata :=
  match exec REGEX_PATTERNS.SIZE title with
  | Some sizeMatchInTitle =>
      if nonempty (whole sizeMatchInTitle)
      then
        let metadata := set_rawSize (Some (whole sizeMatchInTitle)) metadata in
        if truthy_Q (calculatedSize metadata) then metadata
        else set_calculatedSize (parseSize (whole sizeMatchInTitle)) metadata
      else metadata
  | None => metadata
  end.

(* 11. Cleaned Title *)
Definition pass_cleanedTitle (metadata : ParsedMetadata) : ParsedMetadata :=
  set_cleanedTitle (Some (cleanTitle title metadata originalSearchTitle))
    metadata.

(* Final check for year *)
Definition pass_yearFromSearch (metadata : ParsedMetadata) : ParsedMetadata :=
  if negb (truthy_Z (year metadata)) && truthy_str originalSearchTitle
  then match originalSearchTitle with
       | Some ost =>
           match exec REGEX_PATTERNS.YEAR ost with
           | Some m =>
               if nonempty (whole m)
               then set_year (Some (parseInt (whole m))) metadata
               else metadata
           | None => metadata
           end
       | None => metadata
       end
  else metadata.

(** The extraction passes, in the order the function runs them. *)
Definition passes : list (ParsedMetadata -> ParsedMetadata) :=
  [pass_year; pass_episodeInfo; pass_resolution; pass_qualitySource;
   pass_videoCodec; pass_audioCodec; pass_flags; pass_languages;
   pass_releaseGroup; pass_size; pass_cleanedTitle; pass_yearFromSearch].

(** [const metadata: ParsedMetadata = { originalTitle: title }]. *)
Definition emptyMetadata : ParsedMetadata :=
  mkMeta title None None None None None None None None None None None None
         None None.

Definition run (ps : list (ParsedMetadata -> ParsedMetadata))
    (metadata : ParsedMetadata) : ParsedMetadata :=
  fold_left (fun md p => p md) ps metadata.

Definition parseTorrentTitle : ParsedMetadata := run passes emptyMetadata.

End Passes.

(** ** stremioFormatter.ts *)

(** The value of an optional string where the program has just tested it. *)
Definition text (o : option str) : str :=
  match o with Some s => s | None => [] end.

(** [if (QUALITY_RANK_MAP[key]) return QUALITY_RANK_MAP[key]]: the entry, when
    there is one and its number is not [0]. *)
Definition rankOf (key : str) : option VideoQualityRank :=
  match lookup QUALITY_RANK_MAP key with
  | Some r => if (rank_value r =? 0)%Z then None else Some r
  | None => None
  end.

(* /-/g and /[\s-]/ *)
Definition hyphenRegex : RegExp := Re (chr "-") false.
Definition spaceOrHyphenRegex : RegExp := Re (RSet [CSpace; CChar "-"]) false.

(** [LOW_QUALITY_TERMS.some(lqs => source.includes(lqs.toUpperCase()))]. *)
Definition hasLowQualityTerm (source : str) : bool :=
  existsb (fun lqs => includes source (toUpperCase (S_ lqs))) LOW_QUALITY_TERMS.

Definition isLowQualityResolution (resolution : str) : bool :=
  arr_includes (map S_ LOW_QUALITY_RESOLUTIONS) resolution.

Definition first_some {A : Type} (a b : option A) : option A :=
  match a with Some _ => a | None => b end.

Definition getQualityRank (parsedMeta : option ParsedMetadata)
    : VideoQualityRank :=
  match parsedMeta with
  | None => UNKNOWN
  | Some parsedMeta =>
      let resolution := option_map toUpperCase (resolution parsedMeta) in
      let source := option_map toUpperCase (qualitySource parsedMeta) in
      if truthy_str source && hasLowQualityTerm (text source)
      then LOW_QUALITY
      else if truthy_str resolution && isLowQualityResolution (text resolution)
      then
        if truthy_str source
           && (includes (text source) "DVD" || includes (text source) "BDRIP"
               || includes (text source) "BRRIP")
        then DVD
        else SD
      else
        let combined :=
          if truthy_str resolution && truthy_str source
          then
            let combinedKey :=
              text resolution ++ S_ " " ++ replaceAll hyphenRegex [] (text source) in
            let sourceFirstPart := splitHead spaceOrHyphenRegex (text source) in
            first_some (rankOf combinedKey)
                       (rankOf (text resolution ++ S_ " " ++ sourceFirstPart))
          else None in
        let sourceAlone :=
          if truthy_str source
          then rankOf (replaceAll hyphenRegex [] (text source))
          else None in
        let resolutionAlone :=
          if truthy_str resolution then rankOf (text resolution) else None in
        match first_some combined (first_some sourceAlone resolutionAlone) with
        | Some r => r
        | None => UNKNOWN
        end
  end.

(** ** utils/standardization.ts *)

(* /(?<!\d)(?:1[89]\d{2}|20\d{2})(?!\d)/ *)
Definition yearRegex : RegExp :=
  Re (seq [RNotBehind [CDigit];
           RAlt (seq [chr "1"; RSet [CChar "8"; CChar "9"]; rep 2 2 digit])
                (seq [lit "20"; rep 2 2 digit]);
           RNotAhead digit]) false.

(** [standardizeYear(yearInput)] for a string; [currentYear] stands for
    [new Date().getFullYear()]. *)
Definition standardizeYear (currentYear : Z) (yearInput : str) : option Z :=
  let yearString := trim yearInput in
  match exec yearRegex yearString with
  | Some m =>
      if nonempty (whole m)
      then
        let year := parseInt (whole m) in
        if (1880 <=? year)%Z && (year <=? currentYear + 5)%Z
        then Some year else None
      else None
  | None => None
  end.

(** ** addonService.ts: [processStreamRequest] after the queries returned *)

(** *** De-duplication: [Array.from(new Map(rawResults.map(item =>
        [item.infoHash, item])).values())] *)

(** [map.set(k, v)] on a [Map] kept as its entries in insertion order: an
    existing key keeps its place and takes the new value, a new key is
    appended. *)
Fixpoint Map_set {V : Type} (k : str) (v : V) (m : list (str * V))
    : list (str * V) :=
  match m with
  | [] => [(k, v)]
  | (k', v') :: m' =>
      if str_eqb k' k then (k', v) :: m' else (k', v') :: Map_set k v m'
  end.

(** [new Map(entries)]: the entries are set one after the other. *)
Definition Map_of {V : Type} (entries : list (str * V)) : list (str * V) :=
  fold_left (fun m kv => Map_set (fst kv) (snd kv) m) entries [].

(** [map.values()]. *)
Definition Map_values {V : Type} (m : list (str * V)) : list V := map snd m.

Definition uniqueResults (rawResults : list BitmagnetTorrent)
    : list BitmagnetTorrent :=
  Map_values (Map_of (map (fun item => (t_infoHash item, item)) rawResults)).

(** *** The episode test *)

Definition seasonAlternatives (n : Z) : regex :=
  RAlt (lit (padStart2 (string_of_Z n))) (lit (string_of_Z n)).

(* new RegExp(`[Ss](${pad(season)}|${season})[Ee](${pad(episode)}|${episode})`, 'i') *)
Definition sePattern (season episode : Z) : RegExp :=
  Re (seq [RSet [CChar "S"; CChar "s"]; RGroup 1 (seasonAlternatives season);
           RSet [CChar "E"; CChar "e"]; RGroup 2 (seasonAlternatives episode)])
     true.

(* new RegExp(`[Ss](${pad(season)}|${season})(?!\\d|([Ee]))`, 'i') *)
Definition seasonPackPattern (season : Z) : RegExp :=
  Re (seq [RSet [CChar "S"; CChar "s"]; RGroup 1 (seasonAlternatives season);
           RNotAhead (RAlt digit (RGroup 2 (RSet [CChar "E"; CChar "e"])))])
     true.

(** The test applied to a title's [episodeInfo] once the request is known to
    be for one episode of a series. *)
Definition episodeInfoMatches (season episode : Z) (episodeInfo : str) : bool :=
  test (sePattern season episode) episodeInfo
  || test (seasonPackPattern season) episodeInfo.

Definition is_series (type : StremioItemType) : bool :=
  match type with series => true | _ => false end.

(** [true] when the callback of [uniqueResults.map] returns [null]. *)
Definition rejectedByEpisode (type : StremioItemType) (season episode : option Z)
    (parsedMeta : ParsedMetadata) : bool :=
  is_series type && truthy_Z season && truthy_Z episode
  && truthy_str (episodeInfo parsedMeta)
  && negb (episodeInfoMatches (match season with Some n => n | None => 0%Z end)
                              (match episode with Some n => n | None => 0%Z end)
                              (text (episodeInfo parsedMeta))).

(** [a || b || 0] on the two optional seeder counts. *)
Definition seedersOrZero (a b : option Z) : Z :=
  match or_Z (or_Z a b) (Some 0%Z) with Some z => z | None => 0%Z end.

Section Request.

Variable currentYear : Z.
Variable type : StremioItemType.
Variables season episode : option Z.
Variable standardizedTitle : str.
Variable standardizedYear : option Z.
Variable config : AddonConfig.

(** The callback of [uniqueResults.map]: parse the title, test the episode,
    overlay the fields the index supplied, build the candidate. *)
Definition toStream (torrent : BitmagnetTorrent) : option StremioStream :=
  let torrentYearFromBitmagnetRelease :=
    if truthy_str (t_releaseDate torrent)
    then standardizeYear currentYear (text (t_releaseDate torrent))
    else None in
  let contextYearForParsing :=
    or_Z torrentYearFromBitmagnetRelease standardizedYear in
  let parsedMeta :=
    parseTorrentTitle (t_title torrent) (Some standardizedTitle)
                      contextYearForParsing in
  if rejectedByEpisode type season episode parsedMeta then None
  else
    let parsedMeta :=
      set_resolution (or_str (t_videoResolution torrent) (resolution parsedMeta))
                     parsedMeta in
    let parsedMeta :=
      set_videoCodec (or_str (t_videoCodec torrent) (videoCodec parsedMeta))
                     parsedMeta in
    let parsedMeta :=
      set_qualitySource (or_str (t_source torrent) (qualitySource parsedMeta))
                        parsedMeta in
    Some (mkStream
            (Some (t_infoHash torrent))
            (Some (set_calculatedSize
                     (or_Q (t_size torrent) (calculatedSize parsedMeta))
                     (set_seeders
                        (Some (seedersOrZero (t_seeders torrent)
                                             (seeders parsedMeta)))
                        parsedMeta)))
            (Some (seedersOrZero (t_seeders torrent) (seeders parsedMeta)))
            (or_Q (t_size torrent) (calculatedSize parsedMeta))).

(** [uniqueResults.map(...).filter(stream => stream !== null)]. *)
Definition parsedStreams (unique : list BitmagnetTorrent) : list StremioStream :=
  flat_map (fun torrent => match toStream torrent with
                           | Some s => [s]
                           | None => []
                           end) unique.

(** [stream.seeders || 0]. *)
Definition seedersOf (stream : StremioStream) : Z :=
  match or_Z (s_seeders stream) (Some 0%Z) with Some z => z | None => 0%Z end.

(** The minimum-seeders filter. *)
Definition minSeedersFilter (streams : list StremioStream) : list StremioStream :=
  if (0 <? minSeeders config)%Z
  then filter (fun stream => (minSeeders config <=? seedersOf stream)%Z) streams
  else streams.

(** The callback of the low-quality filter: [true] keeps the stream. *)
Definition keepsQuality (stream : StremioStream) : bool :=
  let rank := getQualityRank (s_parsedMeta stream) in
  if rank_eqb rank LOW_QUALITY || rank_eqb rank UNKNOWN then false
  else
    let sourceUpper :=
      match s_parsedMeta stream with
      | Some pm => option_map toUpperCase (qualitySource pm)
      | None => None
      end in
    if truthy_str sourceUpper
       && existsb (fun lqTerm => includes (text sourceUpper) (S_ lqTerm))
                  LOW_QUALITY_TERMS
    then false
    else
      let resUpper :=
        match s_parsedMeta stream with
        | Some pm => option_map toUpperCase (resolution pm)
        | None => None
        end in
      if truthy_str resUpper && isLowQualityResolution (text resUpper)
         && rank_ltb rank DVD
      then false
      else true.

Definition hasHighQuality (streams : list StremioStream) : bool :=
  existsb (fun stream => rank_leb HDTV_720P (getQualityRank (s_parsedMeta stream)))
          streams.

(** The low-quality elimination. *)
Definition lowQualityFilter (streams : list StremioStream) : list StremioStream :=
  if filterLowQuality config && negb (length streams =? 0)
  then if hasHighQuality streams then filter keepsQuality streams else streams
  else streams.

(** *** The comparator handed to [parsedStreams.sort] *)

Definition languagesOf (stream : StremioStream) : option (list str) :=
  match s_parsedMeta stream with
  | Some pm => languages pm
  | None => None
  end.

(** [resolution?.toUpperCase() || 'UNKNOWN']. *)
Definition resolutionKey (pm : ParsedMetadata) : str :=
  match or_str (option_map toUpperCase (resolution pm))
               (Some ("UNKNOWN" : str)) with
  | Some s => s
  | None => []
  end.

(** [case SortPreference.PreferredLanguage]. *)
Definition compareLanguage (a b : StremioStream) : Z :=
  let joined (s : StremioStream) : str :=
    match languagesOf s with
    | Some l => toUpperCase (join " " l)
    | None => []
    end in
  let langA := joined a in
  let langB := joined b in
  let prefLangUpper := toUpperCase (preferredLanguage config) in
  let hasExact (s : StremioStream) : bool :=
    match languagesOf s with
    | Some l => arr_includes (map toUpperCase l) prefLangUpper
    | None => false
    end in
  let aHasExactPrefLang := hasExact a in
  let bHasExactPrefLang := hasExact b in
  if aHasExactPrefLang && negb bHasExactPrefLang then (-1)%Z
  else if negb aHasExactPrefLang && bHasExactPrefLang then 1%Z
  else
    let aHasPrefLang := includes langA prefLangUpper in
    let bHasPrefLang := includes langB prefLangUpper in
    if aHasPrefLang && negb bHasPrefLang then (-1)%Z
    else if negb aHasPrefLang && bHasPrefLang then 1%Z
    else 0%Z.

(** [case SortPreference.Quality]. *)
Definition compareQuality (a b : StremioStream) : Z :=
  let qualityRankA := getQualityRank (s_parsedMeta a) in
  let qualityRankB := getQualityRank (s_parsedMeta b) in
  let comparison := (rank_value qualityRankB - rank_value qualityRankA)%Z in
  match s_parsedMeta a, s_parsedMeta b with
  | Some pmA, Some pmB =>
      if (comparison =? 0)%Z
      then
        let resAIndex := indexOf (qualitySortOrder config) (resolutionKey pmA) in
        let resBIndex := indexOf (qualitySortOrder config) (resolutionKey pmB) in
        if negb (resAIndex =? -1)%Z && negb (resBIndex =? -1)%Z
        then (resAIndex - resBIndex)%Z
        else if negb (resAIndex =? -1)%Z then (-1)%Z
        else if negb (resBIndex =? -1)%Z then 1%Z
        else comparison
      else comparison
  | _, _ => comparison
  end.

(** [stream.size || 0]. *)
Definition sizeOf (stream : StremioStream) : Q :=
  match or_Q (s_size stream) (Some 0%Q) with Some q => q | None => 0%Q end.

(** The body of the [switch]: the comparison one preference yields. *)
Definition compareBy (preference : SortPreference) (a b : StremioStream) : Q :=
  match preference with
  | Seeders => inject_Z (seedersOf b - seedersOf a)
  | PreferredLanguage => inject_Z (compareLanguage a b)
  | Quality => inject_Z (compareQuality a b)
  | Size => (sizeOf b - sizeOf a)%Q
  end.

(** The loop over [config.sortPreference]: the first comparison that is not
    zero, and zero when all are. *)
Fixpoint compareWith (prefs : list SortPreference) (a b : StremioStream) : Q :=
  match prefs with
  | [] => 0%Q
  | preference :: prefs' =>
      let comparison := compareBy preference a b in
      if negb (Qeq_bool comparison 0) then comparison
      else compareWith prefs' a b
  end.

Definition compareStreams (a b : StremioStream) : Q :=
  compareWith (sortPreference config) a b.

(** [Array.prototype.sort] is stable; it is modelled by the stable insertion
    sort.  Any stable sort returns this list when the comparator is a
    consistent ordering, which is when the language fixes the result. *)
Fixpoint insertStream (x : StremioStream) (sorted : list StremioStream)
    : list StremioStream :=
  match sorted with
  | [] => [x]
  | y :: sorted' =>
      if Qle_bool (compareStreams x y) 0 then x :: y :: sorted'
      else y :: insertStream x sorted'
  end.

Definition sortStreams (streams : list StremioStream) : list StremioStream :=
  fold_right insertStream [] streams.

(** The candidates in the order they are handed to the formatter. *)
Definition selectStreams (rawResults : list BitmagnetTorrent)
    : list StremioStream :=
  sortStreams
    (lowQualityFilter
       (minSeedersFilter (parsedStreams (uniqueResults rawResults)))).

End Request.

(** ** Notions used to state the properties *)

(** [map.get(k)]. *)
Fixpoint Map_get {V : Type} (k : str) (m : list (str * V)) : option V :=
  match m with
  | [] => None
  | (k', v') :: m' => if str_eqb k' k then Some v' else Map_get k m'
  end.

(** The value of the last entry with key [k] in a list of entries. *)
Fixpoint last_value {V : Type} (k : str) (es : list (str * V)) : option V :=
  match es with
  | [] => None
  | (k', v') :: es' =>
      match last_value k es' with
      | Some v => Some v
      | None => if str_eqb k' k then Some v' else None
      end
  end.

(** The entries handed to [new Map]. *)
Definition entries (rawResults : list BitmagnetTorrent)
    : list (str * BitmagnetTorrent) :=
  map (fun item => (t_infoHash item, item)) rawResults.

(** [term] occurs in [s] as a substring, letter case ignored. *)
Definition contains_ci (s term : str) : Prop :=
  exists pre mid post,
    s = pre ++ mid ++ post /\ toUpperCase mid = toUpperCase term.

(** The marker terms the specification lists for low quality. *)
Definition lowQualityMarkers : list string :=
  ["CAM"; "TS"; "TELESYNC"; "TC"; "TELECINE"; "SCR"; "SCREENER"; "DVDSCR"].

(** The rank of a candidate, and whether its resolution is one of the
    low-quality resolutions 480P, 360P, SD (letter case ignored). *)
Definition rankOfStream (stream : StremioStream) : VideoQualityRank :=
  getQualityRank (s_parsedMeta stream).

Definition hasLowResolution (stream : StremioStream) : Prop :=
  exists pm res,
    s_parsedMeta stream = Some pm /\ resolution pm = Some res
    /\ In (toUpperCase res) (map S_ LOW_QUALITY_RESOLUTIONS).

(** The position the Quality key looks up for a candidate, and the order the
    key puts two candidates in: [a] is not after [b]. *)
Definition tiePosition (config : AddonConfig) (pm : ParsedMetadata) : Z :=
  indexOf (qualitySortOrder config) (resolutionKey pm).

Definition qualityNotAfter (config : AddonConfig) (a b : StremioStream) : Prop :=
  (compareQuality config a b <= 0)%Z.

Definition hasMeta (s : StremioStream) : Prop :=
  exists pm, s_parsedMeta s = Some pm.

(** The units [parseSize] recognises, as its pattern spells them, and the
    power of 1024 each stands for. *)
Definition sizeUnits : list (string * Z) :=
  [("KB", 1); ("MB", 2); ("GB", 3); ("TB", 4);
   ("KiB", 1); ("MiB", 2); ("GiB", 3); ("TiB", 4)]%Z.

(** A size result [r] is the number [q]. *)
Definition isSize (r : option Q) (q : Q) : Prop :=
  exists v, r = Some v /\ Qeq v q.

(** The position [i] of a subject, as the matcher sees it. *)
Definition pos_from (prev : option ascii) (s : str) (i : nat) : pos :=
  Pos (match i with O => prev | S i' => nth_error s i' end) (skipn i s).

Definition pos_at (s : str) (i : nat) : pos := pos_from None s i.

(** The attributes of the metadata object, and the value one holds. *)
Inductive field : Type :=
| FcleanedTitle | Fyear | Fresolution | FqualitySource | FvideoCodec
| FaudioCodec | Flanguages | FisHDR | Fis3D | FreleaseGroup | FepisodeInfo
| FrawSize | FcalculatedSize | Fseeders.

Inductive value : Type :=
| VStr (s : option str)
| VInt (z : option Z)
| VNum (q : option Q)
| VBool (b : option bool)
| VCodec (a : option StrOrArr)
| VList (l : option (list str)).

Definition read (f : field) (m : ParsedMetadata) : value :=
  match f with
  | FcleanedTitle => VStr (cleanedTitle m)
  | Fyear => VInt (year m)
  | Fresolution => VStr (resolution m)
  | FqualitySource => VStr (qualitySource m)
  | FvideoCodec => VStr (videoCodec m)
  | FaudioCodec => VCodec (audioCodec m)
  | Flanguages => VList (languages m)
  | FisHDR => VBool (isHDR m)
  | Fis3D => VBool (is3D m)
  | FreleaseGroup => VStr (releaseGroup m)
  | FepisodeInfo => VStr (episodeInfo m)
  | FrawSize => VStr (rawSize m)
  | FcalculatedSize => VNum (calculatedSize m)
  | Fseeders => VInt (seeders m)
  end.

(** A field is set when it holds a value the guards of the extractor take
    for present: a non-empty string, a number other than zero, [true], a list,
    a non-empty codec string or array. *)
Definition present (v : value) : bool :=
  match v with
  | VStr s => truthy_str s
  | VInt z => truthy_Z z
  | VNum q => truthy_Q q
  | VBool b => truthy_bool b
  | VCodec (Some (OneStr s)) => nonempty s
  | VCodec (Some (StrArr l)) => negb (length l =? 0)
  | VCodec None => false
  | VList (Some _) => true
  | VList None => false
  end.

(** Every field that is set in [md] holds the same value in [md']. *)
Definition keepsSetFields (md md' : ParsedMetadata) : Prop :=
  originalTitle md' = originalTitle md
  /\ forall f, present (read f md) = true -> read f md' = read f md.

(** The metadata object after the first [k] passes of [parseTorrentTitle]. *)
Definition stateAfter (title : str) (originalSearchTitle : option str)
    (torrentYearFromBitmagnet : option Z) (k : nat) : ParsedMetadata :=
  run (firstn k (passes title originalSearchTitle torrentYearFromBitmagnet))
      (emptyMetadata title).

(** The fields pass number [k] of [parseTorrentTitle] may assign. *)
Definition targets (k : nat) : list field :=
  match k with
  | 0 => [Fyear]
  | 1 => [FepisodeInfo]
  | 2 => [Fresolution]
  | 3 => [FqualitySource]
  | 4 => [FvideoCodec]
  | 5 => [FaudioCodec]
  | 6 => [FisHDR; Fis3D]
  | 7 => [Flanguages]
  | 8 => [FreleaseGroup]
  | 9 => [FrawSize; FcalculatedSize]
  | 10 => [FcleanedTitle]
  | 11 => [Fyear]
  | _ => []
  end.

(** Two characters, or two texts, that differ at most in letter case. *)
Definition same_char_ci (x a : ascii) : bool :=
  ascii_eqb (upper_char x) (upper_char a).

Definition same_ci (t w : str) : Prop := toUpperCase t = toUpperCase w.

(** The position after reading the literal [w], letter case ignored. *)
Fixpoint after_lit (w : str) (p : pos) : option pos :=
  match w with
  | [] => Some p
  | x :: w' =>
      match rest p with
      | a :: tl =>
          if same_char_ci x a then after_lit w' (Pos (Some a) tl) else None
      | [] => None
      end
  end.

(** The resolution tokens, as the pattern spells them. *)
Definition resolutionTokens : list string :=
  ["4K"; "2160p"; "1080p"; "720p"; "576p"; "480p"; "360p"; "SD"].

(** [tok] is a resolution token of [title] at position [i]: one of the eight
    tokens in any letter case, with no word character right before it or
    right after it. *)
Definition resolutionTokenAt (title : str) (i : nat) (tok : str) : Prop :=
  exists pre post,
    title = pre ++ tok ++ post /\ length pre = i
    /\ (exists w, In w resolutionTokens /\ same_ci tok (S_ w))
    /\ is_word_opt (hd_error (rev pre)) = false
    /\ is_word_opt (hd_error post) = false.

(** [\b] at a position. *)
Definition word_boundary (p : pos) : bool :=
  xorb (is_word_opt (before p)) (is_word_opt (hd_error (rest p))).

(** One alternative of the resolution pattern, tried at [p]. *)
Definition try_token (p : pos) (w : string) : option (pos * caps) :=
  match after_lit (S_ w) p with
  | Some p' =>
      if word_boundary p' then Some (p', [(1, consumed p p')]) else None
  | None => None
  end.

(** The character just before the position reached by reading [ds]. *)
Definition prev_after (prev : option ascii) (ds : str) : option ascii :=
  fold_left (fun _ a => Some a) ds prev.

(** The head of [r] is not in the class [cs] (or [r] is empty). *)
Definition stops (ic : bool) (cs : list cset) (r : str) : Prop :=
  match r with
  | a :: _ => in_cset ic cs a = false
  | [] => True
  end.

(** A decimal number as the size pattern reads it: digits, optionally
    followed by a dot and digits. *)
Definition decimalText (num : str) : Prop :=
  exists ip, ip <> [] /\ forallb is_digit ip = true
    /\ (num = ip
        \/ exists fp, fp <> [] /\ forallb is_digit fp = true
                      /\ num = ip ++ S_ "." ++ fp).

(** The continuation that ends a pattern. *)
Definition ret : cont := fun p c => Some (p, c).

(** Sample inputs: the configuration [server.ts] builds from an empty
    environment, and raw records that carry nothing but a hash and a title. *)
Definition defaultConfig : AddonConfig :=
  mkConfig "ENG"
           (map S_ ["2160P"; "1080P"; "720P"; "480P"; "SD"; "SCR"; "CAM";
                    "UNKNOWN"])
           true 0%Z [Seeders; PreferredLanguage; Quality].

Definition bareTorrent (infoHash title : string) : BitmagnetTorrent :=
  mkTorrent infoHash title None None None None None None.

(** A candidate that carries nothing but a resolution and a source. *)
Definition bareStream (res source : string) : StremioStream :=
  mkStream None
           (Some (mkMeta [] None None (Some (S_ res)) (Some (S_ source)) None
                         None None None None None None None None None))
           None None.

(** The two spellings of a season or episode number the patterns accept:
    padded to two digits, and plain. *)
Definition numberTexts (n : Z) : list str :=
  [padStart2 (string_of_Z n); string_of_Z n].

(** [info] holds the marker S<season>E<episode>, letter case ignored. *)
Definition holdsEpisode (season episode : Z) (info : str) : Prop :=
  exists pre a ds b de post,
    info = pre ++ a :: ds ++ b :: de ++ post
    /\ upper_char a = "S"%char /\ upper_char b = "E"%char
    /\ (exists w, In w (numberTexts season) /\ same_ci ds w)
    /\ (exists w, In w (numberTexts episode) /\ same_ci de w).

(** [info] holds the marker S<season> followed neither by a digit nor by an
    episode marker. *)
Definition holdsSeasonPack (season : Z) (info : str) : Prop :=
  exists pre a ds post,
    info = pre ++ a :: ds ++ post
    /\ upper_char a = "S"%char
    /\ (exists w, In w (numberTexts season) /\ same_ci ds w)
    /\ match post with
       | [] => True
       | c :: _ => is_digit c = false /\ upper_char c <> "E"%char
       end.

Definition is_some {A : Type} (o : option A) : bool :=
  match o with Some _ => true | None => false end.

(** *** The order of the comparator *)

(** [a] does not come after [b] under the comparator of the sort. *)
Definition notAfter (config : AddonConfig) (a b : StremioStream) : Prop :=
  (compareStreams config a b <= 0)%Q.

(** The two tests of the PreferredLanguage key on one candidate. *)
Definition hasExactPrefLang (config : AddonConfig) (s : StremioStream) : bool :=
  match languagesOf s with
  | Some l => arr_includes (map toUpperCase l)
                           (toUpperCase (preferredLanguage config))
  | None => false
  end.

Definition hasPrefLang (config : AddonConfig) (s : StremioStream) : bool :=
  includes (match languagesOf s with
            | Some l => toUpperCase (join " " l)
            | None => []
            end)
           (toUpperCase (preferredLanguage config)).

(** A number per candidate and sort key that orders the candidates as the
    key does: the smaller number comes first.  For Quality the rank is
    weighed against the position in [qualitySortOrder], a resolution that is
    not listed standing behind every listed one. *)
Definition languageClass (config : AddonConfig) (s : StremioStream) : Z :=
  if hasExactPrefLang config s then 0
  else if hasPrefLang config s then 1 else 2.

Definition qualityKey (config : AddonConfig) (s : StremioStream) : Z :=
  let n := Z.of_nat (length (qualitySortOrder config)) in
  let i := match s_parsedMeta s with
           | Some pm => tiePosition config pm
           | None => (-1)%Z
           end in
  (- rank_value (rankOfStream s) * (n + 1)
   + (if (i =? -1)%Z then n else i))%Z.

Definition sortKey (config : AddonConfig) (preference : SortPreference)
    (s : StremioStream) : Q :=
  match preference with
  | Seeders => inject_Z (- seedersOf s)
  | PreferredLanguage => inject_Z (languageClass config s)
  | Quality => inject_Z (qualityKey config s)
  | Size => (- sizeOf s)%Q
  end.

(** *** What a pattern accepts

    [accepts ic r p c p' c']: the pattern [r] can read the subject from the
    position [p] to the position [p'], turning the captures [c] into [c'].
    It is what the matcher explores; [iterated] is the repetition of [r*],
    every round of which consumes at least one character. *)
Inductive iterated (step : pos -> caps -> pos -> caps -> Prop)
    : pos -> caps -> pos -> caps -> Prop :=
| iterated_stop (p : pos) (c : caps) : iterated step p c p c
| iterated_round (p q p' : pos) (c d c' : caps) :
    step p c q d -> length (rest q) < length (rest p) ->
    iterated step q d p' c' -> iterated step p c p' c'.

Fixpoint accepts (ic : bool) (r : regex) (p : pos) (c : caps) (p' : pos)
    (c' : caps) {struct r} : Prop :=
  match r with
  | REps => p' = p /\ c' = c
  | RSet cs =>
      exists a tl, rest p = a :: tl /\ in_cset ic cs a = true
                   /\ p' = Pos (Some a) tl /\ c' = c
  | RSeq r1 r2 =>
      exists q d, accepts ic r1 p c q d /\ accepts ic r2 q d p' c'
  | RAlt r1 r2 => accepts ic r1 p c p' c' \/ accepts ic r2 p c p' c'
  | RStar r1 => iterated (accepts ic r1) p c p' c'
  | RGroup i r1 =>
      exists d, accepts ic r1 p c p' d /\ c' = (i, consumed p p') :: d
  | RBol => before p = None /\ p' = p /\ c' = c
  | REol => rest p = [] /\ p' = p /\ c' = c
  | RWordB => word_boundary p = true /\ p' = p /\ c' = c
  | RNotAhead r1 => rmatch ic r1 p c ret = None /\ p' = p /\ c' = c
  | RNotBehind cs =>
      match before p with
      | Some a => in_cset ic cs a = false
      | None => True
      end /\ p' = p /\ c' = c
  end.

(** A text that does not start with white space. *)
Definition startsClean (s : str) : Prop :=
  match s with
  | c :: _ => is_space c = false
  | [] => True
  end.

(** Letters and digits, as the class [[a-zA-Z0-9]] takes them. *)
Definition is_alnum (c : ascii) : bool := is_alpha c || is_digit c.

(** *** Replacing runs of a character class

    What [s.replace(/[cs]+/g, repl)] computes, written as a direct
    recursion: every maximal run of characters of the class becomes one
    [repl].  [inrun] tells that the character before belongs to a run that
    has already been replaced. *)
Fixpoint squeeze (ic : bool) (cs : list cset) (repl : str) (inrun : bool)
    (s : str) : str :=
  match s with
  | [] => []
  | a :: tl =>
      if in_cset ic cs a
      then if inrun then squeeze ic cs repl true tl
           else repl ++ squeeze ic cs repl true tl
      else a :: squeeze ic cs repl false tl
  end.

(** No character of the class occurs in the text. *)
Definition avoids (ic : bool) (cs : list cset) (s : str) : Prop :=
  Forall (fun a => in_cset ic cs a = false) s.

(** White space occurs only as single blanks: every white-space character is
    a blank and no two stand side by side.  [afterSpace] tells that the
    character before is a blank. *)
Fixpoint singleSpaced (afterSpace : bool) (s : str) : bool :=
  match s with
  | [] => true
  | a :: tl =>
      if is_space a
      then ascii_eqb a " " && negb afterSpace && singleSpaced true tl
      else singleSpaced false tl
  end.

(** The characters [cleanTitle] and [standardizeTitle] turn into blanks. *)
Definition titleSeparators : list cset := [CChar "."; CChar "_"; CChar "-"].

(** A title in the form the clean-up produces: none of the separators
    [.], [_], [-], white space only as single blanks, none at either end. *)
Definition cleanText (s : str) : Prop :=
  avoids false titleSeparators s /\ singleSpaced false s = true /\ trim s = s.

(** ** utils/standardization.ts: [standardizeTitle] *)

(* /\s+&\s+/g *)
Definition ampersandRegex : RegExp :=
  Re (seq [plus (RSet [CSpace]); chr "&"; plus (RSet [CSpace])]) false.

(* /\s+and\s+/gi *)
Definition andRegex : RegExp :=
  Re (seq [plus (RSet [CSpace]); lit "and"; plus (RSet [CSpace])]) true.

(* /[._()[\]]/g *)
Definition punctuationRegex : RegExp :=
  Re (RSet [CChar "."; CChar "_"; CChar "("; CChar ")"; CChar "[";
            CChar "]"]) false.

(* /\s+(?:19[7-9]\d|20[0-2]\d)$/ *)
Definition trailingYearRegex : RegExp :=
  Re (seq [plus (RSet [CSpace]);
           RAlt (seq [lit "19"; RSet [CRange "7" "9"]; digit])
                (seq [lit "20"; RSet [CRange "0" "2"]; digit]);
           REol]) false.

(* /\s+[Ss]\d{1,2}[Ee]\d{1,3}(?:-[Ee]?\d{1,3})?$/ *)
Definition trailingEpisodeRegex : RegExp :=
  let Ee := RSet [CChar "E"; CChar "e"] in
  Re (seq [plus (RSet [CSpace]); RSet [CChar "S"; CChar "s"];
           rep 1 2 digit; Ee; rep 1 3 digit;
           opt (seq [chr "-"; opt Ee; rep 1 3 digit]);
           REol]) false.

(* /\s+Season\s+\d{1,2}$/i *)
Definition trailingSeasonRegex : RegExp :=
  Re (seq [plus (RSet [CSpace]); lit "Season"; plus (RSet [CSpace]);
           rep 1 2 digit; REol]) true.

Definition commonTags : list string :=
  ["EXTENDED"; "UNCUT"; "DIRECTORS CUT"; "REMASTERED"; "SPECIAL EDITION";
   "THEATRICAL"; "UNRATED"; "PROPER"; "REPACK"; "LIMITED"; "COMPLETE";
   "ULTIMATE"; "FINAL CUT"; "ANNIVERSARY EDITION"; "COLLECTORS EDITION"].

(* new RegExp(`\\s+\\b${tag}\\b`, 'ig') *)
Definition tagRegex (tag : string) : RegExp :=
  Re (seq [plus (RSet [CSpace]); RWordB; lit (S_ tag); RWordB]) true.

Definition standardizeTitle (title : str) : str :=
  match title with
  | [] => []
  | _ :: _ =>
      let standardized := title in
      let standardized := replaceAll ampersandRegex " and " standardized in
      let standardized := replaceAll andRegex " and " standardized in
      let standardized :=
        trim (replaceAll spacesRegex " "
                (replaceAll hyphenRegex " "
                   (replaceAll punctuationRegex " " standardized))) in
      let standardized := replaceFirst trailingYearRegex [] standardized in
      let standardized := replaceFirst trailingEpisodeRegex [] standardized in
      let standardized := replaceFirst trailingSeasonRegex [] standardized in
      let standardized :=
        fold_left (fun standardized tag =>
                     replaceAll (tagRegex tag) [] standardized)
                  commonTags standardized in
      trim standardized
  end.

(** The characters [standardizeTitle] turns into blanks, and these together
    with white space: what separates the words of a title. *)
Definition titlePunctuation : list cset :=
  [CChar "."; CChar "_"; CChar "("; CChar ")"; CChar "["; CChar "]";
   CChar "-"].

Definition wordBreaks : list cset := CSpace :: titlePunctuation.

(** ** addonService.ts: the head of [processStreamRequest] *)

(** The fields of [StremioRequestType] the function reads. *)
Record StremioRequestType : Type := mkRequest {
  r_type : StremioItemType;
  r_id : str;
  r_name : option str;
  r_year : option Z;
  r_season : option Z;
  r_episode : option Z
}.

(** [searchTitle] after the test of the name: the id stands in for a name
    that is missing, empty or the placeholder written by [server.ts]. *)
Definition searchTitleOf (request : StremioRequestType) : str :=
  if negb (truthy_str (r_name request))
     || startsWith (text (r_name request)) "Media for ID"
  then r_id request
  else text (r_name request).

Definition standardizedTitleOf (request : StremioRequestType) : str :=
  let searchTitle := searchTitleOf request in
  if nonempty searchTitle then standardizeTitle searchTitle else [].

(** [yearForSearch ? standardizeYear(yearForSearch.toString()) : undefined]. *)
Definition standardizedYearOf (currentYear : Z) (request : StremioRequestType)
    : option Z :=
  match r_year request with
  | Some yearForSearch =>
      if negb (yearForSearch =? 0)%Z
      then standardizeYear currentYear (string_of_Z yearForSearch)
      else None
  | None => None
  end.

(** [type === 'movie' ? 'MOVIE' : type === 'series' ? 'SERIES' : undefined]. *)
Definition contentTypeOf (type : StremioItemType) : option str :=
  match type with
  | movie => Some ("MOVIE" : str)
  | series => Some ("SERIES" : str)
  | _ => None
  end.

(** One call of [fetchAndProcessBitmagnetResults]: the search text, the
    year and the content type handed to [queryBitmagnet]. *)
Record BitmagnetQuery : Type := mkQuery {
  q_query : str;
  q_year : option Z;
  q_contentType : option str
}.

(** The calls pushed on [queryPromises], in order; none when the
    standardized title is empty. *)
Definition queries (currentYear : Z) (request : StremioRequestType)
    : list BitmagnetQuery :=
  let standardizedTitle := standardizedTitleOf request in
  let standardizedYear := standardizedYearOf currentYear request in
  let contentType := contentTypeOf (r_type request) in
  if nonempty standardizedTitle
  then
    (if truthy_Z standardizedYear
     then [mkQuery standardizedTitle standardizedYear contentType] else [])
    ++ [mkQuery standardizedTitle None contentType]
    ++ (if str_eqb standardizedTitle (r_id request)
        then [mkQuery (r_id request) None contentType] else [])
  else [].

(** The candidates handed to the formatter, given what the calls returned
    ([allResultsNested], one list per call). *)
Definition candidates (currentYear : Z) (config : AddonConfig)
    (request : StremioRequestType)
    (allResultsNested : list (list BitmagnetTorrent)) : list StremioStream :=
  let standardizedTitle := standardizedTitleOf request in
  if nonempty standardizedTitle
  then
    let rawResults := concat allResultsNested in
    selectStreams currentYear (r_type request) (r_season request)
                  (r_episode request) standardizedTitle
                  (standardizedYearOf currentYear request) config rawResults
  else [].

(** ** server.ts: the stream route *)

(** [s.split(':')]. *)
Fixpoint split_colon (s : str) : list str :=
  match s with
  | [] => [[]]
  | c :: s' =>
      if ascii_eqb c ":"
      then [] :: split_colon s'
      else match split_colon s' with
           | w :: ws => (c :: w) :: ws
           | [] => [[c]]
           end
  end.

(** A value of [season] or [episode] in the route. *)
Inductive RouteNumber : Type :=
| undefined
| NaN
| number (z : Z).

(** [parseInt(s, 10)]: leading white space, an optional sign, then the
    decimal digits up to the first other character; [NaN] without a
    digit.  The value is the exact integer, as it is in the source below
    2^53. *)
Definition parseInt10 (s : str) : RouteNumber :=
  let s := trimStart s in
  let signed :=
    match s with
    | c :: s' =>
        if ascii_eqb c "-" then (true, s')
        else if ascii_eqb c "+" then (false, s') else (false, s)
    | [] => (false, s)
    end in
  match fst (take_digits (snd signed)) with
  | [] => NaN
  | d :: ds =>
      number (if fst signed then - parseInt (d :: ds) else parseInt (d :: ds))
  end.

(** [if (parts[i]) x = parseInt(parts[i], 10)]. *)
Definition routeNumber (part : option str) : RouteNumber :=
  match part with
  | Some (c :: s) => parseInt10 (c :: s)
  | _ => undefined
  end.

(** The object [stremioRequest] as the route builds it; [type] is the raw
    path parameter. *)
Record RouteRequest : Type := mkRouteRequest {
  rr_type : str;
  rr_id : str;
  rr_name : str;
  rr_season : RouteNumber;
  rr_episode : RouteNumber
}.

Inductive RouteOutcome : Type :=
| Status400
| Status500
| Forwarded (stremioRequest : RouteRequest).

Definition notANumber (n : RouteNumber) : bool :=
  match n with number _ => false | _ => true end.

(** The route up to the call of [processStreamRequest];
    [endpointConfigured] stands for
    [addonConfig.bitmagnetPublicGraphQLEndpoint || NODE_ENV === 'test']. *)
Definition streamRoute (endpointConfigured : bool) (type idWithOpts : str)
    : RouteOutcome :=
  let hasOpts := includes idWithOpts ":" in
  let parts := split_colon idWithOpts in
  let imdbId := if hasOpts then nth 0 parts [] else idWithOpts in
  let season := if hasOpts then routeNumber (nth_error parts 1) else undefined in
  let episode := if hasOpts then routeNumber (nth_error parts 2) else undefined in
  if negb (nonempty type) || negb (startsWith imdbId "tt")
     || (str_eqb type "series" && (notANumber season || notANumber episode))
  then Status400
  else if negb endpointConfigured then Status500
  else Forwarded (mkRouteRequest type imdbId (S_ "Media for ID " ++ imdbId)
                                 season episode).

(** The request as [processStreamRequest] reads it.  A value that is not a
    number is falsy there, like a missing one; a type outside the union of
    [StremioItemType] is compared with 'movie' and 'series' only, which it
    is neither, as [channel] is. *)
Definition itemTypeOf (type : str) : StremioItemType :=
  if str_eqb type "movie" then movie
  else if str_eqb type "series" then series
  else if str_eqb type "tv" then tv
  else channel.

Definition numberOf (n : RouteNumber) : option Z :=
  match n with number z => Some z | _ => None end.

Definition requestOf (stremioRequest : RouteRequest) : StremioRequestType :=
  mkRequest (itemTypeOf (rr_type stremioRequest)) (rr_id stremioRequest)
            (Some (rr_name stremioRequest)) None
            (numberOf (rr_season stremioRequest))
            (numberOf (rr_episode stremioRequest)).

(** The parts of [cleanTitle] by which its result is described: the test
    that sends it to the fallback, the text the fallback has in
    [fallbackCleaned] when it tests it, and what it returns when that text
    is empty. *)
Definition takesFallback (title : str) (parsedMeta : ParsedMetadata) : bool :=
  let cleaned := primaryClean title parsedMeta in
  ((length cleaned <? 5) && (10 <? length title))
  || test fourDigitsRegex cleaned.

Definition fallbackStripped (title : str) (parsedMeta : ParsedMetadata)
    (originalSearchTitle : option str) : str :=
  let fallbackCleaned :=
    match or_str originalSearchTitle (Some title) with
    | Some s => s
    | None => title
    end in
  let fallbackCleaned :=
    match year parsedMeta with
    | Some y =>
        if negb (y =? 0)%Z
        then replaceAll (looseRegex (string_of_Z y)) " " fallbackCleaned
        else fallbackCleaned
    | None => fallbackCleaned
    end in
  let fallbackCleaned :=
    match releaseGroup parsedMeta with
    | Some (c :: g) => replaceAll (looseRegex (c :: g)) " " fallbackCleaned
    | _ => fallbackCleaned
    end in
  collapse fallbackCleaned.

Definition lastResort (title : str) (parsedMeta : ParsedMetadata) : str :=
  match releaseGroup parsedMeta with
  | Some (c :: g) => trim (replaceAll (looseRegex (c :: g)) [] title)
  | _ => trim title
  end.

(** * Properties *)

Unset Implicit Arguments.

(** ** Strings *)

Lemma ascii_eqb_eq (a b : ascii) : ascii_eqb a b = true <-> a = b.
Proof. unfold ascii_eqb. apply Ascii.eqb_eq. Qed.

Lemma str_eqb_eq (a b : str) : str_eqb a b = true <-> a = b.
Proof.
  revert b. induction a as [|x a IH]; intros [|y b]; simpl; split;
    try congruence; try reflexivity.
  - intros H. apply andb_true_iff in H as [Hx Ha].
    apply ascii_eqb_eq in Hx. apply IH in Ha. congruence.
  - intros H. injection H as -> ->. apply andb_true_iff. split.
    + now apply ascii_eqb_eq.
    + now apply IH.
Qed.

Lemma str_eqb_refl (a : str) : str_eqb a a = true.
Proof. now apply str_eqb_eq. Qed.

Lemma str_eqb_neq (a b : str) : str_eqb a b = false <-> a <> b.
Proof.
  split.
  - intros H E. apply str_eqb_eq in E. congruence.
  - intros H. destruct (str_eqb a b) eqn:E; [|reflexivity].
    apply str_eqb_eq in E. contradiction.
Qed.

Lemma str_eqb_sym (a b : str) : str_eqb a b = str_eqb b a.
Proof.
  destruct (str_eqb a b) eqn:E1, (str_eqb b a) eqn:E2; try reflexivity.
  - apply str_eqb_eq in E1. subst. now rewrite str_eqb_refl in E2.
  - apply str_eqb_eq in E2. subst. now rewrite str_eqb_refl in E1.
Qed.

Lemma arr_includes_In (l : list str) (x : str) :
  arr_includes l x = true <-> In x l.
Proof.
  unfold arr_includes. rewrite existsb_exists. split.
  - intros [y [Hy E]]. apply str_eqb_eq in E. now subst.
  - intros H. exists x. split; [assumption | apply str_eqb_refl].
Qed.

(** ** The quality scale *)

(** C3 (as the enum is declared): the scale has exactly twelve members with
    pairwise different numbers, so comparing the numbers is a strict total
    order on it; from the lowest it runs UNKNOWN, LOW_QUALITY, SD, HDTV_720P,
    DVD, HDTV_1080P, WEBDL_720P, BLURAY_720P, WEBDL_1080P, WEBDL_2160P,
    BLURAY_1080P, UHD_BLURAY.  The HDTV, WEB-DL and BluRay tiers interleave:
    DVD lies between the two HDTV tiers, and within one resolution WEB-DL
    lies below BluRay. *)
Theorem C3_rank_total_order :
  (forall r, In r all_ranks) /\ NoDup all_ranks /\ length all_ranks = 12
  /\ (forall a b, rank_value a = rank_value b -> a = b)
  /\ (forall a b, rank_lt a b \/ a = b \/ rank_lt b a)
  /\ (forall a, ~ rank_lt a a)
  /\ (forall a b c, rank_lt a b -> rank_lt b c -> rank_lt a c)
  /\ StronglySorted rank_lt
       [UNKNOWN; LOW_QUALITY; SD; HDTV_720P; DVD; HDTV_1080P; WEBDL_720P;
        BLURAY_720P; WEBDL_1080P; WEBDL_2160P; BLURAY_1080P; UHD_BLURAY].
Proof.
  repeat split.
  - intros r. destruct r; simpl; tauto.
  - unfold all_ranks.
    repeat (constructor; [simpl; intuition discriminate|]). constructor.
  - intros a b. destruct a, b; simpl; intros H; try reflexivity; discriminate.
  - intros a b. unfold rank_lt.
    destruct (Z.lt_trichotomy (rank_value a) (rank_value b)) as [H|[H|H]].
    + now left.
    + right. left. destruct a, b; simpl in H; try reflexivity; discriminate.
    + now (right; right).
  - intros a. unfold rank_lt. lia.
  - intros a b c. unfold rank_lt. lia.
  - repeat (constructor;
            [| repeat (constructor; [unfold rank_lt; simpl; lia|]);
               constructor]).
    constructor.
Qed.

(** C3, as stated, fails: an HDTV tier sorts above DVD, and a WEB-DL tier
    sorts above a BluRay tier. *)
Lemma C3_tiers_interleave :
  rank_lt DVD HDTV_1080P /\ rank_lt BLURAY_720P WEBDL_1080P
  /\ rank_lt BLURAY_720P WEBDL_2160P
  /\ ~ rank_lt HDTV_1080P DVD /\ ~ rank_lt WEBDL_2160P BLURAY_720P.
Proof. unfold rank_lt; simpl; lia. Qed.

(** ** De-duplication *)

Section MapFacts.

Variable V : Type.
Implicit Types (m : list (str * V)) (k : str) (v : V).

Lemma Map_get_set_same k v m : Map_get k (Map_set k v m) = Some v.
Proof.
  induction m as [|[k' v'] m IH]; simpl.
  - now rewrite str_eqb_refl.
  - destruct (str_eqb k' k) eqn:E; simpl; rewrite E; [reflexivity | exact IH].
Qed.

Lemma Map_get_set_other k k0 v m :
  k0 <> k -> Map_get k0 (Map_set k v m) = Map_get k0 m.
Proof.
  intros Hne. induction m as [|[k' v'] m IH]; simpl.
  - apply not_eq_sym in Hne. apply str_eqb_neq in Hne. now rewrite Hne.
  - destruct (str_eqb k' k) eqn:E; simpl.
    + apply str_eqb_eq in E. subst k'.
      apply not_eq_sym in Hne. apply str_eqb_neq in Hne. now rewrite Hne.
    + now rewrite IH.
Qed.

Lemma Map_set_keys k v m :
  map fst (Map_set k v m) =
  if arr_includes (map fst m) k then map fst m else map fst m ++ [k].
Proof.
  induction m as [|[k' v'] m IH]; simpl; [reflexivity|].
  unfold arr_includes in *. simpl. rewrite (str_eqb_sym k k').
  destruct (str_eqb k' k) eqn:E; simpl; [reflexivity|].
  rewrite IH. now destruct (existsb (str_eqb k) (map fst m)).
Qed.

Lemma Map_get_fold (es : list (str * V)) : forall m k,
  Map_get k (fold_left (fun m kv => Map_set (fst kv) (snd kv) m) es m) =
  match last_value k es with
  | Some v => Some v
  | None => Map_get k m
  end.
Proof.
  induction es as [|[k' v'] es IH]; intros m k; simpl; [reflexivity|].
  rewrite IH. destruct (last_value k es); [reflexivity|].
  destruct (str_eqb k' k) eqn:E.
  - apply str_eqb_eq in E. subst. apply Map_get_set_same.
  - apply Map_get_set_other. apply str_eqb_neq in E. congruence.
Qed.

Lemma Map_get_In k v m :
  NoDup (map fst m) -> In (k, v) m -> Map_get k m = Some v.
Proof.
  induction m as [|[k' v'] m IH]; simpl; intros Hnd Hin; [contradiction|].
  inversion Hnd as [|? ? Hnotin Hnd']; subst.
  destruct Hin as [E|Hin].
  - injection E as -> ->. now rewrite str_eqb_refl.
  - destruct (str_eqb k' k) eqn:E.
    + apply str_eqb_eq in E. subst. exfalso. apply Hnotin.
      now apply (in_map fst) in Hin.
    + now apply IH.
Qed.

Lemma last_value_split k v (es : list (str * V)) :
  last_value k es = Some v ->
  exists pre post, es = pre ++ (k, v) :: post
                   /\ forall kv, In kv post -> fst kv <> k.
Proof.
  induction es as [|[k' v'] es IH]; simpl; [discriminate|].
  destruct (last_value k es) as [w|] eqn:El.
  - intros H. injection H as ->. destruct (IH eq_refl) as (pre & post & -> & Hp).
    exists ((k', v') :: pre), post. split; [reflexivity | assumption].
  - destruct (str_eqb k' k) eqn:E; [|discriminate].
    intros H. injection H as ->. apply str_eqb_eq in E. subst k'.
    exists [], es. split; [reflexivity|].
    intros [k1 v1] Hin Hk. simpl in Hk. subst k1.
    clear IH. induction es as [|[k2 v2] es IH2]; [contradiction|].
    simpl in El. destruct (last_value k es) eqn:El2; [discriminate|].
    destruct (str_eqb k2 k) eqn:E2; [discriminate|].
    destruct Hin as [H|H].
    + injection H as -> _. now rewrite str_eqb_refl in E2.
    + now apply IH2.
Qed.

End MapFacts.

Lemma uniq_acc_ext (l : list str) : forall seen seen',
  (forall x, In x seen <-> In x seen') -> uniq_acc seen l = uniq_acc seen' l.
Proof.
  induction l as [|x l IH]; intros seen seen' H; simpl; [reflexivity|].
  assert (E : arr_includes seen x = arr_includes seen' x).
  { destruct (arr_includes seen x) eqn:E1, (arr_includes seen' x) eqn:E2;
      try reflexivity.
    - apply arr_includes_In in E1. apply H in E1.
      apply arr_includes_In in E1. congruence.
    - apply arr_includes_In in E2. apply H in E2.
      apply arr_includes_In in E2. congruence. }
  rewrite E. destruct (arr_includes seen' x).
  - now apply IH.
  - f_equal. apply IH. intros y. simpl. now rewrite H.
Qed.

Lemma uniq_acc_In (l : list str) : forall seen x,
  In x (uniq_acc seen l) <-> In x l /\ ~ In x seen.
Proof.
  induction l as [|y l IH]; intros seen x; simpl; [tauto|].
  destruct (arr_includes seen y) eqn:E.
  - apply arr_includes_In in E. rewrite IH. split.
    + tauto.
    + intros [[->|H] Hn]; [contradiction | tauto].
  - assert (Hy : ~ In y seen).
    { intros H. apply arr_includes_In in H. congruence. }
    simpl. rewrite IH. simpl. split.
    + intros [->|[H1 H2]]; [tauto|]. split; [tauto|]. tauto.
    + intros [[->|H] Hn]; [now left|].
      destruct (list_eq_dec ascii_dec y x) as [->|Hne]; [now left|].
      right. split; [assumption|]. intros [?|?]; contradiction.
Qed.

Lemma uniq_acc_NoDup (l : list str) : forall seen, NoDup (uniq_acc seen l).
Proof.
  induction l as [|y l IH]; intros seen; simpl; [constructor|].
  destruct (arr_includes seen y); [apply IH|].
  constructor; [|apply IH].
  intros H. apply uniq_acc_In in H. simpl in H. tauto.
Qed.

Lemma Map_of_keys {V : Type} (es : list (str * V)) : forall m,
  map fst (fold_left (fun m kv => Map_set (fst kv) (snd kv) m) es m) =
  map fst m ++ uniq_acc (map fst m) (map fst es).
Proof.
  induction es as [|[k v] es IH]; intros m; simpl.
  - now rewrite app_nil_r.
  - rewrite IH, Map_set_keys. destruct (arr_includes (map fst m) k) eqn:E.
    + reflexivity.
    + rewrite <- app_assoc. simpl. do 2 f_equal. apply uniq_acc_ext.
      intros x. rewrite in_app_iff. simpl. tauto.
Qed.

Lemma Map_set_Forall {V : Type} (P : str * V -> Prop) (k : str) (v : V)
    (m : list (str * V)) :
  P (k, v) -> Forall P m -> Forall P (Map_set k v m).
Proof.
  intros Hkv. induction 1 as [|[k' v'] m Hx Hm IH]; simpl.
  - now constructor.
  - destruct (str_eqb k' k) eqn:E.
    + apply str_eqb_eq in E. subst k'. now constructor.
    + now constructor.
Qed.

Lemma Map_of_Forall {V : Type} (P : str * V -> Prop) (es : list (str * V)) :
  Forall P es -> Forall P (Map_of es).
Proof.
  unfold Map_of. assert (H : Forall P (@nil (str * V))) by constructor.
  revert H. generalize (@nil (str * V)) as m.
  induction es as [|[k v] es IH]; intros m Hm Hes; simpl; [assumption|].
  inversion Hes; subst. apply IH; [|assumption].
  now apply Map_set_Forall.
Qed.

Lemma uniqueResults_keys (rawResults : list BitmagnetTorrent) :
  map fst (Map_of (entries rawResults)) =
  map t_infoHash (uniqueResults rawResults)
  /\ map fst (Map_of (entries rawResults)) = uniq (map t_infoHash rawResults).
Proof.
  split.
  - unfold uniqueResults, Map_values. fold (entries rawResults).
    assert (H : Forall (fun kv => fst kv = t_infoHash (snd kv))
                       (Map_of (entries rawResults))).
    { apply Map_of_Forall. unfold entries. apply Forall_forall.
      intros kv Hin. apply in_map_iff in Hin as (t & <- & _). reflexivity. }
    induction H as [|kv m Hkv _ IH]; simpl; [reflexivity|]. now rewrite Hkv, IH.
  - unfold Map_of. rewrite Map_of_keys. simpl. unfold uniq, entries.
    now rewrite map_map.
Qed.

(** C1 (as the [Map] behaves): de-duplication leaves exactly one candidate
    for every infoHash of the input, in the order in which the hashes are
    first seen, and the record kept for a hash is the LAST one of the input
    that carries it. *)
Theorem C1_dedup_keeps_last (rawResults : list BitmagnetTorrent) :
  NoDup (map t_infoHash (uniqueResults rawResults))
  /\ map t_infoHash (uniqueResults rawResults)
     = uniq (map t_infoHash rawResults)
  /\ (forall t, In t rawResults ->
        exists u, In u (uniqueResults rawResults)
                  /\ t_infoHash u = t_infoHash t)
  /\ (forall u, In u (uniqueResults rawResults) ->
        exists pre post,
          rawResults = pre ++ u :: post
          /\ forall t, In t post -> t_infoHash t <> t_infoHash u).
Proof.
  destruct (uniqueResults_keys rawResults) as [Hk Hu].
  assert (Hkeys : map t_infoHash (uniqueResults rawResults)
                  = uniq (map t_infoHash rawResults)) by congruence.
  assert (Hnd : NoDup (map t_infoHash (uniqueResults rawResults))).
  { rewrite Hkeys. apply uniq_acc_NoDup. }
  repeat split; try assumption.
  - intros t Ht.
    assert (Hin : In (t_infoHash t) (map t_infoHash (uniqueResults rawResults))).
    { rewrite Hkeys. apply uniq_acc_In. split; [now apply in_map | tauto]. }
    apply in_map_iff in Hin as (u & Hu' & Hin). eauto.
  - intros u Hin. unfold uniqueResults, Map_values in Hin.
    fold (entries rawResults) in Hin.
    apply in_map_iff in Hin as ([k u'] & E & Hin). simpl in E. subst u'.
    assert (Hget : Map_get k (Map_of (entries rawResults)) = Some u).
    { apply Map_get_In; [|assumption]. now rewrite Hk. }
    unfold Map_of in Hget. rewrite Map_get_fold in Hget. simpl in Hget.
    destruct (last_value k (entries rawResults)) as [w|] eqn:El;
      [|discriminate].
    injection Hget as ->.
    apply last_value_split in El as (pre & post & E & Hpost).
    unfold entries in E. apply map_eq_app in E as (pre' & l2 & -> & <- & E).
    apply map_eq_cons in E as (u' & post' & -> & E1 & <-).
    injection E1 as <- ->.
    exists pre', post'. split; [reflexivity|].
    intros t Ht. apply (Hpost (t_infoHash t, t)).
    apply in_map_iff. now exists t.
Qed.

(** C1, as stated, fails: of two records with the same infoHash the one kept
    is the second, not the first-seen. *)
Lemma C1_first_seen_is_replaced :
  uniqueResults
    [mkTorrent "abc" "Movie.2023.720p" None None None None None None;
     mkTorrent "abc" "Movie.2023.1080p" None None None None None None]
  = [mkTorrent "abc" "Movie.2023.1080p" None None None None None None]
  /\ uniqueResults
       [mkTorrent "abc" "Movie.2023.720p" None None None None None None;
        mkTorrent "abc" "Movie.2023.1080p" None None None None None None]
     <> [mkTorrent "abc" "Movie.2023.720p" None None None None None None].
Proof. split; [reflexivity | discriminate]. Qed.

(** ** The quality classifier *)

Lemma startsWith_app (p post : str) : startsWith (p ++ post) p = true.
Proof.
  induction p as [|x p IH]; simpl; [reflexivity|].
  apply andb_true_iff. split; [now apply ascii_eqb_eq | exact IH].
Qed.

Lemma startsWith_spec (s p : str) :
  startsWith s p = true <-> exists post, s = p ++ post.
Proof.
  split.
  - revert s. induction p as [|x p IH]; intros s H; simpl in *.
    + now exists s.
    + destruct s as [|y s]; [discriminate|].
      apply andb_true_iff in H as [Hx Hp]. apply ascii_eqb_eq in Hx. subst y.
      destruct (IH _ Hp) as [post ->]. now exists post.
  - intros [post ->]. apply startsWith_app.
Qed.

Lemma includes_startsWith (s p : str) :
  startsWith s p = true -> includes s p = true.
Proof. destruct s; simpl; intros ->; reflexivity. Qed.

Lemma includes_spec (s p : str) :
  includes s p = true <-> exists pre post, s = pre ++ p ++ post.
Proof.
  split.
  - induction s as [|c s IH]; simpl; intros H.
    + rewrite orb_false_r in H. apply startsWith_spec in H as [post E].
      now exists [], post.
    + apply orb_true_iff in H as [H|H].
      * apply startsWith_spec in H as [post E]. now exists [], post.
      * destruct (IH H) as (pre & post & ->). now exists (c :: pre), post.
  - intros (pre & post & ->). induction pre as [|c pre IH]; simpl.
    + apply includes_startsWith, startsWith_app.
    + rewrite IH. apply orb_true_r.
Qed.

Lemma toUpperCase_app (a b : str) :
  toUpperCase (a ++ b) = toUpperCase a ++ toUpperCase b.
Proof. apply map_app. Qed.

Lemma includes_upper (s term : str) :
  contains_ci s term -> includes (toUpperCase s) (toUpperCase term) = true.
Proof.
  intros (pre & mid & post & -> & E). apply includes_spec.
  exists (toUpperCase pre), (toUpperCase post).
  now rewrite !toUpperCase_app, E.
Qed.

Lemma hasLowQualityTerm_marker (source : str) (term : string) :
  In term lowQualityMarkers -> contains_ci source (S_ term) ->
  hasLowQualityTerm (toUpperCase source) = true.
Proof.
  intros Hin Hc. apply includes_upper in Hc.
  unfold hasLowQualityTerm. apply existsb_exists. exists term. split.
  - unfold lowQualityMarkers, LOW_QUALITY_TERMS in *. simpl in *.
    intuition (subst; auto 12).
  - unfold lowQualityMarkers in Hin. simpl in Hin.
    repeat (destruct Hin as [<-|Hin]; [exact Hc|]). contradiction.
Qed.

(** C6: a quality source that contains one of the markers CAM, TS, TELESYNC,
    TC, TELECINE, SCR, SCREENER or DVDSCR, in any letter case, is classified
    LOW_QUALITY, whatever the other fields (the resolution among them)
    hold. *)
Theorem C6_low_quality_marker_wins (parsedMeta : ParsedMetadata)
    (source : str) (term : string) :
  qualitySource parsedMeta = Some source ->
  In term lowQualityMarkers ->
  contains_ci source (S_ term) ->
  getQualityRank (Some parsedMeta) = LOW_QUALITY.
Proof.
  intros Hs Hin Hc. unfold getQualityRank. rewrite Hs. simpl option_map.
  assert (Hne : truthy_str (Some (toUpperCase source)) = true).
  { destruct Hc as (pre & mid & post & -> & E).
    assert (Hmid : mid <> []).
    { intros ->. unfold lowQualityMarkers in Hin. simpl in Hin.
      repeat (destruct Hin as [<-|Hin]; [discriminate E|]). contradiction. }
    destruct pre; simpl; [|reflexivity].
    destruct mid; [contradiction | reflexivity]. }
  rewrite Hne. simpl text.
  now rewrite (hasLowQualityTerm_marker _ _ Hin Hc).
Qed.

(** C6 at work: "HDCam" with resolution 1080p is LOW_QUALITY. *)
Lemma C6_low_quality_marker_wins_witness :
  getQualityRank
    (Some (mkMeta "Movie.1080p.HDCam" None None (Some ("1080P" : str))
                  (Some ("HDCam" : str)) None None None None None None None
                  None None None)) = LOW_QUALITY.
Proof.
  apply (C6_low_quality_marker_wins
           (mkMeta "Movie.1080p.HDCam" None None (Some ("1080P" : str))
                   (Some ("HDCam" : str)) None None None None None None None
                   None None None)
           ("HDCam" : str) "CAM").
  - reflexivity.
  - simpl. auto.
  - exists ("HD" : str), ("Cam" : str), []. split; reflexivity.
Defined.

(** ** The low-quality elimination *)

Lemma hasHighQuality_spec (streams : list StremioStream) :
  hasHighQuality streams = true <->
  exists s, In s streams /\ rank_le HDTV_720P (rankOfStream s).
Proof.
  unfold hasHighQuality. rewrite existsb_exists.
  split; intros (s & Hin & H); exists s; split; try assumption.
  - now apply Z.leb_le in H.
  - now apply Z.leb_le.
Qed.

Lemma keepsQuality_rank (s : StremioStream) :
  keepsQuality s = true ->
  rankOfStream s <> LOW_QUALITY /\ rankOfStream s <> UNKNOWN.
Proof.
  unfold keepsQuality, rankOfStream.
  destruct (getQualityRank (s_parsedMeta s)); simpl; intros H;
    split; congruence.
Qed.

Lemma keepsQuality_low_resolution (s : StremioStream) :
  keepsQuality s = true -> hasLowResolution s ->
  ~ rank_lt (rankOfStream s) DVD.
Proof.
  intros Hk (pm & res & Hpm & Hres & Hin) Hlt. unfold keepsQuality in Hk.
  fold (rankOfStream s) in Hk. rewrite Hpm, Hres in Hk. simpl option_map in Hk.
  assert (Hr : rank_ltb (rankOfStream s) DVD = true) by now apply Z.ltb_lt.
  assert (Hl : truthy_str (Some (toUpperCase res))
               && isLowQualityResolution (text (Some (toUpperCase res))) = true).
  { simpl text. apply andb_true_iff. split.
    - destruct res; [simpl in Hin; intuition discriminate | reflexivity].
    - now apply arr_includes_In. }
  rewrite Hl, Hr in Hk. simpl in Hk.
  destruct (rank_eqb (rankOfStream s) LOW_QUALITY
            || rank_eqb (rankOfStream s) UNKNOWN); [discriminate|].
  destruct (truthy_str (option_map toUpperCase (qualitySource pm)) && _);
    discriminate.
Qed.

Lemma lowQualityTerms_upper (source : str) :
  existsb (fun lqTerm => includes source (S_ lqTerm)) LOW_QUALITY_TERMS
  = hasLowQualityTerm source.
Proof. reflexivity. Qed.

Lemma getQualityRank_marker (pm : ParsedMetadata) :
  truthy_str (option_map toUpperCase (qualitySource pm))
  && hasLowQualityTerm (text (option_map toUpperCase (qualitySource pm)))
  = true ->
  getQualityRank (Some pm) = LOW_QUALITY.
Proof. unfold getQualityRank. now intros ->. Qed.

Lemma keepsQuality_DVD (s : StremioStream) :
  rankOfStream s = DVD -> keepsQuality s = true.
Proof.
  unfold rankOfStream, keepsQuality. intros Hr. rewrite Hr.
  destruct (s_parsedMeta s) as [pm|]; [|discriminate Hr].
  rewrite lowQualityTerms_upper.
  destruct (truthy_str (option_map toUpperCase (qualitySource pm))
            && hasLowQualityTerm (text (option_map toUpperCase
                                          (qualitySource pm)))) eqn:E.
  - rewrite (getQualityRank_marker pm E) in Hr. discriminate Hr.
  - change (rank_ltb DVD DVD) with false. rewrite andb_false_r. reflexivity.
Qed.

(** C4: the low-quality elimination changes the list only when some
    candidate it is given ranks HDTV_720P or better.  When it is switched on
    and such a candidate exists, no candidate ranked LOW_QUALITY or UNKNOWN,
    and no candidate with a low-quality resolution (480P, 360P, SD) ranked
    below DVD, is left; every other candidate of the output comes from the
    input, and every candidate ranked DVD is kept, whatever its resolution. *)
Theorem C4_low_quality_elimination (config : AddonConfig)
    (streams : list StremioStream) :
  (lowQualityFilter config streams <> streams ->
     exists s, In s streams /\ rank_le HDTV_720P (rankOfStream s))
  /\ (filterLowQuality config = true ->
      (exists s, In s streams /\ rank_le HDTV_720P (rankOfStream s)) ->
      (forall s, In s (lowQualityFilter config streams) ->
         In s streams
         /\ rankOfStream s <> LOW_QUALITY /\ rankOfStream s <> UNKNOWN
         /\ (hasLowResolution s -> ~ rank_lt (rankOfStream s) DVD))
      /\ (forall s, In s streams -> rankOfStream s = DVD ->
            In s (lowQualityFilter config streams))).
Proof.
  split.
  - unfold lowQualityFilter. intros H. apply hasHighQuality_spec.
    destruct (filterLowQuality config && negb (length streams =? 0));
      [|contradiction].
    destruct (hasHighQuality streams); [reflexivity | contradiction].
  - intros Hf Hex. apply hasHighQuality_spec in Hex.
    unfold lowQualityFilter. rewrite Hf, Hex.
    assert (Hne : negb (length streams =? 0) = true).
    { destruct streams; [discriminate Hex | reflexivity]. }
    rewrite Hne. simpl. split.
    + intros s Hin. apply filter_In in Hin as [Hin Hk]. split; [assumption|].
      destruct (keepsQuality_rank s Hk) as [H1 H2].
      repeat split; try assumption.
      now apply keepsQuality_low_resolution.
    + intros s Hin Hr. apply filter_In. split; [assumption|].
      now apply keepsQuality_DVD.
Qed.

(** ** The Quality sort key *)

Lemma indexOf_from_range (l : list str) (x : str) : forall i,
  (0 <= i)%Z ->
  (indexOf_from l x i = -1 /\ ~ In x l)%Z
  \/ (i <= indexOf_from l x i < i + Z.of_nat (length l))%Z /\ In x l.
Proof.
  induction l as [|y l IH]; intros i Hi; simpl.
  - left. tauto.
  - destruct (str_eqb y x) eqn:E.
    + apply str_eqb_eq in E. right. split; [lia | now left].
    + apply str_eqb_neq in E. destruct (IH (i + 1)%Z) as [[H1 H2]|[H1 H2]];
        [lia | left | right].
      * split; [assumption | intros [?|?]; contradiction].
      * split; [lia | now right].
Qed.

Lemma indexOf_from_nth (l : list str) (x : str) : forall i,
  (0 <= i)%Z -> In x l ->
  nth_error l (Z.to_nat (indexOf_from l x i - i)) = Some x
  /\ forall j, (j < Z.to_nat (indexOf_from l x i - i))%nat ->
               nth_error l j <> Some x.
Proof.
  induction l as [|y l IH]; intros i Hi Hin; simpl; [contradiction|].
  destruct (str_eqb y x) eqn:E.
  - apply str_eqb_eq in E. subst y. rewrite Z.sub_diag. simpl.
    split; [reflexivity | intros j Hj; lia].
  - apply str_eqb_neq in E. destruct Hin as [?|Hin]; [contradiction|].
    destruct (IH (i + 1)%Z ltac:(lia) Hin) as [H1 H2].
    destruct (indexOf_from_range l x (i + 1)%Z ltac:(lia)) as [[_ Hn]|[Hr _]];
      [contradiction|].
    replace (Z.to_nat (indexOf_from l x (i + 1) - i))
      with (S (Z.to_nat (indexOf_from l x (i + 1) - (i + 1)))) by lia.
    simpl. split; [assumption|].
    intros [|j] Hj; simpl; [congruence | apply H2; lia].
Qed.

(** [indexOf] is [-1] exactly when the string is not in the list; otherwise
    it is the position of its first occurrence. *)
Lemma indexOf_spec (l : list str) (x : str) :
  (indexOf l x = (-1)%Z <-> ~ In x l)
  /\ (In x l ->
      (0 <= indexOf l x)%Z
      /\ nth_error l (Z.to_nat (indexOf l x)) = Some x
      /\ forall j, (j < Z.to_nat (indexOf l x))%nat -> nth_error l j <> Some x).
Proof.
  unfold indexOf.
  destruct (indexOf_from_range l x 0%Z ltac:(lia)) as [[H1 H2]|[H1 H2]].
  - split; [tauto | contradiction].
  - split; [split; [lia | contradiction]|].
    intros _. destruct (indexOf_from_nth l x 0%Z ltac:(lia) H2) as [H3 H4].
    rewrite Z.sub_0_r in H3, H4. split; [lia | split; assumption].
Qed.

(** The comparison of the Quality key on two candidates that carry parsed
    metadata, written out. *)
Lemma compareQuality_cases (config : AddonConfig) (a b : StremioStream)
    (pmA pmB : ParsedMetadata) :
  s_parsedMeta a = Some pmA -> s_parsedMeta b = Some pmB ->
  let d := (rank_value (rankOfStream b) - rank_value (rankOfStream a))%Z in
  let iA := indexOf (qualitySortOrder config) (resolutionKey pmA) in
  let iB := indexOf (qualitySortOrder config) (resolutionKey pmB) in
  (d <> 0%Z -> compareQuality config a b = d)
  /\ (d = 0%Z -> iA <> (-1)%Z -> iB <> (-1)%Z ->
      compareQuality config a b = (iA - iB)%Z)
  /\ (d = 0%Z -> iA <> (-1)%Z -> iB = (-1)%Z ->
      compareQuality config a b = (-1)%Z)
  /\ (d = 0%Z -> iA = (-1)%Z -> iB <> (-1)%Z ->
      compareQuality config a b = 1%Z)
  /\ (d = 0%Z -> iA = (-1)%Z -> iB = (-1)%Z ->
      compareQuality config a b = 0%Z).
Proof.
  intros HA HB d iA iB. unfold compareQuality. rewrite HA, HB.
  fold (rankOfStream a) (rankOfStream b). rewrite <- HA, <- HB.
  fold (rankOfStream a) (rankOfStream b). fold d. fold iA. fold iB.
  clearbody d iA iB.
  destruct (Z.eqb_spec d 0), (Z.eqb_spec iA (-1)), (Z.eqb_spec iB (-1));
    simpl; repeat split; intros; lia.
Qed.

Lemma indexOf_lower (l : list str) (x : str) : (-1 <= indexOf l x)%Z.
Proof.
  unfold indexOf.
  destruct (indexOf_from_range l x 0%Z ltac:(lia)) as [[H _]|[H _]]; lia.
Qed.

Lemma qualityNotAfter_spec (config : AddonConfig) (a b : StremioStream)
    (pmA pmB : ParsedMetadata) :
  s_parsedMeta a = Some pmA -> s_parsedMeta b = Some pmB ->
  let ra := rank_value (rankOfStream a) in
  let rb := rank_value (rankOfStream b) in
  let iA := tiePosition config pmA in
  let iB := tiePosition config pmB in
  qualityNotAfter config a b <->
  (rb < ra)%Z
  \/ (rb = ra
      /\ ((iA <> -1 /\ iB <> -1 /\ iA <= iB) \/ (iA <> -1 /\ iB = -1)
          \/ (iA = -1 /\ iB = -1)))%Z.
Proof.
  intros HA HB ra rb iA iB. unfold qualityNotAfter.
  destruct (compareQuality_cases config a b pmA pmB HA HB)
    as (H1 & H2 & H3 & H4 & H5).
  fold ra rb in H1, H2, H3, H4, H5. unfold tiePosition in iA, iB.
  fold iA iB in H2, H3, H4, H5.
  pose proof (indexOf_lower (qualitySortOrder config) (resolutionKey pmA)) as LA.
  pose proof (indexOf_lower (qualitySortOrder config) (resolutionKey pmB)) as LB.
  fold iA in LA. fold iB in LB. clearbody ra rb iA iB.
  destruct (Z.eq_dec (rb - ra) 0) as [E|E].
  - destruct (Z.eq_dec iA (-1)) as [EA|EA], (Z.eq_dec iB (-1)) as [EB|EB].
    + rewrite (H5 E EA EB). lia.
    + rewrite (H4 E EA EB). lia.
    + rewrite (H3 E EA EB). lia.
    + rewrite (H2 E EA EB). lia.
  - rewrite (H1 E). lia.
Qed.

Lemma qualityNotAfter_total (config : AddonConfig) (a b : StremioStream) :
  hasMeta a -> hasMeta b ->
  qualityNotAfter config a b \/ qualityNotAfter config b a.
Proof.
  intros [pmA HA] [pmB HB].
  rewrite (qualityNotAfter_spec config a b pmA pmB HA HB).
  rewrite (qualityNotAfter_spec config b a pmB pmA HB HA).
  pose proof (indexOf_lower (qualitySortOrder config) (resolutionKey pmA)).
  pose proof (indexOf_lower (qualitySortOrder config) (resolutionKey pmB)).
  unfold tiePosition. lia.
Qed.

Lemma qualityNotAfter_trans (config : AddonConfig) (a b c : StremioStream) :
  hasMeta a -> hasMeta b -> hasMeta c ->
  qualityNotAfter config a b -> qualityNotAfter config b c ->
  qualityNotAfter config a c.
Proof.
  intros [pmA HA] [pmB HB] [pmC HC].
  rewrite (qualityNotAfter_spec config a b pmA pmB HA HB).
  rewrite (qualityNotAfter_spec config b c pmB pmC HB HC).
  rewrite (qualityNotAfter_spec config a c pmA pmC HA HC).
  lia.
Qed.

Lemma Qle_bool_inject_Z (z : Z) : Qle_bool (inject_Z z) 0 = (z <=? 0)%Z.
Proof. unfold Qle_bool, inject_Z. simpl. now rewrite Z.mul_1_r. Qed.

Lemma Qeq_bool_inject_Z (z : Z) : Qeq_bool (inject_Z z) 0 = (z =? 0)%Z.
Proof. unfold Qeq_bool, inject_Z. simpl. now rewrite Z.mul_1_r. Qed.

(** With Quality as the only sort key the comparator is the Quality
    comparison. *)
Lemma compareStreams_quality (config : AddonConfig) (a b : StremioStream) :
  sortPreference config = [Quality] ->
  Qle_bool (compareStreams config a b) 0 = (compareQuality config a b <=? 0)%Z.
Proof.
  intros H. unfold compareStreams. rewrite H. simpl.
  rewrite Qeq_bool_inject_Z.
  destruct (Z.eqb_spec (compareQuality config a b) 0) as [E|E]; simpl.
  - now rewrite E.
  - apply Qle_bool_inject_Z.
Qed.

Lemma insertStream_perm (config : AddonConfig) (x : StremioStream)
    (l : list StremioStream) :
  Permutation (x :: l) (insertStream config x l).
Proof.
  induction l as [|y l IH]; simpl; [apply Permutation_refl|].
  destruct (Qle_bool (compareStreams config x y) 0); [apply Permutation_refl|].
  eapply perm_trans; [apply perm_swap|]. now apply perm_skip.
Qed.

Lemma sortStreams_perm (config : AddonConfig) (l : list StremioStream) :
  Permutation l (sortStreams config l).
Proof.
  induction l as [|x l IH]; simpl; [constructor|].
  eapply perm_trans; [apply perm_skip, IH | apply insertStream_perm].
Qed.

Lemma insertStream_sorted (config : AddonConfig) (x : StremioStream)
    (l : list StremioStream) :
  sortPreference config = [Quality] ->
  hasMeta x -> Forall hasMeta l ->
  StronglySorted (qualityNotAfter config) l ->
  StronglySorted (qualityNotAfter config) (insertStream config x l).
Proof.
  intros Hq Hx Hl Hs. induction Hs as [|y l Hs IH Hy]; simpl.
  - constructor; constructor.
  - inversion Hl as [|? ? Hmy Hml]; subst.
    rewrite (compareStreams_quality config x y Hq).
    destruct (Z.leb_spec (compareQuality config x y) 0) as [Hle|Hgt].
    + constructor; [now constructor|].
      constructor; [exact Hle|].
      rewrite Forall_forall in Hy, Hml |- *. intros z Hz.
      apply (qualityNotAfter_trans config x y z); auto.
    + constructor; [now apply IH|].
      assert (Hyx : qualityNotAfter config y x).
      { destruct (qualityNotAfter_total config x y Hx Hmy) as [H|H];
          [unfold qualityNotAfter in H; lia | exact H]. }
      rewrite Forall_forall in Hy |- *. intros z Hz.
      apply (Permutation_in _ (Permutation_sym (insertStream_perm config x l)))
        in Hz.
      destruct Hz as [<-|Hz]; [exact Hyx | now apply Hy].
Qed.

Lemma sortStreams_sorted (config : AddonConfig) (l : list StremioStream) :
  sortPreference config = [Quality] -> Forall hasMeta l ->
  StronglySorted (qualityNotAfter config) (sortStreams config l).
Proof.
  intros Hq Hl. induction Hl as [|x l Hx Hl IH]; simpl; [constructor|].
  apply insertStream_sorted; try assumption.
  rewrite Forall_forall in Hl |- *. intros z Hz. apply Hl.
  now apply (Permutation_in _ (Permutation_sym (sortStreams_perm config l))).
Qed.

Lemma StronglySorted_split {A : Type} (R : A -> A -> Prop)
    (l1 : list A) (x : A) (l2 : list A) (y : A) (l3 : list A) :
  StronglySorted R (l1 ++ x :: l2 ++ y :: l3) -> R x y.
Proof.
  induction l1 as [|z l1 IH]; simpl; intros H.
  - inversion H as [|? ? _ Hall]; subst. rewrite Forall_forall in Hall.
    apply Hall. apply in_or_app. right. now left.
  - inversion H; subst. now apply IH.
Qed.

(** C8: on two candidates of equal rank the Quality key compares the
    positions of their (upper-cased) resolution strings in
    [config.qualitySortOrder], a candidate without a resolution being looked
    up as "UNKNOWN": the earlier position wins, and a resolution
    that is in the list wins over one that is not.  Accordingly, when Quality
    is the sort key, a candidate never stands before a candidate of the same
    rank whose resolution is listed unless its own resolution is listed too,
    at the same or an earlier position. *)
Theorem C8_quality_tie_break (config : AddonConfig) :
  (forall a b pmA pmB,
     s_parsedMeta a = Some pmA -> s_parsedMeta b = Some pmB ->
     rankOfStream a = rankOfStream b ->
     let order := qualitySortOrder config in
     (In (resolutionKey pmA) order -> In (resolutionKey pmB) order ->
      compareQuality config a b
      = (tiePosition config pmA - tiePosition config pmB)%Z
      /\ nth_error order (Z.to_nat (tiePosition config pmA))
         = Some (resolutionKey pmA)
      /\ nth_error order (Z.to_nat (tiePosition config pmB))
         = Some (resolutionKey pmB))
     /\ (In (resolutionKey pmA) order -> ~ In (resolutionKey pmB) order ->
         compareQuality config a b = (-1)%Z)
     /\ (~ In (resolutionKey pmA) order -> In (resolutionKey pmB) order ->
         compareQuality config a b = 1%Z))
  /\ (sortPreference config = [Quality] ->
      forall streams l1 x l2 y l3 pmX pmY,
        Forall hasMeta streams ->
        sortStreams config streams = l1 ++ x :: l2 ++ y :: l3 ->
        s_parsedMeta x = Some pmX -> s_parsedMeta y = Some pmY ->
        rankOfStream x = rankOfStream y ->
        In (resolutionKey pmY) (qualitySortOrder config) ->
        In (resolutionKey pmX) (qualitySortOrder config)
        /\ (tiePosition config pmX <= tiePosition config pmY)%Z).
Proof.
  split.
  - intros a b pmA pmB HA HB Hr order.
    destruct (compareQuality_cases config a b pmA pmB HA HB)
      as (_ & H2 & H3 & H4 & _).
    rewrite Hr, Z.sub_diag in H2, H3, H4.
    destruct (indexOf_spec order (resolutionKey pmA)) as [HAn HAp].
    destruct (indexOf_spec order (resolutionKey pmB)) as [HBn HBp].
    fold (tiePosition config pmA) in *. fold (tiePosition config pmB) in *.
    repeat split.
    + apply H2; tauto.
    + now apply HAp.
    + now apply HBp.
    + intros. apply H3; tauto.
    + intros. apply H4; tauto.
  - intros Hq streams l1 x l2 y l3 pmX pmY Hm Hs HX HY Hr Hin.
    pose proof (sortStreams_sorted config streams Hq Hm) as Hsorted.
    rewrite Hs in Hsorted. apply StronglySorted_split in Hsorted.
    apply (qualityNotAfter_spec config x y pmX pmY HX HY) in Hsorted.
    rewrite Hr in Hsorted.
    destruct (indexOf_spec (qualitySortOrder config) (resolutionKey pmX))
      as [HXn _].
    destruct (indexOf_spec (qualitySortOrder config) (resolutionKey pmY))
      as [HYn _].
    fold (tiePosition config pmX) in *. fold (tiePosition config pmY) in *.
    assert (HYpos : tiePosition config pmY <> (-1)%Z) by tauto.
    assert (HXpos : tiePosition config pmX <> (-1)%Z) by lia.
    split; [|lia].
    destruct (in_dec (list_eq_dec ascii_dec) (resolutionKey pmX)
                     (qualitySortOrder config)) as [H|H]; [exact H|].
    apply HXn in H. contradiction.
Qed.

(** ** Size parsing *)

Lemma parseSize_unit_binary (value : Q) (unit : string) (k : Z) :
  In (unit, k) sizeUnits ->
  isSize (parseSize_unit value (toUpperCase (S_ unit)))
         (value * inject_Z (1024 ^ k)).
Proof.
  unfold sizeUnits. simpl. intros H.
  repeat (destruct H as [H|H];
          [injection H as <- <-; eexists; split; [reflexivity|];
           unfold Qeq; simpl; lia|]).
  contradiction.
Qed.


(** ** Set-once extraction *)

Lemma keepsSetFields_refl (md : ParsedMetadata) : keepsSetFields md md.
Proof. split; [reflexivity | intros f _; reflexivity]. Qed.

Lemma keepsSetFields_trans (a b c : ParsedMetadata) :
  keepsSetFields a b -> keepsSetFields b c -> keepsSetFields a c.
Proof.
  intros [Ht1 H1] [Ht2 H2]. split; [congruence|].
  intros f Hp. rewrite H2; [now apply H1|]. rewrite H1; assumption.
Qed.

(** Assigning a field that is not set keeps every field that is. *)
Ltac assign_unset :=
  let f := fresh "f" in
  let Hp := fresh "Hp" in
  split; [reflexivity|]; intros f Hp; destruct f; try reflexivity;
  cbn in Hp |- *; congruence.

Lemma extractFirstMatch_keeps {A : Type} (regex : RegExp) (fld : Field A)
    (transform : str -> A) (workTitle : str) (md : ParsedMetadata) :
  (forall v, is_set fld md = false -> keepsSetFields md (fset fld v md)) ->
  keepsSetFields md (extractFirstMatch regex fld transform workTitle md).
Proof.
  intros H. unfold extractFirstMatch.
  destruct (exec regex workTitle); [|apply keepsSetFields_refl].
  destruct (is_set fld md) eqn:E; [apply keepsSetFields_refl | now apply H].
Qed.

Lemma extractFirstMatch_frame {A : Type} (regex : RegExp) (fld : Field A)
    (transform : str -> A) (workTitle : str) (md : ParsedMetadata) (f : field) :
  (forall v, read f (fset fld v md) = read f md) ->
  read f (extractFirstMatch regex fld transform workTitle md) = read f md.
Proof.
  intros H. unfold extractFirstMatch.
  destruct (exec regex workTitle); [|reflexivity].
  destruct (is_set fld md); [reflexivity | apply H].
Qed.

Lemma truthy_str_is_set (o : option str) :
  match o with Some v => nonempty v | None => false end = truthy_str o.
Proof. destruct o as [[|c s]|]; reflexivity. Qed.

Section PassFacts.

Variable title : str.
Variable originalSearchTitle : option str.
Variable torrentYearFromBitmagnet : option Z.

Lemma pass_year_keeps (md : ParsedMetadata) :
  year md = None ->
  keepsSetFields md (pass_year title torrentYearFromBitmagnet md).
Proof.
  intros Hy. unfold pass_year.
  destruct (truthy_Z torrentYearFromBitmagnet).
  - split; [reflexivity|]. intros f Hp. destruct f; try reflexivity.
    cbn in Hp. rewrite Hy in Hp. discriminate.
  - apply extractFirstMatch_keeps. intros v _. split; [reflexivity|].
    intros f Hp. destruct f; try reflexivity.
    cbn in Hp. rewrite Hy in Hp. discriminate.
Qed.

Lemma pass_episodeInfo_keeps (md : ParsedMetadata) :
  keepsSetFields md (pass_episodeInfo title md).
Proof.
  apply extractFirstMatch_keeps. unfold is_set. cbn [fget fset f_episodeInfo].
  rewrite truthy_str_is_set. intros v H. assign_unset.
Qed.

Lemma pass_resolution_keeps (md : ParsedMetadata) :
  keepsSetFields md (pass_resolution title md).
Proof.
  apply extractFirstMatch_keeps. unfold is_set. cbn [fget fset f_resolution].
  rewrite truthy_str_is_set. intros v H. assign_unset.
Qed.

Lemma pass_qualitySource_keeps (md : ParsedMetadata) :
  keepsSetFields md (pass_qualitySource title md).
Proof.
  apply extractFirstMatch_keeps. unfold is_set. cbn [fget fset f_qualitySource].
  rewrite truthy_str_is_set. intros v H. assign_unset.
Qed.

Lemma pass_videoCodec_keeps (md : ParsedMetadata) :
  keepsSetFields md (pass_videoCodec title md).
Proof.
  apply extractFirstMatch_keeps. unfold is_set. cbn [fget fset f_videoCodec].
  rewrite truthy_str_is_set. intros v H. assign_unset.
Qed.

Lemma pass_releaseGroup_keeps (md : ParsedMetadata) :
  keepsSetFields md (pass_releaseGroup title md).
Proof.
  apply extractFirstMatch_keeps. unfold is_set. cbn [fget fset f_releaseGroup].
  rewrite truthy_str_is_set. intros v H. assign_unset.
Qed.

Lemma pass_audioCodec_keeps (md : ParsedMetadata) :
  audioCodec md = None ->
  keepsSetFields md (pass_audioCodec title md).
Proof.
  intros Ha. unfold pass_audioCodec, extractAllMatches.
  destruct (map _ (matchAll REGEX_PATTERNS.AUDIO_CODEC title)) as [|v vs].
  - rewrite Ha. apply keepsSetFields_refl.
  - unfold is_set. cbn [fget fset f_audioCodec]. rewrite Ha.
    destruct (uniq (v :: vs)) as [|u [|u' us]]; cbn;
      split; try reflexivity; intros f Hp; destruct f; try reflexivity;
      cbn in Hp; rewrite Ha in Hp; discriminate.
Qed.

Lemma pass_flags_keeps (md : ParsedMetadata) :
  keepsSetFields md (pass_flags title md).
Proof.
  unfold pass_flags.
  destruct (test REGEX_PATTERNS.HDR title),
           (test REGEX_PATTERNS.THREE_D title);
    split; try reflexivity; intros f Hp; destruct f; try reflexivity;
    cbn in Hp |- *;
    match goal with
    | H : truthy_bool ?b = true |- _ => destruct b as [[|]|]; try discriminate H
    end; reflexivity.
Qed.

Lemma pass_languages_keeps (md : ParsedMetadata) :
  languages md = None ->
  keepsSetFields md (pass_languages title md).
Proof.
  intros Hl. unfold pass_languages.
  destruct (flat_map languagesOfMatch _); [apply keepsSetFields_refl|].
  split; [reflexivity|]. intros f Hp. destruct f; try reflexivity.
  cbn in Hp. rewrite Hl in Hp. discriminate.
Qed.

Lemma pass_size_keeps (md : ParsedMetadata) :
  rawSize md = None ->
  keepsSetFields md (pass_size title md).
Proof.
  intros Hr. unfold pass_size.
  destruct (exec REGEX_PATTERNS.SIZE title) as [m|];
    [|apply keepsSetFields_refl].
  destruct (nonempty (whole m)); [|apply keepsSetFields_refl].
  cbn [calculatedSize set_rawSize].
  destruct (truthy_Q (calculatedSize md)) eqn:Eq;
    split; try reflexivity; intros f Hp; destruct f; try reflexivity;
    cbn in Hp |- *; try (rewrite Hr in Hp; discriminate); congruence.
Qed.

Lemma pass_cleanedTitle_keeps (md : ParsedMetadata) :
  cleanedTitle md = None ->
  keepsSetFields md (pass_cleanedTitle title originalSearchTitle md).
Proof.
  intros Hc. unfold pass_cleanedTitle. split; [reflexivity|].
  intros f Hp. destruct f; try reflexivity.
  cbn in Hp. rewrite Hc in Hp. discriminate.
Qed.

Lemma pass_yearFromSearch_keeps (md : ParsedMetadata) :
  keepsSetFields md (pass_yearFromSearch originalSearchTitle md).
Proof.
  unfold pass_yearFromSearch.
  destruct (truthy_Z (year md)) eqn:Ey; cbn [negb andb];
    [apply keepsSetFields_refl|].
  destruct (truthy_str originalSearchTitle); [|apply keepsSetFields_refl].
  destruct originalSearchTitle as [ost|]; [|apply keepsSetFields_refl].
  destruct (exec REGEX_PATTERNS.YEAR ost) as [m|]; [|apply keepsSetFields_refl].
  destruct (nonempty (whole m)); [|apply keepsSetFields_refl].
  assign_unset.
Qed.

End PassFacts.

(** A pass assigns no field outside its targets. *)
Ltac frame_cases :=
  repeat match goal with
         | |- context [if ?c then _ else _] => destruct c
         | |- context [match ?x with _ => _ end] => destruct x
         end;
  try reflexivity.

Lemma pass_frame (title : str) (originalSearchTitle : option str)
    (torrentYearFromBitmagnet : option Z) (k : nat)
    (p : ParsedMetadata -> ParsedMetadata) :
  nth_error (passes title originalSearchTitle torrentYearFromBitmagnet) k
  = Some p ->
  forall md f, ~ In f (targets k) -> read f (p md) = read f md.
Proof.
  intros Hk md f Hf. unfold passes in Hk.
  do 12 (destruct k as [|k];
         [injection Hk as <-;
          destruct f; try (exfalso; apply Hf; simpl; tauto);
          unfold pass_year, pass_episodeInfo, pass_resolution,
            pass_qualitySource, pass_videoCodec, pass_audioCodec, pass_flags,
            pass_languages, pass_releaseGroup, pass_size, pass_cleanedTitle,
            pass_yearFromSearch, extractFirstMatch, extractAllMatches;
          frame_cases|]).
  destruct k; discriminate Hk.
Qed.

Lemma run_step (ps : list (ParsedMetadata -> ParsedMetadata)) : forall k p md,
  nth_error ps k = Some p ->
  run (firstn (S k) ps) md = p (run (firstn k ps) md).
Proof.
  induction ps as [|q ps IH]; intros k p md H.
  - destruct k; discriminate H.
  - destruct k as [|k]; simpl in H.
    + injection H as ->. reflexivity.
    + change (run (firstn (S (S k)) (q :: ps)) md)
        with (run (firstn (S k) ps) (q md)).
      change (run (firstn (S k) (q :: ps)) md) with (run (firstn k ps) (q md)).
      now apply IH.
Qed.

Lemma run_past (ps : list (ParsedMetadata -> ParsedMetadata)) (k : nat)
    (md : ParsedMetadata) :
  nth_error ps k = None -> run (firstn (S k) ps) md = run (firstn k ps) md.
Proof.
  intros H. apply nth_error_None in H.
  rewrite !firstn_all2 by lia. reflexivity.
Qed.

Section Trace.

Variable title : str.
Variable originalSearchTitle : option str.
Variable torrentYearFromBitmagnet : option Z.

Let state := stateAfter title originalSearchTitle torrentYearFromBitmagnet.
Let ps := passes title originalSearchTitle torrentYearFromBitmagnet.

(** A field holds the same value before and after a run of passes none of
    which targets it. *)
Lemma untargeted_field (f : field) (i : nat) : forall k,
  i <= k ->
  (forall j, i <= j < k -> ~ In f (targets j)) ->
  read f (state k) = read f (state i).
Proof.
  induction 1 as [|k Hik IH]; intros H; [reflexivity|].
  rewrite <- IH by (intros j Hj; apply H; lia).
  unfold state, stateAfter. fold ps.
  destruct (nth_error ps k) as [p|] eqn:Ek.
  - rewrite (run_step ps k p _ Ek).
    apply (pass_frame _ _ _ k p Ek). apply H. lia.
  - now rewrite (run_past ps k _ Ek).
Qed.

Lemma untouched_field (f : field) (k : nat) :
  (forall j, j < k -> ~ In f (targets j)) ->
  read f (state k) = read f (emptyMetadata title).
Proof.
  intros H. apply (untargeted_field f 0 k); [lia|].
  intros j Hj. apply H. lia.
Qed.

Ltac not_targeted :=
  let j := fresh "j" in
  let Hj := fresh "Hj" in
  intros j Hj;
  do 12 (destruct j as [|j];
         [first [lia | simpl; solve [intuition discriminate]]|]);
  lia.

Lemma state_step (k : nat) : keepsSetFields (state k) (state (S k)).
Proof.
  unfold state, stateAfter. fold ps.
  destruct (nth_error ps k) as [p|] eqn:Ek;
    [|rewrite (run_past ps k _ Ek); apply keepsSetFields_refl].
  rewrite (run_step ps k p _ Ek). fold (stateAfter title originalSearchTitle
                                          torrentYearFromBitmagnet k).
  fold state. unfold ps, passes in Ek.
  destruct k as [|[|[|[|[|[|[|[|[|[|[|[|k]]]]]]]]]]]];
    [injection Ek as <- ..|destruct k; discriminate Ek].
  - apply pass_year_keeps. reflexivity.
  - apply pass_episodeInfo_keeps.
  - apply pass_resolution_keeps.
  - apply pass_qualitySource_keeps.
  - apply pass_videoCodec_keeps.
  - apply pass_audioCodec_keeps.
    assert (H : read FaudioCodec (state 5)
                = read FaudioCodec (emptyMetadata title))
      by (apply untouched_field; not_targeted).
    unfold read in H. injection H as H. exact H.
  - apply pass_flags_keeps.
  - apply pass_languages_keeps.
    assert (H : read Flanguages (state 7)
                = read Flanguages (emptyMetadata title))
      by (apply untouched_field; not_targeted).
    unfold read in H. injection H as H. exact H.
  - apply pass_releaseGroup_keeps.
  - apply pass_size_keeps.
    assert (H : read FrawSize (state 9) = read FrawSize (emptyMetadata title))
      by (apply untouched_field; not_targeted).
    unfold read in H. injection H as H. exact H.
  - apply pass_cleanedTitle_keeps.
    assert (H : read FcleanedTitle (state 10)
                = read FcleanedTitle (emptyMetadata title))
      by (apply untouched_field; not_targeted).
    unfold read in H. injection H as H. exact H.
  - apply pass_yearFromSearch_keeps.
Qed.

(** Once a field is set, every later state holds the same value in it. *)
Lemma state_keeps (i j : nat) :
  i <= j -> keepsSetFields (state i) (state j).
Proof.
  induction 1 as [|j _ IH]; [apply keepsSetFields_refl|].
  eapply keepsSetFields_trans; [exact IH | apply state_step].
Qed.

Lemma state_final (k : nat) :
  12 <= k ->
  state k = parseTorrentTitle title originalSearchTitle torrentYearFromBitmagnet.
Proof.
  intros H. unfold state, stateAfter, parseTorrentTitle.
  rewrite firstn_all2; [reflexivity | simpl; lia].
Qed.

(** What the resolution pass leaves in the record is what the parser
    returns: the leftmost match of the pattern, upper-cased. *)
Lemma parseTorrentTitle_resolution :
  resolution (parseTorrentTitle title originalSearchTitle
                                torrentYearFromBitmagnet)
  = option_map (fun m => toUpperCase (group1_or_whole m))
               (exec REGEX_PATTERNS.RESOLUTION title).
Proof.
  rewrite <- (state_final 12 (le_n 12)).
  assert (H : read Fresolution (state 12) = read Fresolution (state 3)).
  { apply untargeted_field; [lia|]. intros j [H1 H2].
    do 3 (destruct j as [|j]; [lia|]).
    do 9 (destruct j as [|j]; [simpl; solve [intuition discriminate]|]).
    lia. }
  unfold read in H. injection H as ->.
  assert (H2 : read Fresolution (state 2)
               = read Fresolution (emptyMetadata title))
    by (apply untouched_field; not_targeted).
  unfold read in H2. injection H2 as H2.
  change (resolution (state 2) = None) in H2.
  change (state 3) with (pass_resolution title (state 2)).
  unfold pass_resolution, extractFirstMatch, is_set.
  cbn [fget fset f_resolution]. rewrite H2.
  now destruct (exec REGEX_PATTERNS.RESOLUTION title).
Qed.

(** The parser never supplies a seeder count. *)
Lemma parseTorrentTitle_seeders :
  seeders (parseTorrentTitle title originalSearchTitle torrentYearFromBitmagnet)
  = None.
Proof.
  rewrite <- (state_final 12 (le_n 12)).
  assert (H : read Fseeders (state 12) = read Fseeders (emptyMetadata title))
    by (apply untouched_field; not_targeted).
  unfold read in H. injection H as H. exact H.
Qed.

End Trace.

(** ** The leftmost match *)

Lemma pos_from_tail (prev : option ascii) (a : ascii) (tl : str) (n : nat) :
  pos_from prev (a :: tl) (S n) = pos_from (Some a) tl n.
Proof. destruct n; reflexivity. Qed.

(** [exec] returns the match at the first position where the pattern
    matches. *)
Lemma exec_from_leftmost (re : RegExp) : forall n s prev i0 pc,
  n <= length s ->
  match_here re (pos_from prev s n) = Some pc ->
  (forall j, j < n -> match_here re (pos_from prev s j) = None) ->
  exec_from re prev s i0 = Some (result_at (i0 + n) (pos_from prev s n) pc).
Proof.
  induction n as [|n IH]; intros s prev i0 pc Hn Hm Hnone.
  - change (pos_from prev s 0) with (Pos prev s) in *.
    destruct s; simpl exec_from; rewrite Hm; now rewrite Nat.add_0_r.
  - destruct s as [|a tl]; [simpl in Hn; lia|].
    simpl exec_from. pose proof (Hnone 0 ltac:(lia)) as H0.
    change (pos_from prev (a :: tl) 0) with (Pos prev (a :: tl)) in H0.
    rewrite H0.
    rewrite pos_from_tail in *. rewrite <- Nat.add_succ_comm.
    apply IH; [simpl in Hn; lia | assumption|].
    intros j Hj. rewrite <- (pos_from_tail prev). apply Hnone. lia.
Qed.

(** Conversely, what [exec] returns is a match at its index, and the pattern
    matches at no earlier position. *)
Lemma exec_from_sound (re : RegExp) : forall s prev i0 m,
  exec_from re prev s i0 = Some m ->
  exists n pc,
    n <= length s /\ index m = i0 + n
    /\ match_here re (pos_from prev s n) = Some pc
    /\ m = result_at (i0 + n) (pos_from prev s n) pc
    /\ forall j, j < n -> match_here re (pos_from prev s j) = None.
Proof.
  assert (Hbase : forall s prev i0 m pc,
             match_here re (Pos prev s) = Some pc ->
             Some (result_at i0 (Pos prev s) pc) = Some m ->
             exists n pc,
               n <= length s /\ index m = i0 + n
               /\ match_here re (pos_from prev s n) = Some pc
               /\ m = result_at (i0 + n) (pos_from prev s n) pc
               /\ forall j, j < n ->
                    match_here re (pos_from prev s j) = None).
  { intros s prev i0 m pc E H. injection H as <-. exists 0, pc.
    rewrite Nat.add_0_r. change (pos_from prev s 0) with (Pos prev s).
    split; [lia|]. split; [reflexivity|]. split; [exact E|].
    split; [reflexivity|]. intros j Hj. lia. }
  induction s as [|a tl IH]; intros prev i0 m H; simpl exec_from in H.
  - destruct (match_here re (Pos prev [])) as [pc|] eqn:E; [|discriminate].
    now apply (Hbase [] prev i0 m pc).
  - destruct (match_here re (Pos prev (a :: tl))) as [pc|] eqn:E.
    + now apply (Hbase (a :: tl) prev i0 m pc).
    + destruct (IH _ _ _ H) as (n & pc & Hn & Hi & Hm & -> & Hnone).
      exists (S n), pc. rewrite pos_from_tail, <- Nat.add_succ_comm.
      split; [simpl; lia|]. split; [exact Hi|]. split; [exact Hm|].
      split; [reflexivity|].
      intros [|j] Hj; [exact E|]. rewrite pos_from_tail. apply Hnone. lia.
Qed.

(** ** Seeders *)

Lemma toStream_seeders (currentYear : Z) (type : StremioItemType)
    (season episode : option Z) (standardizedTitle : str)
    (standardizedYear : option Z) (torrent : BitmagnetTorrent)
    (stream : StremioStream) :
  toStream currentYear type season episode standardizedTitle standardizedYear
           torrent = Some stream ->
  s_seeders stream = Some (seedersOrZero (t_seeders torrent) None)
  /\ exists pm, s_parsedMeta stream = Some pm
                /\ seeders pm = s_seeders stream.
Proof.
  unfold toStream. intros H.
  destruct (rejectedByEpisode _ _ _ _); [discriminate|].
  injection H as <-. cbn [s_seeders s_parsedMeta].
  rewrite parseTorrentTitle_seeders. split; [reflexivity|].
  eexists. split; reflexivity.
Qed.

(** C10: every candidate the pipeline builds carries a seeders number, the
    same in the candidate and in its metadata: the count of the raw record
    when it has one that is not zero, and 0 otherwise (title parsing never
    supplies one).  Hence, when [config.minSeeders] is greater than 0, a
    candidate built from a raw record without seeder data does not pass the
    minimum-seeders filter. *)
Theorem C10_seeders_default_zero (currentYear : Z) (type : StremioItemType)
    (season episode : option Z) (standardizedTitle : str)
    (standardizedYear : option Z) (config : AddonConfig)
    (torrent : BitmagnetTorrent) (stream : StremioStream) :
  toStream currentYear type season episode standardizedTitle standardizedYear
           torrent = Some stream ->
  (exists n, s_seeders stream = Some n
             /\ (exists pm, s_parsedMeta stream = Some pm
                            /\ seeders pm = Some n)
             /\ (forall k, t_seeders torrent = Some k -> k <> 0%Z -> n = k)
             /\ (t_seeders torrent = None -> n = 0%Z))
  /\ (t_seeders torrent = None -> (0 < minSeeders config)%Z ->
      forall streams, ~ In stream (minSeedersFilter config streams)).
Proof.
  intros H. destruct (toStream_seeders _ _ _ _ _ _ _ _ H) as [Hs (pm & Hpm & Hp)].
  split.
  - exists (seedersOrZero (t_seeders torrent) None).
    split; [exact Hs|]. split; [exists pm; split; congruence|]. split.
    + intros k Hk Hne. rewrite Hk. unfold seedersOrZero, or_Z. simpl.
      apply Z.eqb_neq in Hne. rewrite Hne. simpl. now rewrite Hne.
    + now intros ->.
  - intros Hnone Hmin streams Hin. unfold minSeedersFilter in Hin.
    apply Z.ltb_lt in Hmin. rewrite Hmin in Hin.
    apply filter_In in Hin as [_ Hge]. unfold seedersOf in Hge.
    rewrite Hs, Hnone in Hge. simpl in Hge. apply Z.leb_le in Hge.
    apply Z.ltb_lt in Hmin. lia.
Qed.

(** C10 at work: a record without seeders, under [minSeeders = 1]. *)
Lemma C10_seeders_default_zero_witness :
  (exists n,
     s_seeders (mkStream (Some ("h1" : str))
                  (Some (set_calculatedSize None
                           (set_seeders (Some 0%Z)
                              (parseTorrentTitle "Movie.2023.1080p.BluRay"
                                 (Some ("Movie" : str)) None))))
                  (Some 0%Z) None) = Some n
     /\ (exists pm,
           s_parsedMeta
             (mkStream (Some ("h1" : str))
                (Some (set_calculatedSize None
                         (set_seeders (Some 0%Z)
                            (parseTorrentTitle "Movie.2023.1080p.BluRay"
                               (Some ("Movie" : str)) None))))
                (Some 0%Z) None) = Some pm
           /\ seeders pm = Some n)
     /\ (forall k, None = Some k -> k <> 0%Z -> n = k)
     /\ (@None Z = None -> n = 0%Z))
  /\ (@None Z = None -> (0 < 1)%Z ->
      forall streams,
        ~ In (mkStream (Some ("h1" : str))
                (Some (set_calculatedSize None
                         (set_seeders (Some 0%Z)
                            (parseTorrentTitle "Movie.2023.1080p.BluRay"
                               (Some ("Movie" : str)) None))))
                (Some 0%Z) None)
             (minSeedersFilter
                (mkConfig "ENG" [] true 1%Z [Seeders]) streams)).
Proof.
  apply (C10_seeders_default_zero 2026%Z movie None None "Movie" None
           (mkConfig "ENG" [] true 1%Z [Seeders])
           (mkTorrent "h1" "Movie.2023.1080p.BluRay" None None None None None
                      None)).
  reflexivity.
Defined.

(** ** The title normalizer *)

Lemma fallbackClean_cases (title : str) (parsedMeta : ParsedMetadata)
    (originalSearchTitle : option str) :
  fallbackClean title parsedMeta originalSearchTitle
  = match fallbackStripped title parsedMeta originalSearchTitle with
    | [] => lastResort title parsedMeta
    | _ :: _ => fallbackStripped title parsedMeta originalSearchTitle
    end.
Proof.
  unfold fallbackClean, fallbackStripped, lastResort.
  destruct (releaseGroup parsedMeta) as [[|c g]|];
    match goal with
    | |- context [match collapse ?x with _ => _ end] => destruct (collapse x)
    end; reflexivity.
Qed.

Lemma cleanTitle_cases (title : str) (parsedMeta : ParsedMetadata)
    (originalSearchTitle : option str) :
  cleanTitle title parsedMeta originalSearchTitle
  = if takesFallback title parsedMeta
    then fallbackClean title parsedMeta originalSearchTitle
    else primaryClean title parsedMeta.
Proof. unfold cleanTitle, takesFallback. reflexivity. Qed.

Lemma takesFallback_empty (title : str) (parsedMeta : ParsedMetadata) :
  primaryClean title parsedMeta = [] ->
  takesFallback title parsedMeta = (10 <? length title).
Proof.
  intros H. unfold takesFallback. cbv zeta. rewrite H.
  change (test fourDigitsRegex []) with false.
  now rewrite orb_false_r.
Qed.

Lemma fallbackClean_nonempty (title : str) (parsedMeta : ParsedMetadata)
    (originalSearchTitle : option str) :
  lastResort title parsedMeta <> [] ->
  fallbackClean title parsedMeta originalSearchTitle <> [].
Proof.
  intros Ht. rewrite fallbackClean_cases.
  destruct (fallbackStripped title parsedMeta originalSearchTitle);
    [exact Ht | discriminate].
Qed.

(** C2 (as the fallback is guarded): [cleanTitle] returns the empty string
    in exactly two cases.  Either the title has 10 characters or fewer and
    the primary cleaning leaves nothing, so that no fallback is tried; or the
    fallback is tried, its own stripping leaves nothing, and so does the last
    resort, the trimmed title with the release group removed when the
    metadata holds one.  Hence a title of more than 10 characters whose last
    resort is not empty always gets a non-empty string, with or without a
    release group, whatever the other fields and the search title are: the
    primary result when it has at least 5 characters and is not a bare
    4-digit token, otherwise the result of the fallback. *)
Theorem C2_cleanTitle_nonempty (title : str) (parsedMeta : ParsedMetadata)
    (originalSearchTitle : option str) :
  (cleanTitle title parsedMeta originalSearchTitle = [] <->
   (length title <= 10 /\ primaryClean title parsedMeta = [])
   \/ (takesFallback title parsedMeta = true
       /\ fallbackStripped title parsedMeta originalSearchTitle = []
       /\ lastResort title parsedMeta = []))
  /\ (10 < length title -> lastResort title parsedMeta <> [] ->
      cleanTitle title parsedMeta originalSearchTitle <> [])
  /\ (cleanTitle title parsedMeta originalSearchTitle
      = primaryClean title parsedMeta
      \/ cleanTitle title parsedMeta originalSearchTitle
         = fallbackClean title parsedMeta originalSearchTitle).
Proof.
  rewrite cleanTitle_cases.
  destruct (takesFallback title parsedMeta) eqn:E.
  - split; [|split; [|now right]].
    + rewrite fallbackClean_cases. split.
      * intros H. right. split; [reflexivity|].
        destruct (fallbackStripped title parsedMeta originalSearchTitle);
          [now split | discriminate H].
      * intros [[Hlen Hp] | (_ & Hs & Hl)].
        -- rewrite (takesFallback_empty _ _ Hp) in E.
           apply Nat.ltb_lt in E. lia.
        -- now rewrite Hs.
    + intros _ Hl. now apply fallbackClean_nonempty.
  - assert (Hp : primaryClean title parsedMeta = [] -> length title <= 10).
    { intros Hp. rewrite (takesFallback_empty _ _ Hp) in E.
      now apply Nat.ltb_ge in E. }
    split; [|split; [|now left]].
    + split.
      * intros H. left. split; [now apply Hp | exact H].
      * intros [[_ H] | (H & _)]; [exact H | discriminate H].
    + intros Hlen _ H. apply Hp in H. lia.
Qed.

(** C2 at work on the specification's own example title, with the metadata
    the parser holds for it, release group included. *)
Lemma C2_cleanTitle_nonempty_witness :
  cleanTitle "Movie.Title.2023.1080p.BluRay.x264-GROUP"
             (parseTorrentTitle "Movie.Title.2023.1080p.BluRay.x264-GROUP"
                                None None)
             None <> [].
Proof.
  apply (proj1 (proj2 (C2_cleanTitle_nonempty
                         "Movie.Title.2023.1080p.BluRay.x264-GROUP"
                         (parseTorrentTitle
                            "Movie.Title.2023.1080p.BluRay.x264-GROUP"
                            None None)
                         None))).
  - simpl. lia.
  - vm_compute. discriminate.
Defined.

(** C2, as stated, fails.  A title of at most 10 characters gets no fallback:
    "720p.x264", with the metadata the extractor itself produces for it and a
    search title at hand, is cleaned to the empty string.  A long title that
    is blank, and a long title made of its release group and spaces, come out
    empty through the fallback as well. *)
Lemma C2_cleanTitle_can_be_empty :
  cleanTitle "720p.x264" (parseTorrentTitle "720p.x264" (Some ("Movie" : str)) None)
             (Some ("Movie" : str)) = []
  /\ cleanedTitle (parseTorrentTitle "720p.x264" (Some ("Movie" : str)) None)
     = Some []
  /\ cleanTitle "PROPER" (emptyMetadata "PROPER") None = []
  /\ cleanTitle "            " (emptyMetadata "            ") None = []
  /\ releaseGroup (parseTorrentTitle "ab        ab" None None)
     = Some ("ab" : str)
  /\ cleanTitle "ab        ab" (parseTorrentTitle "ab        ab" None None) None
     = [].
Proof. vm_compute. repeat split. Qed.

(** ** The episode test *)

(** The rule as the callback applies it: without [episodeInfo] a candidate is
    kept; with it, for a series request whose season and episode are both
    numbers other than zero, it is kept exactly when the text of
    [episodeInfo] matches one of the two patterns. *)
Lemma episode_rule (type : StremioItemType) (season episode : option Z)
    (parsedMeta : ParsedMetadata) :
  (truthy_str (episodeInfo parsedMeta) = false ->
   rejectedByEpisode type season episode parsedMeta = false)
  /\ (forall s e info,
        type = series -> season = Some s -> episode = Some e ->
        s <> 0%Z -> e <> 0%Z ->
        episodeInfo parsedMeta = Some info -> info <> [] ->
        rejectedByEpisode type season episode parsedMeta
        = negb (test (sePattern s e) info || test (seasonPackPattern s) info))
  /\ (season = Some 0%Z \/ episode = Some 0%Z ->
      rejectedByEpisode type season episode parsedMeta = false).
Proof.
  unfold rejectedByEpisode. repeat split.
  - intros ->. now rewrite !andb_false_r.
  - intros s e info -> -> -> Hs He Hi Hne. rewrite Hi.
    apply Z.eqb_neq in Hs, He. simpl. rewrite Hs, He. simpl.
    destruct info; [contradiction | reflexivity].
  - intros [-> | ->]; simpl; now rewrite ?andb_false_r.
Qed.

(** C5 on the code: the title "Show.Name.S01E02.720p.WEB-DL.AAC", requested
    as season 1 episode 2 of a series, is rejected.  The extractor keeps the
    first capture group of the season/episode pattern, the season digits
    "01", not the matched text "S01E02", and the episode test is run on that
    text.  On the text "S01E02" itself the test accepts episode 2 and rejects
    episode 3.  A request for season 0 is treated as if no season had been
    supplied: nothing is rejected. *)
Theorem C5_explicit_episode_is_rejected :
  episodeInfo (parseTorrentTitle "Show.Name.S01E02.720p.WEB-DL.AAC"
                                 (Some ("Show Name" : str)) None)
  = Some ("01" : str)
  /\ toStream 2026%Z series (Some 1%Z) (Some 2%Z) "Show Name" None
       (mkTorrent "h1" "Show.Name.S01E02.720p.WEB-DL.AAC" None None None None
                  None None) = None
  /\ episodeInfoMatches 1 2 "S01E02" = true
  /\ episodeInfoMatches 1 3 "S01E02" = false
  /\ episodeInfoMatches 1 2 "S01" = true
  /\ episodeInfo (parseTorrentTitle "Show.Name.S05.720p.WEB-DL"
                                    (Some ("Show Name" : str)) None)
     = Some ("S05" : str)
  /\ episodeInfoMatches 0 1 "S05" = false
  /\ rejectedByEpisode series (Some 0%Z) (Some 1%Z)
       (parseTorrentTitle "Show.Name.S05.720p.WEB-DL"
                          (Some ("Show Name" : str)) None) = false.
Proof. vm_compute. repeat split. Qed.

(** ** Literals and alternatives in the matcher *)

Lemma in_cset_char_ci (x a : ascii) :
  in_cset true [CChar x] a = same_char_ci x a.
Proof.
  unfold in_cset, in_cset1, same_char_ci. simpl. rewrite orb_false_r.
  destruct (ascii_eqb x a) eqn:E; [|reflexivity].
  apply ascii_eqb_eq in E. subst. symmetry. now apply ascii_eqb_eq.
Qed.

Lemma rmatch_lit (w : str) : forall p c k,
  rmatch true (lit w) p c k =
  match after_lit w p with
  | Some p' => k p' c
  | None => None
  end.
Proof.
  induction w as [|x w IH]; intros p c k; [reflexivity|].
  destruct w as [|y w].
  - cbn [lit chr rmatch after_lit]. destruct (rest p) as [|a tl]; [reflexivity|].
    rewrite in_cset_char_ci. now destruct (same_char_ci x a).
  - change (lit (x :: y :: w)) with (RSeq (chr x) (lit (y :: w))).
    cbn [rmatch chr after_lit]. fold (after_lit (y :: w)).
    destruct (rest p) as [|a tl]; [reflexivity|].
    rewrite in_cset_char_ci. destruct (same_char_ci x a); [|reflexivity].
    apply IH.
Qed.

Lemma same_char_ci_eq (x a : ascii) :
  same_char_ci x a = true <-> upper_char x = upper_char a.
Proof. unfold same_char_ci. apply ascii_eqb_eq. Qed.

(** Reading a literal succeeds exactly when the subject starts with a text
    equal to it up to letter case; the new position is right after it. *)
Lemma after_lit_spec (w : str) : forall p p',
  after_lit w p = Some p' <->
  exists t, rest p = t ++ rest p' /\ same_ci t w
            /\ before p' = match rev t with
                           | a :: _ => Some a
                           | [] => before p
                           end.
Proof.
  induction w as [|x w IH]; intros p p'; simpl.
  - split.
    + intros H. injection H as <-. exists []. repeat split.
    + intros (t & Hr & Hs & Hb). unfold same_ci in Hs.
      destruct t; [|discriminate Hs]. simpl in *.
      destruct p, p'; simpl in *. congruence.
  - destruct (rest p) as [|a tl] eqn:Er.
    + split; [discriminate|]. intros (t & Hr & Hs & _).
      destruct t; [discriminate Hs | discriminate Hr].
    + destruct (same_char_ci x a) eqn:Ex.
      * rewrite IH. simpl. apply same_char_ci_eq in Ex. split.
        -- intros (t & Hr & Hs & Hb). exists (a :: t). split; [now rewrite Hr|].
           split; [unfold same_ci in *; simpl; congruence|].
           simpl. destruct (rev t) as [|b u] eqn:Et; simpl; assumption.
        -- intros (t & Hr & Hs & Hb). destruct t as [|a' t];
             [discriminate Hs|].
           injection Hr as <- Hr. exists t. split; [exact Hr|].
           split; [unfold same_ci in *; simpl in Hs; congruence|].
           simpl in Hb. destruct (rev t) as [|b u] eqn:Et; simpl in Hb;
             assumption.
      * split; [discriminate|]. intros (t & Hr & Hs & _).
        destruct t as [|a' t]; [discriminate Hs|]. injection Hr as <- _.
        unfold same_ci in Hs. simpl in Hs. injection Hs as Hs _.
        symmetry in Hs. apply same_char_ci_eq in Hs. congruence.
Qed.

(** An alternation returns what its first successful branch returns. *)
Lemma rmatch_alts (ic : bool) (rs : list regex) : forall p c k,
  rmatch ic (alts rs) p c k =
  fold_right (fun r acc => match rmatch ic r p c k with
                           | Some x => Some x
                           | None => acc
                           end) None rs.
Proof.
  induction rs as [|r rs IH]; intros p c k; [simpl|].
  - now destruct (rest p).
  - destruct rs as [|r' rs].
    + simpl. now destruct (rmatch ic r p c k).
    + change (alts (r :: r' :: rs)) with (RAlt r (alts (r' :: rs))).
      cbn [rmatch fold_right]. now rewrite IH.
Qed.

(** ** Resolution tokens *)

Lemma match_here_resolution (p : pos) :
  match_here REGEX_PATTERNS.RESOLUTION p =
  if word_boundary p
  then fold_right (fun w acc => match try_token p w with
                                | Some x => Some x
                                | None => acc
                                end) None resolutionTokens
  else None.
Proof.
  unfold match_here, REGEX_PATTERNS.RESOLUTION.
  cbn [body ignoreCase seq rmatch]. fold (word_boundary p).
  destruct (word_boundary p); [|reflexivity].
  unfold words. rewrite rmatch_alts. unfold resolutionTokens.
  cbn [map fold_right]. rewrite !rmatch_lit. unfold try_token.
  reflexivity.
Qed.

Lemma is_word_upper (a : ascii) : is_word (upper_char a) = is_word a.
Proof.
  destruct a as [[|] [|] [|] [|] [|] [|] [|] [|]]; vm_compute; reflexivity.
Qed.

Lemma same_ci_word (t w : str) :
  same_ci t w -> forallb is_word w = true -> forallb is_word t = true.
Proof.
  unfold same_ci, toUpperCase. revert w.
  induction t as [|a t IH]; intros [|x w] H Hw; try discriminate H;
    [reflexivity|].
  simpl in *. injection H as Ha Ht. apply andb_true_iff in Hw as [Hx Hw].
  apply andb_true_iff. split; [|now apply (IH w)].
  now rewrite <- is_word_upper, Ha, is_word_upper.
Qed.

Lemma same_ci_length (t w : str) : same_ci t w -> length t = length w.
Proof.
  unfold same_ci, toUpperCase. intros H.
  now rewrite <- (length_map upper_char t), H, length_map.
Qed.

Lemma resolutionToken_words (t : str) (w : string) :
  In w resolutionTokens -> same_ci t (S_ w) ->
  t <> [] /\ forallb is_word t = true.
Proof.
  intros Hin Hs. split.
  - intros ->. apply same_ci_length in Hs.
    unfold resolutionTokens in Hin. simpl in Hin.
    repeat (destruct Hin as [<-|Hin]; [discriminate Hs|]). contradiction.
  - apply (same_ci_word t (S_ w) Hs).
    unfold resolutionTokens in Hin. simpl in Hin.
    repeat (destruct Hin as [<-|Hin]; [reflexivity|]). contradiction.
Qed.

Lemma consumed_app (prev prev' : option ascii) (t r : str) :
  consumed (Pos prev (t ++ r)) (Pos prev' r) = t.
Proof.
  unfold consumed. simpl. rewrite length_app.
  replace (length t + length r - length r) with (length t) by lia.
  now rewrite firstn_app, Nat.sub_diag, firstn_all, app_nil_r.
Qed.

Lemma firstn_snoc (s : str) : forall i x,
  nth_error s i = Some x -> firstn (S i) s = firstn i s ++ [x].
Proof.
  induction s as [|a s IH]; intros [|i] x H; try discriminate H.
  - now injection H as ->.
  - simpl in H. change (firstn (S (S i)) (a :: s)) with (a :: firstn (S i) s).
    now rewrite (IH i x H).
Qed.

Lemma hd_rev_firstn (s : str) (i : nat) :
  S i <= length s -> hd_error (rev (firstn (S i) s)) = nth_error s i.
Proof.
  intros H. destruct (nth_error s i) as [x|] eqn:E.
  - rewrite (firstn_snoc s i x E), rev_app_distr. reflexivity.
  - apply nth_error_None in E. lia.
Qed.

Lemma before_pos_at (s : str) (i : nat) :
  i <= length s -> before (pos_at s i) = hd_error (rev (firstn i s)).
Proof.
  destruct i as [|i]; intros H; [reflexivity|].
  symmetry. now apply hd_rev_firstn.
Qed.

Lemma hd_rev_word (t : str) :
  t <> [] -> forallb is_word t = true ->
  is_word_opt (hd_error t) = true
  /\ exists a u, rev t = a :: u /\ is_word a = true.
Proof.
  intros Hne Hw. split.
  - destruct t; [contradiction|]. simpl in *.
    now apply andb_true_iff in Hw as [Hw _].
  - destruct (rev t) as [|a u] eqn:E.
    + apply (f_equal (@rev ascii)) in E. rewrite rev_involutive in E.
      contradiction.
    + exists a, u. split; [reflexivity|].
      rewrite forallb_forall in Hw. apply Hw. apply in_rev. rewrite E.
      now left.
Qed.

Lemma first_success {A B : Type} (f : A -> option B) (l : list A) (x : B) :
  fold_right (fun a acc => match f a with
                           | Some y => Some y
                           | None => acc
                           end) None l = Some x ->
  exists a, In a l /\ f a = Some x.
Proof.
  induction l as [|a l IH]; simpl; [discriminate|].
  destruct (f a) as [y|] eqn:E.
  - intros H. injection H as <-. exists a. split; [now left | exact E].
  - intros H. destruct (IH H) as (b & Hb & Hf). exists b.
    split; [now right | exact Hf].
Qed.

Lemma some_success {A B : Type} (f : A -> option B) (l : list A) (a : A) :
  In a l -> f a <> None ->
  fold_right (fun a acc => match f a with
                           | Some y => Some y
                           | None => acc
                           end) None l <> None.
Proof.
  induction l as [|b l IH]; simpl; [contradiction|].
  intros [->|Hin] Hf.
  - destruct (f a); [discriminate | contradiction].
  - destruct (f b); [discriminate | now apply IH].
Qed.

(** A match of the resolution pattern at position [i] is a resolution token
    there, and the first group holds its text. *)
Lemma resolution_match_is_token (title : str) (i : nat) (pc : pos * caps) :
  i <= length title ->
  match_here REGEX_PATTERNS.RESOLUTION (pos_at title i) = Some pc ->
  let tok := consumed (pos_at title i) (fst pc) in
  resolutionTokenAt title i tok /\ tok <> []
  /\ group 1 (snd pc) = Some tok.
Proof.
  intros Hi Hm tok. rewrite match_here_resolution in Hm.
  destruct (word_boundary (pos_at title i)) eqn:Hb; [|discriminate].
  apply first_success in Hm as (w & Hw & Ht). unfold try_token in Ht.
  destruct (after_lit (S_ w) (pos_at title i)) as [p'|] eqn:Ea;
    [|discriminate].
  destruct (word_boundary p') eqn:Hb'; [|discriminate].
  injection Ht as <-. subst tok. cbn [fst snd group Nat.eqb].
  apply after_lit_spec in Ea as (t & Hr & Hs & Hbef).
  destruct (resolutionToken_words t w Hw Hs) as [Hne Hword].
  destruct (hd_rev_word t Hne Hword) as [Hhd (a & u & Hrev & Ha)].
  assert (Hc : consumed (pos_at title i) p' = t).
  { destruct p' as [prev' r']. unfold pos_at, pos_from in *. simpl in Hr.
    unfold consumed. cbn [rest]. rewrite Hr. apply (consumed_app None prev'). }
  rewrite Hc. split; [|split; [exact Hne | reflexivity]].
  exists (firstn i title), (rest p'). repeat split.
  - rewrite <- Hr. unfold pos_at, pos_from. cbn [rest].
    symmetry. apply firstn_skipn.
  - rewrite length_firstn. lia.
  - exists w. split; assumption.
  - rewrite <- before_pos_at by exact Hi.
    unfold word_boundary in Hb. rewrite Hr in Hb.
    assert (E : is_word_opt (hd_error (t ++ rest p')) = true).
    { destruct t; [contradiction | exact Hhd]. }
    rewrite E in Hb. now destruct (is_word_opt (before (pos_at title i))).
  - unfold word_boundary in Hb'. rewrite Hbef, Hrev in Hb'. simpl in Hb'.
    rewrite Ha in Hb'. now destruct (is_word_opt (hd_error (rest p'))).
Qed.

Lemma word_run_unique (t : str) : forall t' r r',
  t ++ r = t' ++ r' ->
  forallb is_word t = true -> forallb is_word t' = true ->
  is_word_opt (hd_error r) = false -> is_word_opt (hd_error r') = false ->
  t = t'.
Proof.
  induction t as [|a t IH]; intros [|a' t'] r r' E Ht Ht' Hr Hr'.
  - reflexivity.
  - simpl in E. subst r. simpl in Hr, Ht'.
    apply andb_true_iff in Ht' as [Ha _]. congruence.
  - simpl in E. subst r'. simpl in Hr', Ht.
    apply andb_true_iff in Ht as [Ha _]. congruence.
  - simpl in E. injection E as <- E. simpl in Ht, Ht'.
    apply andb_true_iff in Ht as [_ Ht]. apply andb_true_iff in Ht' as [_ Ht'].
    f_equal. now apply (IH t' r r').
Qed.

Lemma resolutionTokenAt_unique (title : str) (i : nat) (tok tok' : str) :
  resolutionTokenAt title i tok -> resolutionTokenAt title i tok' ->
  tok = tok'.
Proof.
  intros (pre & post & E & Hl & (w & Hw & Hs) & _ & Hpost)
         (pre' & post' & E' & Hl' & (w' & Hw' & Hs') & _ & Hpost').
  rewrite E in E'. apply app_eq_app in E' as [l [[E1 E2]|[E1 E2]]];
    assert (Hnil : l = [])
      by (apply (f_equal (@length ascii)) in E1; rewrite length_app in E1;
          destruct l; [reflexivity | simpl in E1; lia]);
    subst l; rewrite ?app_nil_r in *; simpl in E2.
  - apply (word_run_unique tok tok' post post'); try assumption;
      [now symmetry | |];
      [apply (resolutionToken_words tok w Hw Hs)
      | apply (resolutionToken_words tok' w' Hw' Hs')].
  - apply (word_run_unique tok tok' post post'); try assumption;
      [apply (resolutionToken_words tok w Hw Hs)
      | apply (resolutionToken_words tok' w' Hw' Hs')].
Qed.

(** Where the title has a resolution token the pattern matches. *)
Lemma resolution_token_is_matched (title : str) (i : nat) (tok : str) :
  resolutionTokenAt title i tok ->
  i <= length title
  /\ match_here REGEX_PATTERNS.RESOLUTION (pos_at title i) <> None.
Proof.
  intros (pre & post & E & Hl & (w & Hw & Hs) & Hpre & Hpost).
  assert (Hi : i <= length title).
  { rewrite E, length_app. lia. }
  split; [exact Hi|].
  destruct (resolutionToken_words tok w Hw Hs) as [Hne Hword].
  destruct (hd_rev_word tok Hne Hword) as [Hhd (a & u & Hrev & Ha)].
  assert (Hrest : rest (pos_at title i) = tok ++ post).
  { unfold pos_at, pos_from. cbn [rest]. rewrite E, <- Hl.
    rewrite skipn_app, skipn_all, Nat.sub_diag. reflexivity. }
  assert (Hbef : is_word_opt (before (pos_at title i)) = false).
  { rewrite before_pos_at by exact Hi. rewrite E, <- Hl.
    rewrite firstn_app, firstn_all, Nat.sub_diag. simpl.
    now rewrite app_nil_r. }
  rewrite match_here_resolution.
  assert (Hb : word_boundary (pos_at title i) = true).
  { unfold word_boundary. rewrite Hbef, Hrest.
    destruct tok; [contradiction | exact Hhd]. }
  rewrite Hb. apply (some_success _ _ w Hw). unfold try_token.
  assert (Ea : after_lit (S_ w) (pos_at title i) = Some (Pos (Some a) post)).
  { apply after_lit_spec. exists tok. cbn [rest before]. rewrite Hrev.
    repeat split; assumption. }
  rewrite Ea. unfold word_boundary. cbn [before rest is_word_opt].
  rewrite Ha, Hpost. discriminate.
Qed.

(** The parser captures the leftmost resolution token of the title. *)
Lemma first_resolution_token_is_captured (title : str)
    (originalSearchTitle : option str) (torrentYearFromBitmagnet : option Z)
    (i : nat) (tok : str) :
  resolutionTokenAt title i tok ->
  (forall j tok', j < i -> ~ resolutionTokenAt title j tok') ->
  resolution (parseTorrentTitle title originalSearchTitle
                                torrentYearFromBitmagnet)
  = Some (toUpperCase tok).
Proof.
  intros Htok Hfirst.
  destruct (resolution_token_is_matched title i tok Htok) as [Hi Hm].
  destruct (match_here REGEX_PATTERNS.RESOLUTION (pos_at title i))
    as [pc|] eqn:E; [|contradiction].
  destruct (resolution_match_is_token title i pc Hi E) as (Ht & Hne & Hg).
  rewrite (resolutionTokenAt_unique _ _ _ _ Htok Ht).
  rewrite parseTorrentTitle_resolution. unfold exec.
  rewrite (exec_from_leftmost _ i title None 0 pc Hi E).
  - cbn [option_map]. unfold group1_or_whole, result_at. cbn [groups Nat.add].
    rewrite Hg.
    destruct (consumed (pos_at title i) (fst pc)); [contradiction|reflexivity].
  - intros j Hj.
    destruct (match_here REGEX_PATTERNS.RESOLUTION (pos_from None title j))
      as [pc'|] eqn:E'; [|reflexivity].
    exfalso.
    destruct (resolution_match_is_token title j pc' ltac:(lia) E')
      as (Ht' & _).
    exact (Hfirst j _ Hj Ht').
Qed.

(** C7: along the passes of the extractor a field that has been set keeps
    its value to the end: no later pass overwrites it.  For the resolution
    this means that of all the resolution tokens of a title only the leftmost
    is captured: when a token stands at a position and none stands before it,
    the captured resolution is that token, upper-cased, whatever tokens
    follow; a title without a token leaves the field unset. *)
Theorem C7_first_match_is_kept (title : str)
    (originalSearchTitle : option str) (torrentYearFromBitmagnet : option Z) :
  (forall i j, i <= j ->
     keepsSetFields
       (stateAfter title originalSearchTitle torrentYearFromBitmagnet i)
       (stateAfter title originalSearchTitle torrentYearFromBitmagnet j))
  /\ stateAfter title originalSearchTitle torrentYearFromBitmagnet 12
     = parseTorrentTitle title originalSearchTitle torrentYearFromBitmagnet
  /\ (forall i tok,
        resolutionTokenAt title i tok ->
        (forall j tok', j < i -> ~ resolutionTokenAt title j tok') ->
        resolution (parseTorrentTitle title originalSearchTitle
                                      torrentYearFromBitmagnet)
        = Some (toUpperCase tok))
  /\ ((forall i tok, ~ resolutionTokenAt title i tok) ->
      resolution (parseTorrentTitle title originalSearchTitle
                                    torrentYearFromBitmagnet) = None).
Proof.
  split; [intros i j; apply state_keeps|].
  split; [apply state_final; lia|].
  split; [intros i tok; apply first_resolution_token_is_captured|].
  intros Hnone. rewrite parseTorrentTitle_resolution.
  destruct (exec REGEX_PATTERNS.RESOLUTION title) as [m|] eqn:E;
    [|reflexivity].
  exfalso. unfold exec in E.
  apply exec_from_sound in E as (n & pc & Hn & _ & Hm & _).
  destruct (resolution_match_is_token title n pc Hn Hm) as (Ht & _).
  exact (Hnone _ _ Ht).
Qed.

(** C7 on a title with three resolution tokens: the first one, at position
    6, is captured, and it is still there after every later pass. *)
Lemma C7_first_match_is_kept_witness :
  resolutionTokenAt "Movie.720p.1080p.2160p.x264-GRP" 6 "720p"
  /\ resolutionTokenAt "Movie.720p.1080p.2160p.x264-GRP" 11 "1080p"
  /\ resolution (parseTorrentTitle "Movie.720p.1080p.2160p.x264-GRP" None None)
     = Some ("720P" : str)
  /\ resolution (stateAfter "Movie.720p.1080p.2160p.x264-GRP" None None 2)
     = None
  /\ resolution (stateAfter "Movie.720p.1080p.2160p.x264-GRP" None None 3)
     = Some ("720P" : str).
Proof.
  assert (H6 : resolutionTokenAt "Movie.720p.1080p.2160p.x264-GRP" 6 "720p").
  { exists ("Movie." : str), (".1080p.2160p.x264-GRP" : str).
    repeat split. exists "720p". split; [simpl; tauto | reflexivity]. }
  split; [exact H6|]. split.
  { exists ("Movie.720p." : str), (".2160p.x264-GRP" : str).
    repeat split. exists "1080p". split; [simpl; tauto | reflexivity]. }
  split.
  { apply (proj1 (proj2 (proj2 (C7_first_match_is_kept
                                  "Movie.720p.1080p.2160p.x264-GRP" None None)))
             6 ("720p" : str) H6).
    intros j tok' Hj Ht. apply resolution_token_is_matched in Ht as [_ Ht].
    apply Ht. do 6 (destruct j as [|j]; [vm_compute; reflexivity|]). lia. }
  split; vm_compute; reflexivity.
Defined.

(** ** Greedy repetition of a character class *)

(** When the subject starts with a run [ds] of characters of the class,
    followed by a character outside it, and the rest of the pattern succeeds
    after the whole run, [cs*] takes the whole run. *)
Lemma star_class_greedy (ic : bool) (cs : list cset) (k : cont)
    (r : str) (c : caps) (x : pos * caps) : forall ds prev,
  forallb (in_cset ic cs) ds = true ->
  stops ic cs r ->
  k (Pos (prev_after prev ds) r) c = Some x ->
  rmatch ic (RStar (RSet cs)) (Pos prev (ds ++ r)) c k = Some x.
Proof.
  cbn [rmatch rest].
  induction ds as [|d ds IH]; intros prev Hds Hr Hk.
  - simpl app. unfold prev_after in Hk. simpl in Hk.
    destruct r as [|a r']; simpl; [exact Hk|].
    simpl in Hr. rewrite Hr. exact Hk.
  - simpl in Hds. apply andb_true_iff in Hds as [Hd Hds].
    simpl app. simpl length. cbn [star_loop rmatch rest]. rewrite Hd.
    assert (Hlt : (length (ds ++ r) <? S (length (ds ++ r))) = true)
      by (apply Nat.ltb_lt; lia).
    cbn [rest]. change (length (d :: ds ++ r)) with (S (length (ds ++ r))).
    rewrite Hlt. now rewrite (IH (Some d) Hds Hr Hk).
Qed.

Lemma plus_class_greedy (ic : bool) (cs : list cset) (k : cont)
    (r : str) (c : caps) (x : pos * caps) (d : ascii) (ds : str)
    (prev : option ascii) :
  forallb (in_cset ic cs) (d :: ds) = true ->
  stops ic cs r ->
  k (Pos (prev_after prev (d :: ds)) r) c = Some x ->
  rmatch ic (plus (RSet cs)) (Pos prev ((d :: ds) ++ r)) c k = Some x.
Proof.
  intros Hds Hr Hk. unfold plus. cbn [rmatch rest app].
  simpl in Hds. apply andb_true_iff in Hds as [Hd Hds]. rewrite Hd.
  change (star_loop (rmatch ic (RSet cs)) k
            (length (rest (Pos (Some d) (ds ++ r))))
            (Pos (Some d) (ds ++ r)) c)
    with (rmatch ic (RStar (RSet cs)) (Pos (Some d) (ds ++ r)) c k).
  now apply star_class_greedy.
Qed.

(** ** Size parsing through the pattern *)

Ltac unit_chars u Hs :=
  let Hl := fresh "Hl" in
  pose proof (same_ci_length _ _ Hs) as Hl; simpl in Hl;
  repeat (destruct u as [|? u]; [discriminate Hl|]);
  destruct u; [|discriminate Hl]; clear Hl;
  unfold same_ci, toUpperCase in Hs; simpl in Hs.

Lemma unit_is_matched (u : str) (unit : string) (k : Z) :
  In (unit, k) sizeUnits -> same_ci u (S_ unit) ->
  forall prev tail c K x,
    K (Pos (prev_after prev u) tail) c = Some x ->
    rmatch true (words ["TB"; "GB"; "MB"; "KB"; "TiB"; "GiB"; "MiB"; "KiB"])
           (Pos prev (u ++ tail)) c K = Some x.
Proof.
  intros Hin Hs prev tail c K x HK.
  unfold words. rewrite rmatch_alts. cbn [map fold_right].
  rewrite !rmatch_lit.
  unfold sizeUnits in Hin. simpl in Hin.
  repeat (destruct Hin as [Hin|Hin];
          [injection Hin as <- <-; unit_chars u Hs;
           cbn [after_lit rest S_ list_ascii_of_string app];
           unfold same_char_ci;
           repeat match goal with
                  | H : _ :: _ = _ :: _ |- _ => injection H as H
                  end;
           repeat match goal with
                  | H : upper_char ?a = _ |- _ => rewrite H; clear H
                  end;
           repeat match goal with
                  | |- context [ascii_eqb ?a ?b] =>
                      let v := eval vm_compute in (ascii_eqb a b) in
                      change (ascii_eqb a b) with v
                  end;
           cbv beta iota; unfold prev_after in HK; simpl in HK;
           rewrite HK; reflexivity|]).
  contradiction.
Qed.

Lemma in_cset_digit (ic : bool) (a : ascii) :
  in_cset ic [CDigit] a = is_digit a.
Proof. unfold in_cset. simpl. apply orb_false_r. Qed.

Lemma in_cset_space (ic : bool) (a : ascii) :
  in_cset ic [CSpace] a = is_space a.
Proof. unfold in_cset. simpl. apply orb_false_r. Qed.

Lemma forallb_ext_eq {A : Type} (f g : A -> bool) (l : list A) :
  (forall a, f a = g a) -> forallb f l = forallb g l.
Proof. intros H. induction l; simpl; [reflexivity | now rewrite H, IHl]. Qed.

(** A letter is no digit, no white space and no dot. *)
Lemma letter_is_plain (a : ascii) :
  is_upper (upper_char a) = true ->
  is_digit a = false /\ is_space a = false /\ ascii_eqb "." a = false
  /\ same_char_ci "." a = false.
Proof.
  destruct a as [[|] [|] [|] [|] [|] [|] [|] [|]]; vm_compute;
    intros H; try discriminate H; repeat split.
Qed.

Lemma unit_starts_with_letter (u : str) (unit : string) (k : Z) :
  In (unit, k) sizeUnits -> same_ci u (S_ unit) ->
  exists a u', u = a :: u' /\ is_upper (upper_char a) = true.
Proof.
  intros Hin Hs. unfold sizeUnits in Hin. simpl in Hin.
  repeat (destruct Hin as [Hin|Hin];
          [injection Hin as <- <-; unit_chars u Hs;
           injection Hs as Hs _; eexists; eexists;
           split; [reflexivity | rewrite Hs; reflexivity]|]).
  contradiction.
Qed.

Lemma prev_after_app (prev : option ascii) (a b : str) :
  prev_after prev (a ++ b) = prev_after (prev_after prev a) b.
Proof. unfold prev_after. apply fold_left_app. Qed.

(** What follows the number: white space, then the unit. *)
Lemma size_unit_part (ws u : str) (unit : string) (k : Z) (tail : str)
    (prev : option ascii) (c : caps) :
  forallb is_space ws = true ->
  In (unit, k) sizeUnits -> same_ci u (S_ unit) ->
  rmatch true
    (RSeq (RStar (RSet [CSpace]))
          (RGroup 2 (words ["TB"; "GB"; "MB"; "KB"; "TiB"; "GiB"; "MiB";
                            "KiB"])))
    (Pos prev (ws ++ u ++ tail)) c ret
  = Some (Pos (prev_after (prev_after prev ws) u) tail, (2, u) :: c).
Proof.
  intros Hws Hin Hs.
  change (rmatch true (RSeq ?r1 ?r2) ?p ?c ?k)
    with (rmatch true r1 p c (fun p' c' => rmatch true r2 p' c' k)).
  apply star_class_greedy.
  - rewrite <- Hws. apply forallb_ext_eq. apply in_cset_space.
  - destruct (unit_starts_with_letter u unit k Hin Hs) as (a & u' & -> & Ha).
    change (in_cset true [CSpace] a = false).
    rewrite in_cset_space. now apply letter_is_plain.
  - cbn [rmatch]. apply (unit_is_matched u unit k Hin Hs).
    unfold ret. now rewrite (consumed_app _ _ u tail).
Qed.

Lemma rmatch_seq_group (ic : bool) (i : nat) (r1 r2 : regex) (p : pos)
    (c : caps) (k : cont) :
  rmatch ic (RSeq (RGroup i r1) r2) p c k =
  rmatch ic r1 p c
    (fun p' c' => rmatch ic r2 p' ((i, consumed p p') :: c') k).
Proof. reflexivity. Qed.

(** The number: the digits are taken greedily, and so is the fraction when
    there is one. *)
Lemma size_number_part (num r : str) (prev : option ascii) (c : caps)
    (K : cont) (x : pos * caps) :
  decimalText num ->
  stops true [CDigit] r -> stops true [CChar "."] r ->
  K (Pos (prev_after prev num) r) c = Some x ->
  rmatch true (RSeq (plus digit) (opt (RSeq (chr ".") (plus digit))))
         (Pos prev (num ++ r)) c K = Some x.
Proof.
  intros (ip & Hne & Hip & Hnum) Hd Hdot HK.
  destruct ip as [|d ds]; [contradiction|].
  assert (Hip' : forallb (in_cset true [CDigit]) (d :: ds) = true).
  { rewrite <- Hip. apply forallb_ext_eq. apply in_cset_digit. }
  change (rmatch true (RSeq ?r1 ?r2) ?p ?c ?k)
    with (rmatch true r1 p c (fun p' c' => rmatch true r2 p' c' k)).
  unfold digit. destruct Hnum as [->|(fp & Hfne & Hfp & ->)].
  - apply plus_class_greedy; try assumption.
    unfold opt. cbn [rmatch chr rest].
    destruct r as [|a r']; [exact HK|].
    change (in_cset true [CChar "."] a = false) in Hdot.
    rewrite Hdot. exact HK.
  - destruct fp as [|f fs]; [contradiction|].
    assert (Hfp' : forallb (in_cset true [CDigit]) (f :: fs) = true).
    { rewrite <- Hfp. apply forallb_ext_eq. apply in_cset_digit. }
    rewrite <- !app_assoc.
    apply plus_class_greedy; [assumption | reflexivity|].
    unfold opt. cbn [rmatch chr rest S_ list_ascii_of_string app].
    change (in_cset true [CChar "."] ".") with true. cbv iota.
    change (f :: fs ++ r) with ((f :: fs) ++ r).
    rewrite (plus_class_greedy true [CDigit] K r c x f fs (Some "."%char));
      try assumption; [reflexivity|].
    rewrite !prev_after_app in HK. exact HK.
Qed.

(** The whole pattern on [number, white space, unit]. *)
Lemma size_match (num ws u : str) (unit : string) (k : Z) (tail : str) :
  decimalText num -> forallb is_space ws = true ->
  In (unit, k) sizeUnits -> same_ci u (S_ unit) ->
  exists p', match_here sizeRegexLocal (Pos None (num ++ ws ++ u ++ tail))
             = Some (p', [(2, u); (1, num)]).
Proof.
  intros Hnum Hws Hin Hs. eexists.
  unfold match_here, sizeRegexLocal. cbn [body ignoreCase seq].
  rewrite rmatch_seq_group.
  apply size_number_part; try assumption.
  - destruct ws as [|w ws'].
    + destruct (unit_starts_with_letter u unit k Hin Hs) as (a & u' & -> & Ha).
      change (in_cset true [CDigit] a = false). rewrite in_cset_digit.
      now apply letter_is_plain.
    + change (in_cset true [CDigit] w = false). rewrite in_cset_digit.
      simpl in Hws. apply andb_true_iff in Hws as [Hw _].
      revert Hw. clear.
      destruct w as [[|] [|] [|] [|] [|] [|] [|] [|]]; vm_compute; congruence.
  - destruct ws as [|w ws'].
    + destruct (unit_starts_with_letter u unit k Hin Hs) as (a & u' & -> & Ha).
      change (in_cset true [CChar "."] a = false). rewrite in_cset_char_ci.
      now apply letter_is_plain.
    + change (in_cset true [CChar "."] w = false). rewrite in_cset_char_ci.
      simpl in Hws. apply andb_true_iff in Hws as [Hw _].
      revert Hw. clear.
      destruct w as [[|] [|] [|] [|] [|] [|] [|] [|]]; vm_compute; congruence.
  - rewrite (consumed_app None _ num (ws ++ u ++ tail)).
    apply (size_unit_part ws u unit k tail _ _ Hws Hin Hs).
Qed.

(** A text made of a number, white space and a unit parses to the number
    times the unit's power of 1024, whatever follows the unit. *)
Lemma parseSize_number_unit (num ws u : str) (unit : string) (k : Z)
    (tail : str) :
  decimalText num -> forallb is_space ws = true ->
  In (unit, k) sizeUnits -> same_ci u (S_ unit) ->
  isSize (parseSize (num ++ ws ++ u ++ tail))
         (parseFloat num * inject_Z (1024 ^ k)).
Proof.
  intros Hnum Hws Hin Hs.
  destruct (size_match num ws u unit k tail Hnum Hws Hin Hs) as [p' Hm].
  unfold parseSize, exec.
  rewrite (exec_from_leftmost sizeRegexLocal 0 _ None 0 _ (Nat.le_0_l _) Hm)
    by (intros j Hj; lia).
  unfold group_text, result_at. cbn [groups snd group Nat.eqb].
  rewrite Hs. now apply parseSize_unit_binary.
Qed.

(** C9: a text "<number> <unit>" (digits with an optional fraction, any white
    space, one of KB, MB, GB, TB, KiB, MiB, GiB, TiB in any letter case)
    parses to the number times 1024 to the power 1, 2, 3 or 4, the same for a
    unit and its "i" variant; "1.5 GiB" parses to 1.5 x 1024^3 and "700MB" to
    700 x 1024^2. *)
Theorem C9_parseSize_binary_multiples :
  (forall num ws u unit k tail,
     decimalText num -> forallb is_space ws = true ->
     In (unit, k) sizeUnits -> same_ci u (S_ unit) ->
     isSize (parseSize (num ++ ws ++ u ++ tail))
            (parseFloat num * inject_Z (1024 ^ k)))
  /\ (forall value,
        parseSize_unit value "KB" = parseSize_unit value "KIB"
        /\ parseSize_unit value "MB" = parseSize_unit value "MIB"
        /\ parseSize_unit value "GB" = parseSize_unit value "GIB"
        /\ parseSize_unit value "TB" = parseSize_unit value "TIB")
  /\ isSize (parseSize "1.5 GiB") ((3 # 2) * inject_Z (1024 ^ 3))
  /\ isSize (parseSize "700MB") (700 * inject_Z (1024 ^ 2))
  /\ isSize (parseSize "700 mib") (700 * inject_Z (1024 ^ 2))
  /\ isSize (parseSize "2.25 kb") ((9 # 4) * 1024)
  /\ isSize (parseSize "3TiB") (3 * inject_Z (1024 ^ 4)).
Proof.
  split; [exact parseSize_number_unit|].
  split; [intros value; repeat split|].
  repeat split; (eexists; split; [vm_compute; reflexivity | reflexivity]).
Qed.

(** C9 through the general statement: "1.5 GiB" is the number "1.5", one
    space and the unit "GiB". *)
Lemma C9_parseSize_binary_multiples_witness :
  isSize (parseSize (S_ "1.5" ++ S_ " " ++ S_ "GiB" ++ []))
         (parseFloat "1.5" * inject_Z (1024 ^ 3)).
Proof.
  apply (proj1 C9_parseSize_binary_multiples (S_ "1.5") (S_ " ") (S_ "GiB")
               "GiB" 3%Z []).
  - exists ("1" : str). split; [discriminate|]. split; [reflexivity|].
    right. exists ("5" : str). split; [discriminate|]. split; reflexivity.
  - reflexivity.
  - simpl. tauto.
  - reflexivity.
Defined.

(** ** The properties on sample inputs *)

(** C4 on the specification's example: next to a 1080p BluRay release the
    CAM release is eliminated and the BluRay one is kept. *)
Lemma C4_low_quality_elimination_witness :
  map s_infoHash
      (selectStreams 2026%Z movie None None "Movie" None defaultConfig
         [bareTorrent "h1" "Movie.2023.CAM.XViD";
          bareTorrent "h2" "Movie.2023.1080p.BluRay"])
  = [Some ("h2" : str)]
  /\ map rankOfStream
         (parsedStreams 2026%Z movie None None "Movie" None
            [bareTorrent "h1" "Movie.2023.CAM.XViD";
             bareTorrent "h2" "Movie.2023.1080p.BluRay"])
     = [LOW_QUALITY; BLURAY_1080P]
  /\ forall s,
       In s (lowQualityFilter defaultConfig
               (parsedStreams 2026%Z movie None None "Movie" None
                  [bareTorrent "h1" "Movie.2023.CAM.XViD";
                   bareTorrent "h2" "Movie.2023.1080p.BluRay"])) ->
       rankOfStream s <> LOW_QUALITY.
Proof.
  split; [vm_compute; reflexivity|]. split; [vm_compute; reflexivity|].
  intros s Hin.
  refine (proj1 (proj2 (proj1 (proj2 (C4_low_quality_elimination
                                        defaultConfig _) eq_refl _) s Hin))).
  apply hasHighQuality_spec. vm_compute. reflexivity.
Defined.

(** C8 on two candidates ranked WEBDL_2160P: "2160P" is in the default
    order, "4K" is not, so the first one wins. *)
Lemma C8_quality_tie_break_witness :
  rankOfStream (bareStream "2160p" "WEB") = WEBDL_2160P
  /\ rankOfStream (bareStream "4K" "WEB") = WEBDL_2160P
  /\ compareQuality defaultConfig (bareStream "2160p" "WEB")
                    (bareStream "4K" "WEB") = (-1)%Z
  /\ compareQuality defaultConfig (bareStream "4K" "WEB")
                    (bareStream "2160p" "WEB") = 1%Z.
Proof.
  split; [reflexivity|]. split; [reflexivity|]. split.
  - refine (proj1 (proj2 (proj1 (C8_quality_tie_break defaultConfig)
                            (bareStream "2160p" "WEB") (bareStream "4K" "WEB")
                            _ _ eq_refl eq_refl eq_refl)) _ _).
    + vm_compute. tauto.
    + vm_compute. intuition discriminate.
  - refine (proj2 (proj2 (proj1 (C8_quality_tie_break defaultConfig)
                            (bareStream "4K" "WEB") (bareStream "2160p" "WEB")
                            _ _ eq_refl eq_refl eq_refl)) _ _).
    + vm_compute. intuition discriminate.
    + vm_compute. tauto.
Defined.

(** ** The episode patterns on a text *)

(** [test] succeeds exactly when the pattern matches at some position. *)
Lemma exec_from_None (re : RegExp) : forall s prev i0,
  exec_from re prev s i0 = None <->
  forall n, n <= length s -> match_here re (pos_from prev s n) = None.
Proof.
  induction s as [|a tl IH]; intros prev i0; simpl exec_from.
  - destruct (match_here re (Pos prev [])) eqn:E.
    + split; [discriminate|]. intros H. specialize (H 0 (le_n 0)).
      change (pos_from prev [] 0) with (Pos prev []) in H. congruence.
    + split; [|reflexivity]. intros _ n Hn. simpl in Hn.
      assert (n = 0) by lia. subst. exact E.
  - destruct (match_here re (Pos prev (a :: tl))) eqn:E.
    + split; [discriminate|]. intros H. specialize (H 0 (Nat.le_0_l _)).
      change (pos_from prev (a :: tl) 0) with (Pos prev (a :: tl)) in H.
      congruence.
    + rewrite IH. split.
      * intros H [|n] Hn; [exact E|]. rewrite pos_from_tail. apply H.
        simpl in Hn. lia.
      * intros H n Hn. rewrite <- (pos_from_tail prev). apply H. simpl. lia.
Qed.

Lemma test_spec (re : RegExp) (s : str) :
  test re s = true <->
  exists n, n <= length s /\ is_some (match_here re (pos_at s n)) = true.
Proof.
  unfold test, exec. split.
  - destruct (exec_from re None s 0) as [m|] eqn:E; [|discriminate].
    intros _. apply exec_from_sound in E as (n & pc & Hn & _ & Hm & _).
    exists n. split; [exact Hn|]. unfold pos_at. now rewrite Hm.
  - intros (n & Hn & Hm).
    destruct (exec_from re None s 0) as [m|] eqn:E; [reflexivity|].
    rewrite exec_from_None in E. unfold pos_at in Hm. rewrite (E n Hn) in Hm.
    discriminate.
Qed.

Lemma in_cset_Ss (a : ascii) :
  in_cset true [CChar "S"; CChar "s"] a = true <-> upper_char a = "S"%char.
Proof.
  destruct a as [[|] [|] [|] [|] [|] [|] [|] [|]]; vm_compute;
    split; congruence.
Qed.

Lemma in_cset_Ee (a : ascii) :
  in_cset true [CChar "E"; CChar "e"] a = true <-> upper_char a = "E"%char.
Proof.
  destruct a as [[|] [|] [|] [|] [|] [|] [|] [|]]; vm_compute;
    split; congruence.
Qed.

(** Reading one of the two spellings of a number. *)
Lemma number_alternatives (n : Z) (p : pos) (c : caps) (k : cont) :
  is_some (rmatch true (seasonAlternatives n) p c k) = true <->
  exists w p', In w (numberTexts n) /\ after_lit w p = Some p'
               /\ is_some (k p' c) = true.
Proof.
  unfold seasonAlternatives, numberTexts. cbn [rmatch]. rewrite !rmatch_lit.
  split.
  - destruct (after_lit (padStart2 (string_of_Z n)) p) as [p1|] eqn:E1.
    + destruct (k p1 c) eqn:K1.
      * intros _. exists (padStart2 (string_of_Z n)), p1.
        split; [now left|]. split; [exact E1 | now rewrite K1].
      * destruct (after_lit (string_of_Z n) p) as [p2|] eqn:E2;
          [|discriminate].
        intros H. exists (string_of_Z n), p2.
        split; [right; now left|]. split; [exact E2 | exact H].
    + destruct (after_lit (string_of_Z n) p) as [p2|] eqn:E2; [|discriminate].
      intros H. exists (string_of_Z n), p2.
      split; [right; now left|]. split; [exact E2 | exact H].
  - intros (w & p' & [<-|[<-|[]]] & Ea & Hk).
    + rewrite Ea. destruct (k p' c); [reflexivity | discriminate Hk].
    + destruct (after_lit (padStart2 (string_of_Z n)) p) as [p1|].
      * destruct (k p1 c); [reflexivity|]. rewrite Ea. exact Hk.
      * rewrite Ea. exact Hk.
Qed.

Lemma after_lit_reads (w t r : str) (prev : option ascii) :
  same_ci t w -> exists p', after_lit w (Pos prev (t ++ r)) = Some p'
                            /\ rest p' = r.
Proof.
  intros Hs.
  exists (Pos (match rev t with a :: _ => Some a | [] => prev end) r).
  split; [|reflexivity]. apply after_lit_spec. exists t. repeat split.
  exact Hs.
Qed.

(** The second half of the episode pattern: E and the episode number. *)
Lemma episode_part (episode : Z) (p : pos) (c : caps) :
  is_some (rmatch true (RSeq (RSet [CChar "E"; CChar "e"])
                             (RGroup 2 (seasonAlternatives episode)))
                  p c ret) = true <->
  exists b de post,
    rest p = b :: de ++ post /\ upper_char b = "E"%char
    /\ exists w, In w (numberTexts episode) /\ same_ci de w.
Proof.
  cbn [rmatch]. destruct (rest p) as [|b tl] eqn:Er.
  - split; [discriminate|]. intros (b & de & post & H & _). discriminate H.
  - destruct (in_cset true [CChar "E"; CChar "e"] b) eqn:Eb.
    + apply in_cset_Ee in Eb. rewrite number_alternatives. split.
      * intros (w & p' & Hw & Ha & _).
        apply after_lit_spec in Ha as (t & Hr & Hs & _). cbn [rest] in Hr.
        exists b, t, (rest p'). split; [now rewrite Hr|]. split; [exact Eb|].
        exists w. split; assumption.
      * intros (b' & de & post & H & _ & w & Hw & Hs). injection H as <- ->.
        destruct (after_lit_reads w de post (Some b) Hs) as (p' & Ha & _).
        exists w, p'. split; [exact Hw|]. split; [exact Ha | reflexivity].
    + split; [discriminate|].
      intros (b' & de & post & H & Hb & _). injection H as <- _.
      apply in_cset_Ee in Hb. congruence.
Qed.

(** The episode pattern at one position. *)
Lemma sePattern_here (season episode : Z) (p : pos) :
  is_some (match_here (sePattern season episode) p) = true <->
  exists a ds b de post,
    rest p = a :: ds ++ b :: de ++ post
    /\ upper_char a = "S"%char /\ upper_char b = "E"%char
    /\ (exists w, In w (numberTexts season) /\ same_ci ds w)
    /\ (exists w, In w (numberTexts episode) /\ same_ci de w).
Proof.
  unfold match_here, sePattern. cbn [body ignoreCase seq].
  change (rmatch true (RSeq (RSet ?cs) ?r) p [] ?k)
    with (match rest p with
          | a :: tl =>
              if in_cset true cs a then rmatch true r (Pos (Some a) tl) [] k
              else None
          | [] => None
          end).
  destruct (rest p) as [|a tl] eqn:Er.
  - split; [discriminate|].
    intros (a & ds & b & de & post & H & _). discriminate H.
  - destruct (in_cset true [CChar "S"; CChar "s"] a) eqn:Ea.
    + apply in_cset_Ss in Ea. rewrite rmatch_seq_group, number_alternatives.
      split.
      * intros (w & p' & Hw & Hl & Hk).
        apply after_lit_spec in Hl as (t & Hr & Hs & _). cbn [rest] in Hr.
        apply episode_part in Hk as (b & de & post & Hr' & Hb & Hde).
        exists a, t, b, de, post. rewrite Hr, Hr'.
        repeat split; try assumption. exists w. split; assumption.
      * intros (a' & ds & b & de & post & H & _ & Hb & (w & Hw & Hs) & Hde).
        injection H as <- ->.
        destruct (after_lit_reads w ds (b :: de ++ post) (Some a) Hs)
          as (p' & Hl & Hr).
        exists w, p'. split; [exact Hw|]. split; [exact Hl|].
        apply episode_part. exists b, de, post. rewrite Hr.
        repeat split; assumption.
    + split; [discriminate|].
      intros (a' & ds & b & de & post & H & Ha & _). injection H as <- _.
      apply in_cset_Ss in Ha. congruence.
Qed.

(** The lookahead that closes the season-pack pattern. *)
Lemma season_stop (p : pos) (c : caps) :
  is_some (rmatch true
             (RNotAhead (RAlt digit (RGroup 2 (RSet [CChar "E"; CChar "e"]))))
             p c ret) = true <->
  match rest p with
  | [] => True
  | x :: _ => is_digit x = false /\ upper_char x <> "E"%char
  end.
Proof.
  unfold digit. cbn [rmatch]. destruct (rest p) as [|x tl]; [now split|].
  rewrite in_cset_digit. destruct (is_digit x).
  - split; [discriminate | intros [H _]; discriminate H].
  - destruct (in_cset true [CChar "E"; CChar "e"] x) eqn:Ex.
    + apply in_cset_Ee in Ex. split; [discriminate | intros [_ H]; contradiction].
    + split; [|reflexivity]. intros _. split; [reflexivity|].
      intros H. apply in_cset_Ee in H. congruence.
Qed.

(** The season-pack pattern at one position. *)
Lemma seasonPackPattern_here (season : Z) (p : pos) :
  is_some (match_here (seasonPackPattern season) p) = true <->
  exists a ds post,
    rest p = a :: ds ++ post
    /\ upper_char a = "S"%char
    /\ (exists w, In w (numberTexts season) /\ same_ci ds w)
    /\ match post with
       | [] => True
       | x :: _ => is_digit x = false /\ upper_char x <> "E"%char
       end.
Proof.
  unfold match_here, seasonPackPattern. cbn [body ignoreCase seq].
  change (rmatch true (RSeq (RSet ?cs) ?r) p [] ?k)
    with (match rest p with
          | a :: tl =>
              if in_cset true cs a then rmatch true r (Pos (Some a) tl) [] k
              else None
          | [] => None
          end).
  destruct (rest p) as [|a tl] eqn:Er.
  - split; [discriminate|]. intros (a & ds & post & H & _). discriminate H.
  - destruct (in_cset true [CChar "S"; CChar "s"] a) eqn:Ea.
    + apply in_cset_Ss in Ea. rewrite rmatch_seq_group, number_alternatives.
      split.
      * intros (w & p' & Hw & Hl & Hk).
        apply after_lit_spec in Hl as (t & Hr & Hs & _). cbn [rest] in Hr.
        apply season_stop in Hk.
        exists a, t, (rest p'). rewrite Hr.
        repeat split; try assumption. exists w. split; assumption.
      * intros (a' & ds & post & H & _ & (w & Hw & Hs) & Hpost).
        injection H as <- ->.
        destruct (after_lit_reads w ds post (Some a) Hs) as (p' & Hl & Hr).
        exists w, p'. split; [exact Hw|]. split; [exact Hl|].
        apply season_stop. now rewrite Hr.
    + split; [discriminate|].
      intros (a' & ds & post & H & Ha & _). injection H as <- _.
      apply in_cset_Ss in Ha. congruence.
Qed.

Lemma rest_pos_at (s : str) (n : nat) : rest (pos_at s n) = skipn n s.
Proof. reflexivity. Qed.

Lemma split_at_prefix (pre r : str) :
  length pre <= length (pre ++ r) /\ skipn (length pre) (pre ++ r) = r.
Proof.
  split; [rewrite length_app; lia|].
  induction pre as [|x pre IH]; [reflexivity | exact IH].
Qed.

(** The episode pattern is found in a text exactly when the text holds the
    marker S<season>E<episode>. *)
Lemma sePattern_test (season episode : Z) (info : str) :
  test (sePattern season episode) info = true <->
  holdsEpisode season episode info.
Proof.
  rewrite test_spec. unfold holdsEpisode. split.
  - intros (n & Hn & H). apply sePattern_here in H
      as (a & ds & b & de & post & Hr & H).
    rewrite rest_pos_at in Hr. exists (firstn n info), a, ds, b, de, post.
    split; [|exact H]. rewrite <- Hr. symmetry. apply firstn_skipn.
  - intros (pre & a & ds & b & de & post & -> & H).
    destruct (split_at_prefix pre (a :: ds ++ b :: de ++ post)) as [Hn Hr].
    exists (length pre). split; [exact Hn|]. apply sePattern_here.
    exists a, ds, b, de, post. rewrite rest_pos_at. split; [exact Hr | exact H].
Qed.

(** The season-pack pattern is found in a text exactly when the text holds
    S<season> followed neither by a digit nor by E. *)
Lemma seasonPackPattern_test (season : Z) (info : str) :
  test (seasonPackPattern season) info = true <-> holdsSeasonPack season info.
Proof.
  rewrite test_spec. unfold holdsSeasonPack. split.
  - intros (n & Hn & H). apply seasonPackPattern_here in H
      as (a & ds & post & Hr & H).
    rewrite rest_pos_at in Hr. exists (firstn n info), a, ds, post.
    split; [|exact H]. rewrite <- Hr. symmetry. apply firstn_skipn.
  - intros (pre & a & ds & post & -> & H).
    destruct (split_at_prefix pre (a :: ds ++ post)) as [Hn Hr].
    exists (length pre). split; [exact Hn|]. apply seasonPackPattern_here.
    exists a, ds, post. rewrite rest_pos_at. split; [exact Hr | exact H].
Qed.

(** The episode test accepts a text exactly when it holds the requested
    episode marker or the requested season alone. *)
Lemma episodeInfoMatches_spec (season episode : Z) (info : str) :
  episodeInfoMatches season episode info = true <->
  holdsEpisode season episode info \/ holdsSeasonPack season info.
Proof.
  unfold episodeInfoMatches. rewrite orb_true_iff.
  now rewrite sePattern_test, seasonPackPattern_test.
Qed.

(** ** The comparator is an ordering, and the sort orders by it *)

Lemma join_upper (l : list str) :
  toUpperCase (join " " l) = join " " (map toUpperCase l).
Proof.
  induction l as [|x l IH]; [reflexivity|].
  destruct l as [|y l]; [reflexivity|].
  change (join " " (x :: y :: l)) with (x ++ S_ " " ++ join " " (y :: l)).
  rewrite !toUpperCase_app, IH. reflexivity.
Qed.

Lemma join_includes (sep : str) (l : list str) (x : str) :
  In x l -> includes (join sep l) x = true.
Proof.
  intros Hin. apply includes_spec. induction l as [|y l IH]; [contradiction|].
  destruct l as [|z l].
  - destruct Hin as [->|[]]. exists [], []. simpl. now rewrite app_nil_r.
  - change (join sep (y :: z :: l)) with (y ++ sep ++ join sep (z :: l)).
    destruct Hin as [->|Hin].
    + exists [], (sep ++ join sep (z :: l)). reflexivity.
    + destruct (IH Hin) as (pre & post & E). rewrite E.
      exists (y ++ sep ++ pre), post. now rewrite <- !app_assoc.
Qed.

(** A candidate that lists the preferred language also holds it in the
    joined text. *)
Lemma exact_language_is_held (config : AddonConfig) (s : StremioStream) :
  hasExactPrefLang config s = true -> hasPrefLang config s = true.
Proof.
  unfold hasExactPrefLang, hasPrefLang.
  destruct (languagesOf s) as [l|]; [|discriminate].
  intros H. apply arr_includes_In in H. rewrite join_upper.
  now apply join_includes.
Qed.

Lemma compareLanguage_class (config : AddonConfig) (a b : StremioStream) :
  compareLanguage config a b
  = Z.sgn (languageClass config a - languageClass config b).
Proof.
  unfold compareLanguage, languageClass.
  fold (hasExactPrefLang config a) (hasExactPrefLang config b)
       (hasPrefLang config a) (hasPrefLang config b).
  pose proof (exact_language_is_held config a) as Ha.
  pose proof (exact_language_is_held config b) as Hb.
  destruct (hasExactPrefLang config a), (hasExactPrefLang config b),
    (hasPrefLang config a), (hasPrefLang config b);
    try reflexivity;
    try (specialize (Ha eq_refl); discriminate Ha);
    try (specialize (Hb eq_refl); discriminate Hb).
Qed.

Lemma tiePosition_range (config : AddonConfig) (pm : ParsedMetadata) :
  (tiePosition config pm = -1
   \/ 0 <= tiePosition config pm < Z.of_nat (length (qualitySortOrder config)))%Z.
Proof.
  unfold tiePosition, indexOf.
  destruct (indexOf_from_range (qualitySortOrder config) (resolutionKey pm) 0%Z
              ltac:(lia)) as [[H _]|[H _]]; [now left | right; lia].
Qed.

Lemma compareQuality_key (config : AddonConfig) (a b : StremioStream) :
  hasMeta a -> hasMeta b ->
  Z.sgn (compareQuality config a b)
  = Z.sgn (qualityKey config a - qualityKey config b).
Proof.
  intros [pmA HA] [pmB HB].
  destruct (compareQuality_cases config a b pmA pmB HA HB)
    as (H1 & H2 & H3 & H4 & H5).
  unfold qualityKey. rewrite HA, HB.
  pose proof (tiePosition_range config pmA) as RA.
  pose proof (tiePosition_range config pmB) as RB.
  fold (tiePosition config pmA) in H2, H3, H4, H5.
  fold (tiePosition config pmB) in H2, H3, H4, H5.
  set (n := Z.of_nat (length (qualitySortOrder config))) in *.
  set (iA := tiePosition config pmA) in *.
  set (iB := tiePosition config pmB) in *.
  set (ra := rank_value (rankOfStream a)) in *.
  set (rb := rank_value (rankOfStream b)) in *.
  assert (Hn : (0 <= n)%Z) by (unfold n; lia).
  clearbody n iA iB ra rb.
  destruct (Z.eq_dec (rb - ra) 0) as [E|E].
  - assert (ra = rb) by lia. subst rb.
    destruct (Z.eqb_spec iA (-1)) as [EA|EA], (Z.eqb_spec iB (-1)) as [EB|EB].
    + rewrite (H5 E EA EB). f_equal. lia.
    + rewrite (H4 E EA EB).
      replace (- ra * (n + 1) + n - (- ra * (n + 1) + iB))%Z with (n - iB)%Z
        by lia.
      symmetry. apply Z.sgn_pos. lia.
    + rewrite (H3 E EA EB).
      replace (- ra * (n + 1) + iA - (- ra * (n + 1) + n))%Z with (iA - n)%Z
        by lia.
      symmetry. apply Z.sgn_neg. lia.
    + rewrite (H2 E EA EB). f_equal. lia.
  - rewrite (H1 E).
    assert (Hb : (0 <= (if (iA =? -1)%Z then n else iA) <= n
                  /\ 0 <= (if (iB =? -1)%Z then n else iB) <= n)%Z).
    { destruct (Z.eqb_spec iA (-1)), (Z.eqb_spec iB (-1)); lia. }
    destruct Hb as [HbA HbB].
    set (xA := if (iA =? -1)%Z then n else iA) in *.
    set (xB := if (iB =? -1)%Z then n else iB) in *. clearbody xA xB.
    destruct (Z.lt_trichotomy rb ra) as [L|[L|L]]; [|lia|].
    + rewrite (Z.sgn_neg (rb - ra)) by lia. symmetry. apply Z.sgn_neg. nia.
    + rewrite (Z.sgn_pos (rb - ra)) by lia. symmetry. apply Z.sgn_pos. nia.
Qed.

Lemma Qlt_inject_Z_sgn (c k : Z) :
  Z.sgn c = Z.sgn k ->
  ((inject_Z c < 0)%Q <-> (k < 0)%Z) /\ ((inject_Z c == 0)%Q <-> k = 0%Z).
Proof.
  intros H. change 0%Q with (inject_Z 0). split.
  - rewrite <- (Zlt_Qlt c 0). rewrite <- (Z.sgn_neg_iff c), H.
    apply Z.sgn_neg_iff.
  - rewrite inject_Z_injective.
    rewrite <- (Z.sgn_null_iff c), H. apply Z.sgn_null_iff.
Qed.

(** Each key of the comparator orders two candidates as their numbers are
    ordered. *)
Lemma compareBy_key (config : AddonConfig) (preference : SortPreference)
    (a b : StremioStream) :
  hasMeta a -> hasMeta b ->
  ((compareBy config preference a b < 0)%Q
   <-> (sortKey config preference a < sortKey config preference b)%Q)
  /\ ((compareBy config preference a b == 0)%Q
      <-> (sortKey config preference a == sortKey config preference b)%Q).
Proof.
  intros Ha Hb. destruct preference; cbn [compareBy sortKey].
  - destruct (Qlt_inject_Z_sgn (seedersOf b - seedersOf a)
                (- seedersOf a - - seedersOf b) ltac:(f_equal; lia)) as [H1 H2].
    rewrite H1, H2, <- Zlt_Qlt, inject_Z_injective. split; lia.
  - rewrite compareLanguage_class.
    destruct (Qlt_inject_Z_sgn
                (Z.sgn (languageClass config a - languageClass config b))
                (languageClass config a - languageClass config b)
                (Z.sgn_sgn _)) as [H1 H2].
    rewrite H1, H2, <- Zlt_Qlt, inject_Z_injective. split; lia.
  - destruct (Qlt_inject_Z_sgn _ _ (compareQuality_key config a b Ha Hb))
      as [H1 H2].
    rewrite H1, H2, <- Zlt_Qlt, inject_Z_injective. split; lia.
  - split; split; intros H; lra.
Qed.

Lemma compareWith_cons (config : AddonConfig) (preference : SortPreference)
    (prefs : list SortPreference) (a b : StremioStream) :
  hasMeta a -> hasMeta b ->
  (compareWith config (preference :: prefs) a b <= 0)%Q <->
  (sortKey config preference a < sortKey config preference b)%Q
  \/ ((sortKey config preference a == sortKey config preference b)%Q
      /\ (compareWith config prefs a b <= 0)%Q).
Proof.
  intros Ha Hb. destruct (compareBy_key config preference a b Ha Hb) as [H1 H2].
  cbn [compareWith].
  destruct (Qeq_bool (compareBy config preference a b) 0) eqn:E; cbn [negb].
  - apply Qeq_bool_iff in E. apply H2 in E as E'. split.
    + intros H. right. split; assumption.
    + intros [H|[_ H]]; [lra | exact H].
  - apply Qeq_bool_neq in E. split.
    + intros H. left. apply H1. lra.
    + intros [H|[H _]]; [apply H1 in H; lra | apply H2 in H; contradiction].
Qed.

Lemma compareWith_total (config : AddonConfig) (prefs : list SortPreference)
    (a b : StremioStream) :
  hasMeta a -> hasMeta b ->
  (compareWith config prefs a b <= 0)%Q \/ (compareWith config prefs b a <= 0)%Q.
Proof.
  intros Ha Hb. induction prefs as [|p prefs IH].
  - left. cbn. lra.
  - rewrite (compareWith_cons config p prefs a b Ha Hb).
    rewrite (compareWith_cons config p prefs b a Hb Ha).
    destruct (Q_dec (sortKey config p a) (sortKey config p b)) as [[L|L]|E].
    + left. now left.
    + right. now left.
    + destruct IH as [H|H]; [left | right]; right; split;
        try assumption; lra.
Qed.

Lemma compareWith_trans (config : AddonConfig) (prefs : list SortPreference)
    (a b c : StremioStream) :
  hasMeta a -> hasMeta b -> hasMeta c ->
  (compareWith config prefs a b <= 0)%Q ->
  (compareWith config prefs b c <= 0)%Q ->
  (compareWith config prefs a c <= 0)%Q.
Proof.
  intros Ha Hb Hc. induction prefs as [|p prefs IH].
  - intros _ _. cbn. lra.
  - rewrite (compareWith_cons config p prefs a b Ha Hb).
    rewrite (compareWith_cons config p prefs b c Hb Hc).
    rewrite (compareWith_cons config p prefs a c Ha Hc).
    intros [H1|[H1 H1']] [H2|[H2 H2']].
    + left. lra.
    + left. lra.
    + left. lra.
    + right. split; [lra | now apply IH].
Qed.

Lemma notAfter_total (config : AddonConfig) (a b : StremioStream) :
  hasMeta a -> hasMeta b -> notAfter config a b \/ notAfter config b a.
Proof. apply compareWith_total. Qed.

Lemma notAfter_trans (config : AddonConfig) (a b c : StremioStream) :
  hasMeta a -> hasMeta b -> hasMeta c ->
  notAfter config a b -> notAfter config b c -> notAfter config a c.
Proof. apply compareWith_trans. Qed.

Lemma insertStream_ordered (config : AddonConfig) (x : StremioStream)
    (l : list StremioStream) :
  hasMeta x -> Forall hasMeta l ->
  StronglySorted (notAfter config) l ->
  StronglySorted (notAfter config) (insertStream config x l).
Proof.
  intros Hx Hl Hs. induction Hs as [|y l Hs IH Hy]; simpl.
  - constructor; constructor.
  - inversion Hl as [|? ? Hmy Hml]; subst.
    destruct (Qle_bool (compareStreams config x y) 0) eqn:E.
    + apply Qle_bool_iff in E. constructor; [now constructor|].
      constructor; [exact E|].
      rewrite Forall_forall in Hy, Hml |- *. intros z Hz.
      apply (notAfter_trans config x y z); auto.
    + assert (Hyx : notAfter config y x).
      { destruct (notAfter_total config x y Hx Hmy) as [H|H]; [|exact H].
        apply Qle_bool_iff in H. unfold notAfter in *. congruence. }
      constructor; [now apply IH|].
      rewrite Forall_forall in Hy |- *. intros z Hz.
      apply (Permutation_in _ (Permutation_sym (insertStream_perm config x l)))
        in Hz.
      destruct Hz as [<-|Hz]; [exact Hyx | now apply Hy].
Qed.

Lemma sortStreams_ordered (config : AddonConfig) (l : list StremioStream) :
  Forall hasMeta l -> StronglySorted (notAfter config) (sortStreams config l).
Proof.
  intros Hl. induction Hl as [|x l Hx Hl IH]; simpl; [constructor|].
  apply insertStream_ordered; try assumption.
  rewrite Forall_forall in Hl |- *. intros z Hz. apply Hl.
  now apply (Permutation_in _ (Permutation_sym (sortStreams_perm config l))).
Qed.

(** X: the comparator is antisymmetric. *)
Lemma compareQuality_opp (config : AddonConfig) (a b : StremioStream) :
  compareQuality config b a = (- compareQuality config a b)%Z.
Proof.
  unfold compareQuality.
  set (d := (rank_value (getQualityRank (s_parsedMeta b))
             - rank_value (getQualityRank (s_parsedMeta a)))%Z).
  replace (rank_value (getQualityRank (s_parsedMeta a))
           - rank_value (getQualityRank (s_parsedMeta b)))%Z with (- d)%Z
    by (unfold d; lia).
  clearbody d.
  destruct (s_parsedMeta a) as [pmA|], (s_parsedMeta b) as [pmB|];
    try reflexivity.
  set (iA := indexOf (qualitySortOrder config) (resolutionKey pmA)).
  set (iB := indexOf (qualitySortOrder config) (resolutionKey pmB)).
  clearbody iA iB.
  destruct (Z.eqb_spec d 0), (Z.eqb_spec (- d) 0); try lia.
  destruct (Z.eqb_spec iA (-1)), (Z.eqb_spec iB (-1)); simpl; lia.
Qed.

Lemma compareBy_opp (config : AddonConfig) (preference : SortPreference)
    (a b : StremioStream) :
  (compareBy config preference b a == - compareBy config preference a b)%Q.
Proof.
  destruct preference; cbn [compareBy].
  - rewrite <- inject_Z_opp. apply inject_Z_injective. lia.
  - rewrite <- inject_Z_opp. apply inject_Z_injective.
    rewrite !compareLanguage_class, <- Z.sgn_opp. f_equal. lia.
  - rewrite <- inject_Z_opp. apply inject_Z_injective.
    apply compareQuality_opp.
  - lra.
Qed.

(** The comparator is antisymmetric: swapping its arguments negates the
    result, whatever the configuration and the candidates. *)
Theorem compareStreams_antisymmetric (config : AddonConfig)
    (a b : StremioStream) :
  (compareStreams config b a == - compareStreams config a b)%Q.
Proof.
  unfold compareStreams. induction (sortPreference config) as [|p prefs IH].
  - cbn. lra.
  - cbn [compareWith]. pose proof (compareBy_opp config p a b) as H.
    destruct (Qeq_bool (compareBy config p a b) 0) eqn:E1,
             (Qeq_bool (compareBy config p b a) 0) eqn:E2; cbn [negb].
    + exact IH.
    + apply Qeq_bool_iff in E1. apply Qeq_bool_neq in E2. lra.
    + apply Qeq_bool_iff in E2. apply Qeq_bool_neq in E1. lra.
    + exact H.
Qed.

(** ** The candidates of a request *)

Section Pipeline.

Variable currentYear : Z.
Variable type : StremioItemType.
Variables season episode : option Z.
Variable standardizedTitle : str.
Variable standardizedYear : option Z.
Variable config : AddonConfig.

Local Abbreviation toStream' :=
  (toStream currentYear type season episode standardizedTitle standardizedYear).
Local Abbreviation parsedStreams' :=
  (parsedStreams currentYear type season episode standardizedTitle
                 standardizedYear).
Local Abbreviation selectStreams' :=
  (selectStreams currentYear type season episode standardizedTitle
                 standardizedYear config).

Lemma toStream_shape (t : BitmagnetTorrent) (s : StremioStream) :
  toStream' t = Some s ->
  hasMeta s /\ s_infoHash s = Some (t_infoHash t).
Proof.
  unfold toStream.
  destruct (rejectedByEpisode _ _ _ _); [discriminate|].
  intros H. injection H as <-. split; [eexists|]; reflexivity.
Qed.

Lemma parsedStreams_In (l : list BitmagnetTorrent) (s : StremioStream) :
  In s (parsedStreams' l) <-> exists t, In t l /\ toStream' t = Some s.
Proof.
  unfold parsedStreams. rewrite in_flat_map. split.
  - intros (t & Hin & H). exists t. split; [assumption|].
    destruct (toStream' t) as [s'|]; [|contradiction].
    destruct H as [->|[]]. reflexivity.
  - intros (t & Hin & H). exists t. split; [assumption|]. rewrite H. now left.
Qed.

Lemma parsedStreams_hasMeta (l : list BitmagnetTorrent) :
  Forall hasMeta (parsedStreams' l).
Proof.
  apply Forall_forall. intros s H. apply parsedStreams_In in H as (t & _ & H).
  now apply toStream_shape in H.
Qed.

Lemma parsedStreams_NoDup (l : list BitmagnetTorrent) :
  NoDup (map t_infoHash l) -> NoDup (map s_infoHash (parsedStreams' l)).
Proof.
  induction l as [|t l IH]; simpl; intros Hnd; [constructor|].
  inversion Hnd as [|? ? Hnotin Hnd']; subst.
  unfold parsedStreams. cbn [flat_map]. fold (parsedStreams' l).
  destruct (toStream' t) as [s|] eqn:E; [|now apply IH].
  cbn [app map]. constructor; [|now apply IH].
  intros Hin. apply in_map_iff in Hin as (s' & Hs' & Hin).
  apply parsedStreams_In in Hin as (t' & Hin' & E').
  apply toStream_shape in E as [_ E]. apply toStream_shape in E' as [_ E'].
  apply Hnotin. apply in_map_iff. exists t'. split; [congruence | assumption].
Qed.

Lemma filter_keeps_distinct {T K : Type} (key : T -> K) (keep : T -> bool) :
  forall streams : list T,
    NoDup (map key streams) -> NoDup (map key (filter keep streams)).
Proof.
  intros streams. induction streams as [|x l IH]; simpl; intros H.
  - constructor.
  - inversion H as [|? ? Hnotin Hnd]; subst.
    destruct (keep x); [|now apply IH]. simpl. constructor; [|now apply IH].
    intros Hin. apply Hnotin. apply in_map_iff in Hin as (y & E & Hin).
    apply filter_In in Hin as [Hin _]. apply in_map_iff. now exists y.
Qed.

Lemma minSeedersFilter_filter (l : list StremioStream) :
  exists p, minSeedersFilter config l = filter p l.
Proof.
  unfold minSeedersFilter. destruct (0 <? minSeeders config)%Z.
  - eexists. reflexivity.
  - exists (fun _ => true). symmetry. apply forallb_filter_id.
    now apply forallb_forall.
Qed.

Lemma lowQualityFilter_filter (l : list StremioStream) :
  exists p, lowQualityFilter config l = filter p l.
Proof.
  unfold lowQualityFilter.
  destruct (filterLowQuality config && negb (length l =? 0));
    [destruct (hasHighQuality l)|];
    try (eexists; reflexivity);
    exists (fun _ => true); symmetry; apply forallb_filter_id;
    now apply forallb_forall.
Qed.

(** The candidates that reach the sort. *)
Lemma filtered_In (l : list StremioStream) (s : StremioStream) :
  In s (lowQualityFilter config (minSeedersFilter config l)) ->
  In s (minSeedersFilter config l) /\ In s l.
Proof.
  destruct (lowQualityFilter_filter (minSeedersFilter config l)) as [p ->].
  destruct (minSeedersFilter_filter l) as [q E]. rewrite E.
  intros H. apply filter_In in H as [H _]. split; [exact H|].
  now apply filter_In in H as [H _].
Qed.

Lemma selectStreams_In (rawResults : list BitmagnetTorrent) (s : StremioStream) :
  In s (selectStreams' rawResults) ->
  In s (minSeedersFilter config (parsedStreams' (uniqueResults rawResults)))
  /\ In s (parsedStreams' (uniqueResults rawResults)).
Proof.
  unfold selectStreams. intros H.
  apply (Permutation_in _ (Permutation_sym (sortStreams_perm config _))) in H.
  now apply filtered_In.
Qed.

(** The list handed to the formatter is ordered by the comparator, for every
    configuration, and holds exactly the candidates that passed the
    filters. *)
Theorem selectStreams_ordered (rawResults : list BitmagnetTorrent) :
  StronglySorted (notAfter config) (selectStreams' rawResults)
  /\ Permutation
       (lowQualityFilter config
          (minSeedersFilter config (parsedStreams' (uniqueResults rawResults))))
       (selectStreams' rawResults).
Proof.
  split; [|apply sortStreams_perm].
  apply sortStreams_ordered. apply Forall_forall. intros s H.
  apply filtered_In in H as [_ H].
  pose proof (parsedStreams_hasMeta (uniqueResults rawResults)) as Hm.
  rewrite Forall_forall in Hm. now apply Hm.
Qed.

(** No infoHash occurs twice in the list handed to the formatter, and every
    one of its candidates carries the infoHash of a record of the input. *)
Theorem selectStreams_distinct_hashes (rawResults : list BitmagnetTorrent) :
  NoDup (map s_infoHash (selectStreams' rawResults))
  /\ forall s, In s (selectStreams' rawResults) ->
       exists t, In t rawResults /\ s_infoHash s = Some (t_infoHash t).
Proof.
  split.
  - unfold selectStreams.
    apply (Permutation_NoDup (Permutation_map s_infoHash
                                (sortStreams_perm config _))).
    destruct (lowQualityFilter_filter
                (minSeedersFilter config
                   (parsedStreams' (uniqueResults rawResults)))) as [p ->].
    destruct (minSeedersFilter_filter
                (parsedStreams' (uniqueResults rawResults))) as [q ->].
    do 2 apply filter_keeps_distinct. apply parsedStreams_NoDup.
    destruct (uniqueResults_keys rawResults) as [H1 H2].
    rewrite <- H1, H2. apply uniq_acc_NoDup.
  - intros s H. apply selectStreams_In in H as [_ H].
    apply parsedStreams_In in H as (u & Hu & E).
    apply toStream_shape in E as [_ E].
    unfold uniqueResults, Map_values in Hu. fold (entries rawResults) in Hu.
    apply in_map_iff in Hu as ([k u'] & Eu & Hin). simpl in Eu. subst u'.
    assert (HF : Forall (fun kv => In (snd kv) rawResults)
                        (Map_of (entries rawResults))).
    { apply Map_of_Forall. apply Forall_forall. intros kv Hkv.
      unfold entries in Hkv. apply in_map_iff in Hkv as (t & <- & Ht).
      exact Ht. }
    rewrite Forall_forall in HF. specialize (HF _ Hin). simpl in HF.
    now exists u.
Qed.

(** With a positive [minSeeders] every candidate handed to the formatter has
    at least that many seeders; with [minSeeders] zero or negative the filter
    removes nothing. *)
Theorem selectStreams_minSeeders (rawResults : list BitmagnetTorrent) :
  ((0 < minSeeders config)%Z ->
   forall s, In s (selectStreams' rawResults) ->
     (minSeeders config <= seedersOf s)%Z)
  /\ ((minSeeders config <= 0)%Z ->
      forall l, minSeedersFilter config l = l).
Proof.
  split.
  - intros Hpos s H. apply selectStreams_In in H as [H _].
    unfold minSeedersFilter in H. apply Z.ltb_lt in Hpos. rewrite Hpos in H.
    apply filter_In in H as [_ H]. now apply Z.leb_le.
  - intros Hle l. unfold minSeedersFilter.
    destruct (Z.ltb_spec 0 (minSeeders config)); [lia | reflexivity].
Qed.

End Pipeline.

(** ** More on the quality classifier *)

Lemma rankOf_not_low (key : str) (r : VideoQualityRank) :
  rankOf key = Some r -> r <> LOW_QUALITY.
Proof.
  unfold rankOf. destruct (lookup QUALITY_RANK_MAP key) as [r'|]; [|discriminate].
  destruct (Z.eqb_spec (rank_value r') 0) as [E|E]; [discriminate|].
  intros H. injection H as <-. intros ->. now apply E.
Qed.

Lemma first_some_not_low (a b : option VideoQualityRank) (r : VideoQualityRank) :
  (forall x, a = Some x -> x <> LOW_QUALITY) ->
  (forall x, b = Some x -> x <> LOW_QUALITY) ->
  first_some a b = Some r -> r <> LOW_QUALITY.
Proof. destruct a; simpl; intros Ha Hb H; [now apply Ha | now apply Hb]. Qed.

(** The classifier answers LOW_QUALITY exactly when the source holds one of
    the low-quality terms: the entries of the table that stand for
    LOW_QUALITY are never returned by the table lookups, whose guard takes
    the number 0 for a missing entry. *)
Theorem getQualityRank_low_quality (parsedMeta : ParsedMetadata) :
  getQualityRank (Some parsedMeta) = LOW_QUALITY <->
  exists source,
    qualitySource parsedMeta = Some source
    /\ hasLowQualityTerm (toUpperCase source) = true.
Proof.
  split.
  - unfold getQualityRank.
    destruct (qualitySource parsedMeta) as [source|] eqn:Es; simpl option_map.
    + destruct (truthy_str (Some (toUpperCase source))
                && hasLowQualityTerm (text (Some (toUpperCase source)))) eqn:E.
      * intros _. exists source. split; [reflexivity|].
        now apply andb_true_iff in E as [_ E].
      * destruct (truthy_str (option_map toUpperCase (resolution parsedMeta))
                  && isLowQualityResolution _).
        { match goal with
          | |- (if ?c then DVD else SD) = _ -> _ => destruct c
          end; intros H; discriminate H. }
        match goal with
        | |- match ?x with Some r => r | None => UNKNOWN end = _ -> _ =>
            destruct x as [r|] eqn:F; [|intros H; discriminate H]
        end.
        intros Hr. exfalso. revert Hr. change (r <> LOW_QUALITY). revert F.
        repeat match goal with
               | |- context [if ?c then _ else _] => destruct c
               end;
          intros F;
          (eapply first_some_not_low; [| |exact F]);
          intros x Hx;
          try discriminate Hx;
          try (now apply rankOf_not_low in Hx);
          (eapply first_some_not_low; [| |exact Hx]);
          intros y Hy; try discriminate Hy; now apply rankOf_not_low in Hy.
    + simpl. destruct (truthy_str (option_map toUpperCase (resolution parsedMeta))
                       && isLowQualityResolution _); [intros H; discriminate H|].
      match goal with
      | |- match ?x with Some r => r | None => UNKNOWN end = _ -> _ =>
          destruct x as [r|] eqn:F; [|intros H; discriminate H]
      end.
      intros Hr. exfalso. revert Hr. change (r <> LOW_QUALITY). revert F.
      destruct (truthy_str (option_map toUpperCase (resolution parsedMeta)));
        simpl; intros F; [|discriminate].
      now apply rankOf_not_low in F.
  - intros (source & Es & H). apply getQualityRank_marker. rewrite Es. simpl.
    destruct source as [|c source]; [discriminate H|]. exact H.
Qed.

Lemma truthy_upper (res : str) (l : list str) :
  In (toUpperCase res) l -> ~ In [] l ->
  truthy_str (Some (toUpperCase res)) = true.
Proof.
  intros Hin Hn. destruct res as [|c res]; [contradiction | reflexivity].
Qed.

(** A candidate whose resolution is one of the low-quality resolutions
    (480P, 360P, SD, in any letter case) is ranked LOW_QUALITY, DVD or SD,
    whatever its source: DVD when the source holds DVD, BDRIP or BRRIP and
    no low-quality term, SD when it holds none of these. *)
Theorem getQualityRank_low_resolution (parsedMeta : ParsedMetadata)
    (res : str) :
  resolution parsedMeta = Some res ->
  In (toUpperCase res) (map S_ LOW_QUALITY_RESOLUTIONS) ->
  let source := toUpperCase (text (qualitySource parsedMeta)) in
  getQualityRank (Some parsedMeta) =
  if hasLowQualityTerm source then LOW_QUALITY
  else if includes source "DVD" || includes source "BDRIP"
          || includes source "BRRIP"
       then DVD else SD.
Proof.
  intros Hres Hin source. unfold getQualityRank. rewrite Hres.
  simpl option_map.
  assert (Ht : truthy_str (Some (toUpperCase res)) = true).
  { apply (truthy_upper res _ Hin). simpl. intuition discriminate. }
  apply arr_includes_In in Hin. fold (isLowQualityResolution (toUpperCase res)) in Hin.
  change (text (Some (toUpperCase res))) with (toUpperCase res).
  rewrite Ht, Hin. simpl andb.
  unfold source. destruct (qualitySource parsedMeta) as [[|c s]|]; try reflexivity.
Qed.

Lemma getQualityRank_low_resolution_witness :
  getQualityRank
    (Some (mkMeta "Movie.480p.DVDRip" None None (Some ("480p" : str))
                  (Some ("DVDRip" : str)) None None None None None None None
                  None None None)) = DVD.
Proof.
  exact (getQualityRank_low_resolution
           (mkMeta "Movie.480p.DVDRip" None None (Some ("480p" : str))
                   (Some ("DVDRip" : str)) None None None None None None None
                   None None None)
           ("480p" : str) eq_refl (or_introl eq_refl)).
Defined.

(** A candidate that has a resolution the title pattern can capture but no
    source is ranked SD for 576p, 480p, 360p and SD, and UNKNOWN for 720p,
    1080p, 2160p and 4K: the table has no entry for these resolutions
    alone. *)
Theorem getQualityRank_without_source (parsedMeta : ParsedMetadata)
    (res : str) (w : string) :
  qualitySource parsedMeta = None ->
  resolution parsedMeta = Some res ->
  same_ci res (S_ w) ->
  (In w ["576p"; "480p"; "360p"; "SD"] ->
   getQualityRank (Some parsedMeta) = SD)
  /\ (In w ["4K"; "2160p"; "1080p"; "720p"] ->
      getQualityRank (Some parsedMeta) = UNKNOWN).
Proof.
  intros Hs Hr Hci. unfold getQualityRank. rewrite Hs, Hr. simpl option_map.
  unfold same_ci in Hci. rewrite Hci.
  split; intros Hin; simpl in Hin;
    repeat (destruct Hin as [<-|Hin]; [reflexivity|]); contradiction.
Qed.

Lemma getQualityRank_without_source_witness :
  getQualityRank
    (Some (mkMeta "Movie.1080p" None None (Some ("1080P" : str)) None None
                  None None None None None None None None None)) = UNKNOWN.
Proof.
  exact (proj2 (getQualityRank_without_source
                  (mkMeta "Movie.1080p" None None (Some ("1080P" : str)) None
                          None None None None None None None None None None)
                  ("1080P" : str) "1080p" eq_refl eq_refl eq_refl)
               (or_intror (or_intror (or_introl eq_refl)))).
Defined.

(** ** The low-quality elimination keeps what it is looking for *)

Lemma keepsQuality_high (s : StremioStream) :
  rank_le HDTV_720P (rankOfStream s) -> keepsQuality s = true.
Proof.
  intros Hr. unfold rank_le in Hr. unfold keepsQuality.
  fold (rankOfStream s).
  assert (H1 : rank_eqb (rankOfStream s) LOW_QUALITY
               || rank_eqb (rankOfStream s) UNKNOWN = false).
  { unfold rank_eqb. simpl in *.
    destruct (Z.eqb_spec (rank_value (rankOfStream s)) 0),
             (Z.eqb_spec (rank_value (rankOfStream s)) (-1)); simpl; lia. }
  rewrite H1. rewrite lowQualityTerms_upper.
  destruct (s_parsedMeta s) as [pm|] eqn:Em.
  - destruct (truthy_str (option_map toUpperCase (qualitySource pm))
              && hasLowQualityTerm (text (option_map toUpperCase
                                            (qualitySource pm)))) eqn:E.
    + apply getQualityRank_marker in E. unfold rankOfStream in Hr.
      rewrite Em, E in Hr. simpl in Hr. lia.
    + destruct (truthy_str (option_map toUpperCase (resolution pm))
                && isLowQualityResolution
                     (text (option_map toUpperCase (resolution pm)))) eqn:F;
        [|reflexivity].
      simpl andb.
      assert (Hd : rank_ltb (rankOfStream s) DVD = false); [|now rewrite Hd].
      unfold rankOfStream, getQualityRank. rewrite Em, E, F.
      match goal with |- context [if ?c then DVD else SD] => destruct c eqn:G end;
        [reflexivity|].
      exfalso. unfold rankOfStream, getQualityRank in Hr.
      rewrite Em, E, F, G in Hr. simpl in Hr. lia.
  - reflexivity.
Qed.

Lemma filter_twice {A : Type} (p : A -> bool) (l : list A) :
  filter p (filter p l) = filter p l.
Proof.
  induction l as [|x l IH]; simpl; [reflexivity|].
  destruct (p x) eqn:E; simpl; [rewrite E; f_equal|]; exact IH.
Qed.

(** The low-quality elimination never removes every candidate, and applying
    it to its own result changes nothing. *)
Theorem lowQualityFilter_stable (config : AddonConfig)
    (streams : list StremioStream) :
  (lowQualityFilter config streams = [] <-> streams = [])
  /\ lowQualityFilter config (lowQualityFilter config streams)
     = lowQualityFilter config streams.
Proof.
  assert (Hkeep : hasHighQuality streams = true ->
                  hasHighQuality (filter (keepsQuality) streams) = true).
  { intros H. apply hasHighQuality_spec in H as (s & Hin & Hr).
    apply hasHighQuality_spec. exists s. split; [|exact Hr].
    apply filter_In. split; [exact Hin | now apply keepsQuality_high]. }
  split.
  - split; [|intros ->; unfold lowQualityFilter; now destruct (filterLowQuality config)].
    unfold lowQualityFilter.
    destruct (filterLowQuality config && negb (length streams =? 0));
      [|tauto].
    destruct (hasHighQuality streams) eqn:E; [|tauto].
    specialize (Hkeep eq_refl). intros H. rewrite H in Hkeep.
    discriminate Hkeep.
  - unfold lowQualityFilter at 2 3.
    destruct (filterLowQuality config) eqn:Ef; simpl andb;
      [|unfold lowQualityFilter; now rewrite Ef].
    destruct (negb (length streams =? 0)) eqn:En;
      [|unfold lowQualityFilter; now rewrite Ef, En].
    destruct (hasHighQuality streams) eqn:E;
      [|unfold lowQualityFilter; now rewrite Ef, En, E].
    specialize (Hkeep eq_refl). unfold lowQualityFilter. rewrite Ef, Hkeep.
    simpl andb.
    destruct (filter keepsQuality streams) as [|x l] eqn:F;
      [discriminate Hkeep|].
    simpl negb. rewrite <- F. apply filter_twice.
Qed.

(** ** De-duplication and sorting as normal forms *)

Lemma Map_set_fresh {V : Type} (k : str) (v : V) (m : list (str * V)) :
  ~ In k (map fst m) -> Map_set k v m = m ++ [(k, v)].
Proof.
  induction m as [|[k' v'] m IH]; simpl; intros H; [reflexivity|].
  destruct (str_eqb k' k) eqn:E.
  - apply str_eqb_eq in E. tauto.
  - f_equal. apply IH. tauto.
Qed.

Lemma Map_of_distinct {V : Type} (es : list (str * V)) : forall m,
  NoDup (map fst (m ++ es)) ->
  fold_left (fun m kv => Map_set (fst kv) (snd kv) m) es m = m ++ es.
Proof.
  induction es as [|[k v] es IH]; intros m H; simpl.
  - now rewrite app_nil_r.
  - rewrite Map_set_fresh.
    + rewrite IH; rewrite <- app_assoc; [reflexivity | exact H].
    + rewrite map_app in H. apply NoDup_remove_2 in H.
      intros Hin. apply H. apply in_or_app. now left.
Qed.

(** De-duplication returns a list whose infoHashes are already distinct
    unchanged; applying it to its own result therefore changes nothing. *)
Theorem uniqueResults_idempotent (rawResults : list BitmagnetTorrent) :
  (NoDup (map t_infoHash rawResults) -> uniqueResults rawResults = rawResults)
  /\ uniqueResults (uniqueResults rawResults) = uniqueResults rawResults.
Proof.
  assert (H : forall l, NoDup (map t_infoHash l) -> uniqueResults l = l).
  { intros l Hnd. unfold uniqueResults, Map_of, Map_values.
    rewrite Map_of_distinct.
    - simpl. rewrite map_map. simpl. apply map_id.
    - simpl. rewrite map_map. exact Hnd. }
  split; [apply H|]. apply H.
  destruct (uniqueResults_keys rawResults) as [H1 H2].
  rewrite <- H1, H2. apply uniq_acc_NoDup.
Qed.

Lemma insertStream_head (config : AddonConfig) (x : StremioStream)
    (l : list StremioStream) :
  Forall (notAfter config x) l -> insertStream config x l = x :: l.
Proof.
  intros H. destruct l as [|y l]; [reflexivity|].
  inversion H as [|? ? Hy _]; subst. simpl.
  apply Qle_bool_iff in Hy. now rewrite Hy.
Qed.

(** The sort leaves a list that is already ordered by the comparator as it
    is. *)
Theorem sortStreams_ordered_fixed (config : AddonConfig)
    (streams : list StremioStream) :
  StronglySorted (notAfter config) streams ->
  sortStreams config streams = streams.
Proof.
  induction 1 as [|x l Hs IH Hx]; [reflexivity|].
  simpl. rewrite IH. now apply insertStream_head.
Qed.

Lemma sortStreams_ordered_fixed_witness :
  sortStreams defaultConfig
    [mkStream (Some ("a" : str)) None (Some 9%Z) None;
     mkStream (Some ("b" : str)) None (Some 4%Z) None]
  = [mkStream (Some ("a" : str)) None (Some 9%Z) None;
     mkStream (Some ("b" : str)) None (Some 4%Z) None].
Proof.
  apply (sortStreams_ordered_fixed defaultConfig
           [mkStream (Some ("a" : str)) None (Some 9%Z) None;
            mkStream (Some ("b" : str)) None (Some 4%Z) None]).
  repeat constructor. unfold notAfter. vm_compute. discriminate.
Defined.

(** A request that is not for an episode (another type than series, or no
    season, or no episode, the number 0 counting as none) loses no candidate
    to the episode test: one candidate per de-duplicated record, in the
    order of the records. *)
Theorem parsedStreams_without_episode (currentYear : Z)
    (type : StremioItemType) (season episode : option Z)
    (standardizedTitle : str) (standardizedYear : option Z)
    (unique : list BitmagnetTorrent) :
  is_series type && truthy_Z season && truthy_Z episode = false ->
  map s_infoHash
      (parsedStreams currentYear type season episode standardizedTitle
                     standardizedYear unique)
  = map (fun torrent => Some (t_infoHash torrent)) unique.
Proof.
  intros H. unfold parsedStreams.
  induction unique as [|t l IH]; [reflexivity|].
  cbn [flat_map map]. rewrite map_app, IH. unfold toStream at 1.
  unfold rejectedByEpisode. rewrite H. reflexivity.
Qed.

Lemma parsedStreams_without_episode_witness :
  map s_infoHash
      (parsedStreams 2026%Z movie None None "Show Name" None
         [bareTorrent "h1" "Show.Name.S01E02.720p.WEB-DL.AAC";
          bareTorrent "h2" "Show.Name.2019.1080p.BluRay.x264"])
  = [Some ("h1" : str); Some ("h2" : str)].
Proof.
  exact (parsedStreams_without_episode 2026%Z movie None None "Show Name" None
           [bareTorrent "h1" "Show.Name.S01E02.720p.WEB-DL.AAC";
            bareTorrent "h2" "Show.Name.2019.1080p.BluRay.x264"] eq_refl).
Defined.

(** ** What the matcher finds is accepted by the pattern *)

Lemma star_loop_accepts (ic : bool) (r : regex) (k : cont) (x : pos * caps)
    (IH : forall p c k x,
        rmatch ic r p c k = Some x ->
        exists p' c', accepts ic r p c p' c' /\ k p' c' = Some x) :
  forall n p c,
    star_loop (rmatch ic r) k n p c = Some x ->
    exists p' c', iterated (accepts ic r) p c p' c' /\ k p' c' = Some x.
Proof.
  induction n as [|n IHn]; intros p c H; simpl in H.
  - exists p, c. split; [constructor | exact H].
  - destruct (rmatch ic r p c _) as [y|] eqn:E.
    + injection H as ->. apply IH in E as (q & d & Hacc & Hk).
      destruct (Nat.ltb_spec (length (rest q)) (length (rest p))) as [Hlt|];
        [|discriminate Hk].
      apply IHn in Hk as (p' & c' & Hit & Hk). exists p', c'.
      split; [|exact Hk]. eapply iterated_round; eassumption.
    + exists p, c. split; [constructor | exact H].
Qed.

(** Soundness of the matcher: a result comes from a reading the pattern
    accepts, followed by the rest of the pattern. *)
Lemma rmatch_accepts (ic : bool) (r : regex) : forall p c k x,
  rmatch ic r p c k = Some x ->
  exists p' c', accepts ic r p c p' c' /\ k p' c' = Some x.
Proof.
  induction r as [|cs|r1 IH1 r2 IH2|r1 IH1 r2 IH2|r1 IH1|i r1 IH1| | | |r1 IH1|cs];
    intros p c k x H; cbn [rmatch] in H; cbn [accepts].
  - exists p, c. auto.
  - destruct (rest p) as [|a tl] eqn:Er; [discriminate|].
    destruct (in_cset ic cs a) eqn:Ea; [|discriminate].
    exists (Pos (Some a) tl), c. split; [|exact H]. exists a, tl. auto.
  - apply IH1 in H as (q & d & H1 & H).
    apply IH2 in H as (p' & c' & H2 & H). exists p', c'. split; [|exact H].
    exists q, d. split; assumption.
  - destruct (rmatch ic r1 p c k) as [y|] eqn:E.
    + injection H as ->. apply IH1 in E as (p' & c' & H1 & H). eauto.
    + apply IH2 in H as (p' & c' & H2 & H). eauto.
  - now apply (star_loop_accepts ic r1 k x IH1) in H.
  - apply IH1 in H as (p' & d & H1 & H).
    exists p', ((i, consumed p p') :: d). split; [|exact H].
    exists d. split; [exact H1 | reflexivity].
  - destruct (before p) eqn:E; [discriminate|]. exists p, c. auto.
  - destruct (rest p) eqn:E; [|discriminate]. exists p, c. auto.
  - fold (word_boundary p) in H. destruct (word_boundary p) eqn:E;
      [|discriminate]. exists p, c. auto.
  - fold ret in H. destruct (rmatch ic r1 p c ret) eqn:E; [discriminate|].
    exists p, c. auto.
  - exists p, c. destruct (before p) as [a|]; [|auto].
    destruct (in_cset ic cs a); [discriminate | auto].
Qed.

(** A reading moves forward in the subject: what is left after it is a
    suffix of what was left before, and the character before the new
    position is the last one read. *)
Lemma accepts_reads (ic : bool) (r : regex) : forall p c p' c',
  accepts ic r p c p' c' ->
  exists t, rest p = t ++ rest p' /\ before p' = prev_after (before p) t.
Proof.
  assert (Hsame : forall p p' : pos, p' = p ->
            exists t, rest p = t ++ rest p'
                      /\ before p' = prev_after (before p) t).
  { intros p p' ->. now exists []. }
  induction r as [|cs|r1 IH1 r2 IH2|r1 IH1 r2 IH2|r1 IH1|i r1 IH1| | | |r1 IH1|cs];
    intros p c p' c' H; cbn [accepts] in H.
  - apply Hsame. tauto.
  - destruct H as (a & tl & Er & _ & -> & _). exists [a]. now rewrite Er.
  - destruct H as (q & d & H1 & H2).
    apply IH1 in H1 as (t1 & E1 & B1). apply IH2 in H2 as (t2 & E2 & B2).
    exists (t1 ++ t2). rewrite <- app_assoc, <- E2, prev_after_app, <- B1.
    auto.
  - destruct H as [H|H]; eauto.
  - induction H as [p c|p q p' c d c' Hs Hlt _ IHit]; [apply Hsame; reflexivity|].
    apply IH1 in Hs as (t1 & E1 & B1). destruct IHit as (t2 & E2 & B2).
    exists (t1 ++ t2). rewrite <- app_assoc, <- E2, prev_after_app, <- B1.
    auto.
  - destruct H as (d & H & _). eauto.
  - apply Hsame. tauto.
  - apply Hsame. tauto.
  - apply Hsame. tauto.
  - apply Hsame. tauto.
  - apply Hsame. tauto.
Qed.

Lemma consumed_reads (p p' : pos) (t : str) :
  rest p = t ++ rest p' -> consumed p p' = t.
Proof.
  intros E. unfold consumed. rewrite E at 2. rewrite E, length_app.
  replace (length t + length (rest p') - length (rest p')) with (length t)
    by lia.
  rewrite firstn_app, Nat.sub_diag, firstn_all. simpl. apply app_nil_r.
Qed.

(** What [exec] returns: the subject splits into the text before the match,
    the matched text and the text after it, and the pattern accepts the
    matched text at that place. *)
Lemma exec_accepts (re : RegExp) (s : str) (m : rmatch_result) :
  exec re s = Some m ->
  exists p',
    accepts (ignoreCase re) (body re) (pos_at s (index m)) [] p' (groups m)
    /\ index m <= length s
    /\ skipn (index m) s = whole m ++ after_rest m
    /\ rest p' = after_rest m
    /\ s = firstn (index m) s ++ whole m ++ after_rest m.
Proof.
  unfold exec. intros H.
  apply exec_from_sound in H as (n & [p' c'] & Hn & Hi & Hm & -> & _).
  unfold match_here in Hm.
  apply rmatch_accepts in Hm as (q & d & Hacc & Hk). injection Hk as -> ->.
  exists p'. cbn [index whole groups after_rest result_at fst snd Nat.add].
  destruct (accepts_reads _ _ _ _ _ _ Hacc) as (t & E & _).
  rewrite (consumed_reads _ _ _ E).
  change (pos_from None s n) with (pos_at s n) in *.
  rewrite rest_pos_at in E.
  repeat split; try assumption.
  rewrite <- E. symmetry. apply firstn_skipn.
Qed.

(** ** The year the parser reports *)

Ltac open_accepts H :=
  cbn [accepts seq alts lit chr digit opt upto rep plus words map S_
       list_ascii_of_string Nat.sub] in H;
  repeat match type of H with
         | exists _, _ => let x := fresh "x" in destruct H as [x H]
         end.

Lemma in_cset_char (x a : ascii) : in_cset false [CChar x] a = true -> a = x.
Proof.
  unfold in_cset. cbn [existsb in_cset1 andb]. rewrite !orb_false_r.
  intros H. apply ascii_eqb_eq in H. congruence.
Qed.

Lemma in_cset_two (x y a : ascii) :
  in_cset false [CChar x; CChar y] a = true -> a = x \/ a = y.
Proof.
  unfold in_cset. cbn [existsb in_cset1 andb]. rewrite !orb_false_r.
  intros H. apply orb_true_iff in H as [H|H]; apply ascii_eqb_eq in H; auto.
Qed.

Lemma digit_val_range (a : ascii) :
  is_digit a = true -> (0 <= digit_val a <= 9)%Z.
Proof.
  unfold is_digit, between, digit_val. intros H.
  apply andb_true_iff in H as [H1 H2].
  apply Nat.leb_le in H1, H2. lia.
Qed.

Lemma digit_val_in_range (lo hi a : ascii) :
  is_digit lo = true -> is_digit hi = true ->
  in_cset false [CRange lo hi] a = true ->
  (digit_val lo <= digit_val a <= digit_val hi)%Z.
Proof.
  unfold in_cset. cbn [existsb in_cset1 andb]. rewrite !orb_false_r.
  unfold is_digit, between, digit_val. intros Hl Hh H.
  apply andb_true_iff in Hl as [Hl1 Hl2]. apply andb_true_iff in Hh as [Hh1 Hh2].
  apply andb_true_iff in H as [H1 H2].
  apply Nat.leb_le in Hl1, Hl2, Hh1, Hh2, H1, H2. lia.
Qed.

(** The text the YEAR pattern accepts: four digits that spell a number from
    1980 to 2029, captured as group 1. *)
Lemma YEAR_accepts (p p' : pos) (c' : caps) :
  accepts false (body REGEX_PATTERNS.YEAR) p [] p' c' ->
  exists y, rest p = y ++ rest p' /\ c' = [(1, y)] /\ length y = 4
            /\ (1980 <= parseInt y <= 2029)%Z.
Proof.
  intros H. unfold REGEX_PATTERNS.YEAR in H. cbn [body seq] in H.
  match type of H with
  | accepts _ (RSeq RWordB (RSeq (RGroup 1 ?g) RWordB)) _ _ _ _ =>
      remember g as G eqn:EG
  end.
  cbn [accepts] in H.
  destruct H as (q1 & d1 & (_ & -> & ->) & q2 & d2 & (d3 & Hy & ->)
                 & (_ & -> & ->)).
  destruct (accepts_reads _ _ _ _ _ _ Hy) as (t & Et & _).
  rewrite (consumed_reads _ _ _ Et). exists t.
  split; [exact Et|]. subst G.
  cbn [accepts lit chr digit S_ list_ascii_of_string] in Hy.
  destruct Hy as (q3 & d4 & Hc & (a4 & tl4 & E4 & D4 & -> & ->)).
  rewrite in_cset_digit in D4. apply digit_val_range in D4.
  destruct Hc as [Hc|Hc];
    destruct Hc as (q5 & d5 & (q6 & d6 & (a1 & tl1 & E1 & D1 & -> & ->)
                               & (a2 & tl2 & E2 & D2 & -> & ->))
                    & (a3 & tl3 & E3 & D3 & -> & ->));
    cbn [rest] in *; subst;
    apply in_cset_char in D1, D2; subst a1 a2;
    rewrite E1 in Et; cbn [rest] in Et.
  - assert (t = ["1"; "9"; a3; a4]%char).
    { apply (app_inv_tail tl4). now rewrite <- Et. }
    subst t. split; [reflexivity|]. split; [reflexivity|].
    assert (H3 : (8 <= digit_val a3 <= 9)%Z).
    { apply in_cset_two in D3 as [->| ->]; vm_compute; split; discriminate. }
    unfold parseInt. cbn [fold_left].
    change (digit_val "1") with 1%Z. change (digit_val "9") with 9%Z. lia.
  - assert (t = ["2"; "0"; a3; a4]%char).
    { apply (app_inv_tail tl4). now rewrite <- Et. }
    subst t. split; [reflexivity|]. split; [reflexivity|].
    apply (digit_val_in_range "0" "2" a3 eq_refl eq_refl) in D3.
    change (digit_val "0") with 0%Z in D3. change (digit_val "2") with 2%Z in D3.
    unfold parseInt. cbn [fold_left].
    change (digit_val "2") with 2%Z. change (digit_val "0") with 0%Z. lia.
Qed.

Lemma YEAR_exec (s : str) (m : rmatch_result) :
  exec REGEX_PATTERNS.YEAR s = Some m ->
  group1_or_whole m = whole m /\ length (whole m) = 4
  /\ (1980 <= parseInt (whole m) <= 2029)%Z.
Proof.
  intros H. apply exec_accepts in H as (p' & Hacc & _ & Hs & Hr & _).
  apply YEAR_accepts in Hacc as (y & Ey & Eg & Hl & Hy).
  rewrite rest_pos_at, Hs, Hr in Ey. apply app_inv_tail in Ey. subst y.
  unfold group1_or_whole. rewrite Eg. cbn [group Nat.eqb].
  split; [|split; assumption].
  destruct (whole m); [discriminate Hl | reflexivity].
Qed.

(** ** Shapes of accepted texts *)

Lemma accepts_star_class (ic : bool) (cs : list cset) (p p' : pos)
    (c c' : caps) :
  accepts ic (RStar (RSet cs)) p c p' c' ->
  exists ds, rest p = ds ++ rest p' /\ forallb (in_cset ic cs) ds = true
             /\ before p' = prev_after (before p) ds /\ c' = c.
Proof.
  cbn [accepts]. induction 1 as [p c|p q p' c d c' Hs _ _ IH].
  - now exists [].
  - destruct Hs as (a & tl & Er & Ha & -> & ->).
    destruct IH as (ds & E & Hds & B & ->). cbn [rest before] in *.
    exists (a :: ds). rewrite Er, E. simpl. rewrite Ha, Hds. auto.
Qed.

Lemma accepts_plus_class (ic : bool) (cs : list cset) (p p' : pos)
    (c c' : caps) :
  accepts ic (plus (RSet cs)) p c p' c' ->
  exists d ds, rest p = (d :: ds) ++ rest p'
               /\ forallb (in_cset ic cs) (d :: ds) = true
               /\ before p' = prev_after (before p) (d :: ds) /\ c' = c.
Proof.
  unfold plus. intros H. cbn [accepts] in H.
  destruct H as (q & d0 & (a & tl & Er & Ha & -> & ->) & H).
  change (accepts ic (RStar (RSet cs)) (Pos (Some a) tl) c p' c') in H.
  apply accepts_star_class in H as (ds & E & Hds & B & ->).
  cbn [rest before] in *. exists a, ds. rewrite Er, E. simpl.
  rewrite Ha, Hds. auto.
Qed.

Lemma accepts_lit (w : str) : forall p c p' c',
  accepts true (lit w) p c p' c' ->
  exists t, rest p = t ++ rest p' /\ same_ci t w
            /\ before p' = prev_after (before p) t /\ c' = c.
Proof.
  assert (Hone : forall x p c p' c',
             accepts true (chr x) p c p' c' ->
             exists t, rest p = t ++ rest p' /\ same_ci t [x]
                       /\ before p' = prev_after (before p) t /\ c' = c).
  { intros x p c p' c' H. cbn [accepts chr] in H.
    destruct H as (a & tl & Er & Ha & -> & ->). exists [a].
    rewrite in_cset_char_ci in Ha. apply same_char_ci_eq in Ha.
    unfold same_ci. simpl. rewrite Er, Ha. auto. }
  induction w as [|x w IH]; intros p c p' c' H.
  - cbn [accepts lit] in H. destruct H as [-> ->]. now exists [].
  - destruct w as [|y w]; [now apply Hone|].
    change (lit (x :: y :: w)) with (RSeq (chr x) (lit (y :: w))) in H.
    cbn [accepts] in H. destruct H as (q & d & H1 & H2).
    change (accepts true (chr x) p c q d) in H1.
    apply Hone in H1 as (t1 & E1 & S1 & B1 & ->).
    apply IH in H2 as (t2 & E2 & S2 & B2 & ->).
    exists (t1 ++ t2). rewrite <- app_assoc, <- E2, prev_after_app, <- B1.
    repeat split; try assumption.
    unfold same_ci in *. rewrite toUpperCase_app, S1, S2. reflexivity.
Qed.

Lemma accepts_alts (ic : bool) (rs : list regex) (p p' : pos) (c c' : caps) :
  accepts ic (alts rs) p c p' c' ->
  exists r, In r rs /\ accepts ic r p c p' c'.
Proof.
  induction rs as [|r rs IH]; intros H.
  - cbn [accepts alts] in H. destruct H as (a & tl & _ & Ha & _).
    discriminate Ha.
  - destruct rs as [|r' rs].
    + exists r. split; [now left | exact H].
    + change (alts (r :: r' :: rs)) with (RAlt r (alts (r' :: rs))) in H.
      cbn [accepts] in H. destruct H as [H|H].
      * exists r. split; [now left | exact H].
      * destruct (IH H) as (r0 & Hin & H0). exists r0.
        split; [now right | exact H0].
Qed.

Lemma accepts_words (ws : list string) (p p' : pos) (c c' : caps) :
  accepts true (words ws) p c p' c' ->
  exists w t, In w ws /\ rest p = t ++ rest p' /\ same_ci t (S_ w)
              /\ before p' = prev_after (before p) t /\ c' = c.
Proof.
  unfold words. intros H. apply accepts_alts in H as (r & Hin & H).
  apply in_map_iff in Hin as (w & <- & Hin).
  apply accepts_lit in H as (t & H). exists w, t. tauto.
Qed.

(** ** What the parser leaves in each field *)

Ltac untargeted :=
  let j := fresh "j" in
  let Hj := fresh "Hj" in
  intros j Hj;
  do 12 (destruct j as [|j];
         [first [lia | simpl; solve [intuition discriminate]]|]);
  lia.

Section Parsed.

Variable title : str.
Variable originalSearchTitle : option str.
Variable torrentYearFromBitmagnet : option Z.

Local Abbreviation state :=
  (stateAfter title originalSearchTitle torrentYearFromBitmagnet).
Local Abbreviation parsed :=
  (parseTorrentTitle title originalSearchTitle torrentYearFromBitmagnet).

(** The value of a field after the last pass that may assign it. *)
Lemma settled_after (f : field) (k : nat) :
  (forall j, k <= j < 12 -> ~ In f (targets j)) ->
  read f parsed = read f (state k).
Proof.
  intros H. destruct (Nat.le_gt_cases k 12) as [Hk|Hk].
  - rewrite <- (state_final title originalSearchTitle torrentYearFromBitmagnet
                  12 (le_n 12)).
    now apply untargeted_field.
  - now rewrite (state_final title originalSearchTitle torrentYearFromBitmagnet
                   k) by lia.
Qed.

(** The value of a field before the first pass that may assign it. *)
Lemma unset_before (f : field) (k : nat) :
  (forall j, j < k -> ~ In f (targets j)) ->
  read f (state k) = read f (emptyMetadata title).
Proof. apply untouched_field. Qed.

Lemma parsed_originalTitle : originalTitle parsed = title.
Proof.
  rewrite <- (state_final title originalSearchTitle torrentYearFromBitmagnet
                12 (le_n 12)).
  now destruct (state_keeps title originalSearchTitle torrentYearFromBitmagnet
                  0 12 ltac:(lia)) as [H _].
Qed.

Lemma year_after_first_pass :
  year (state 1)
  = if truthy_Z torrentYearFromBitmagnet then torrentYearFromBitmagnet
    else option_map (fun m => parseInt (whole m))
                    (exec REGEX_PATTERNS.YEAR title).
Proof.
  change (state 1) with (pass_year title torrentYearFromBitmagnet
                                   (emptyMetadata title)).
  unfold pass_year. destruct (truthy_Z torrentYearFromBitmagnet);
    [reflexivity|].
  unfold extractFirstMatch, is_set. cbn [fget fset f_year emptyMetadata year].
  destruct (exec REGEX_PATTERNS.YEAR title) as [m|] eqn:E; [|reflexivity].
  apply YEAR_exec in E as [-> _]. reflexivity.
Qed.

Lemma parseTorrentTitle_year_eq :
  year parsed
  = if truthy_Z torrentYearFromBitmagnet then torrentYearFromBitmagnet
    else match exec REGEX_PATTERNS.YEAR title with
         | Some m => Some (parseInt (whole m))
         | None =>
             if truthy_str originalSearchTitle
             then option_map (fun m => parseInt (whole m))
                             (exec REGEX_PATTERNS.YEAR
                                   (text originalSearchTitle))
             else None
         end.
Proof.
  pose proof year_after_first_pass as H1.
  destruct (state_keeps title originalSearchTitle torrentYearFromBitmagnet
              1 12 ltac:(lia)) as [_ Hkeep].
  rewrite (state_final title originalSearchTitle torrentYearFromBitmagnet
             12 (le_n 12)) in Hkeep.
  specialize (Hkeep Fyear). unfold read, present in Hkeep.
  destruct (truthy_Z torrentYearFromBitmagnet) eqn:Et.
  - rewrite H1, Et in Hkeep. specialize (Hkeep eq_refl).
    injection Hkeep as Hkeep. exact Hkeep.
  - destruct (exec REGEX_PATTERNS.YEAR title) as [m|] eqn:E.
    + cbn [option_map] in H1. rewrite H1 in Hkeep.
      apply YEAR_exec in E as (_ & _ & Hr).
      assert (Hp : truthy_Z (Some (parseInt (whole m))) = true).
      { cbn. destruct (Z.eqb_spec (parseInt (whole m)) 0); [lia | reflexivity]. }
      specialize (Hkeep Hp). injection Hkeep as Hkeep. exact Hkeep.
    + cbn [option_map] in H1.
      assert (H11 : read Fyear (state 11) = read Fyear (state 1)).
      { apply (untargeted_field title originalSearchTitle
                 torrentYearFromBitmagnet Fyear 1 11); [lia|].
        intros j [Hj1 Hj2].
        do 12 (destruct j as [|j];
               [first [lia | simpl; solve [intuition discriminate]]|]).
        lia. }
      unfold read in H11. injection H11 as H11.
      change (year (state 11) = year (state 1)) in H11. rewrite H1 in H11.
      rewrite <- (state_final title originalSearchTitle
                    torrentYearFromBitmagnet 12 (le_n 12)).
      change (state 12) with (pass_yearFromSearch originalSearchTitle (state 11)).
      unfold pass_yearFromSearch. rewrite H11. cbn [truthy_Z negb andb].
      destruct originalSearchTitle as [[|c ost]|]; cbn [truthy_str text];
        try exact H11.
      destruct (exec REGEX_PATTERNS.YEAR (c :: ost)) as [m|] eqn:E2;
        cbn [option_map]; [|exact H11].
      apply YEAR_exec in E2 as (_ & Hl & _).
      destruct (whole m); [discriminate Hl | reflexivity].
Qed.

(** The year of the result: the year the index supplied when it is a number
    other than zero; otherwise the first year the YEAR pattern finds in the
    title; otherwise the first one it finds in the search title. *)
Theorem parseTorrentTitle_year :
  year parsed
  = if truthy_Z torrentYearFromBitmagnet then torrentYearFromBitmagnet
    else match exec REGEX_PATTERNS.YEAR title with
         | Some m => Some (parseInt (whole m))
         | None =>
             if truthy_str originalSearchTitle
             then option_map (fun m => parseInt (whole m))
                             (exec REGEX_PATTERNS.YEAR
                                   (text originalSearchTitle))
             else None
         end.
Proof. exact parseTorrentTitle_year_eq. Qed.

(** A year the parser read from a title, and not from the index, lies
    between 1980 and 2029. *)
Theorem parseTorrentTitle_year_range (y : Z) :
  truthy_Z torrentYearFromBitmagnet = false ->
  year parsed = Some y -> (1980 <= y <= 2029)%Z.
Proof.
  intros Ht. rewrite parseTorrentTitle_year_eq. rewrite Ht.
  destruct (exec REGEX_PATTERNS.YEAR title) as [m|] eqn:E.
  - intros H. injection H as <-. now apply YEAR_exec in E.
  - destruct (truthy_str originalSearchTitle); [|discriminate].
    destruct (exec REGEX_PATTERNS.YEAR (text originalSearchTitle)) as [m|] eqn:E2;
      [|discriminate].
    intros H. injection H as <-. now apply YEAR_exec in E2.
Qed.

End Parsed.

Section ParsedFields.

Variable title : str.
Variable originalSearchTitle : option str.
Variable torrentYearFromBitmagnet : option Z.

Local Abbreviation state :=
  (stateAfter title originalSearchTitle torrentYearFromBitmagnet).
Local Abbreviation parsed :=
  (parseTorrentTitle title originalSearchTitle torrentYearFromBitmagnet).

Lemma uniq_nonempty (x : str) (l : list str) : uniq (x :: l) <> [].
Proof. unfold uniq. simpl. discriminate. Qed.

(** [audioCodec] is never an array in the result: it is absent when the
    AUDIO_CODEC pattern finds nothing in the title, and otherwise the one
    string made of the distinct matches, upper-cased, in the order of their
    first occurrence, joined by single spaces. *)
Theorem parseTorrentTitle_audioCodec :
  audioCodec parsed
  = match uniq (map (fun m => toUpperCase (group1_or_whole m))
                    (matchAll REGEX_PATTERNS.AUDIO_CODEC title)) with
    | [] => None
    | codecs => Some (OneStr (join " " codecs))
    end.
Proof.
  assert (H : read FaudioCodec parsed = read FaudioCodec (state 6)).
  { apply settled_after. intros j [H1 H2].
    do 6 (destruct j as [|j]; [lia|]).
    do 6 (destruct j as [|j]; [simpl; solve [intuition discriminate]|]). lia. }
  unfold read in H. injection H as H. rewrite H. clear H.
  assert (H5 : read FaudioCodec (state 5)
               = read FaudioCodec (emptyMetadata title))
    by (apply unset_before; untargeted).
  unfold read in H5. injection H5 as H5.
  change (audioCodec (state 5) = None) in H5.
  change (state 6) with (pass_audioCodec title (state 5)).
  unfold pass_audioCodec, extractAllMatches, is_set.
  cbn [fget fset f_audioCodec]. rewrite H5.
  destruct (map _ (matchAll REGEX_PATTERNS.AUDIO_CODEC title)) as [|v vs].
  - rewrite H5. exact H5.
  - pose proof (uniq_nonempty v vs) as Hne.
    destruct (uniq (v :: vs)) as [|u [|u' us]]; [contradiction| |];
      reflexivity.
Qed.

(** The languages of the result, when there are any, are pairwise distinct,
    longer than one character, and none contains the text AUDIO. *)
Theorem parseTorrentTitle_languages (langs : list str) :
  languages parsed = Some langs ->
  NoDup langs
  /\ forall lang, In lang langs ->
       1 < length lang /\ includes lang "AUDIO" = false.
Proof.
  assert (H : read Flanguages parsed = read Flanguages (state 8)).
  { apply settled_after. intros j [H1 H2].
    do 8 (destruct j as [|j]; [lia|]).
    do 4 (destruct j as [|j]; [simpl; solve [intuition discriminate]|]). lia. }
  unfold read in H. injection H as H. rewrite H. clear H.
  assert (H7 : read Flanguages (state 7)
               = read Flanguages (emptyMetadata title))
    by (apply unset_before; untargeted).
  unfold read in H7. injection H7 as H7.
  change (languages (state 7) = None) in H7.
  change (state 8) with (pass_languages title (state 7)).
  unfold pass_languages.
  destruct (flat_map languagesOfMatch
              (matchAll REGEX_PATTERNS.LANGUAGES title)) as [|l ls].
  - rewrite H7. discriminate.
  - remember (l :: ls) as found eqn:Ef. unfold set_languages.
    intros E. unfold languages in E. injection E as <-. split.
    + apply uniq_acc_NoDup.
    + intros lang Hin. apply uniq_acc_In in Hin as [Hin _].
      apply filter_In in Hin as [_ Hf].
      apply andb_true_iff in Hf as [H1 H2]. apply Nat.ltb_lt in H1.
      split; [exact H1|]. apply negb_true_iff in H2. exact H2.
Qed.

End ParsedFields.

Lemma parseTorrentTitle_languages_witness :
  NoDup ([S_ "English"; S_ "French"])
  /\ forall lang, In lang [S_ "English"; S_ "French"] ->
       1 < length lang /\ includes lang "AUDIO" = false.
Proof.
  apply (parseTorrentTitle_languages "Movie.2019.ENG.FRE.ENGLISH.1080p" None
           None [S_ "English"; S_ "French"]).
  vm_compute. reflexivity.
Defined.

(** ** Trimming *)

Lemma trimStart_clean (s : str) : startsClean (trimStart s).
Proof.
  induction s as [|c s IH]; simpl; [exact I|].
  destruct (is_space c) eqn:E; [exact IH | exact E].
Qed.

Lemma trimStart_fixed (s : str) : startsClean s -> trimStart s = s.
Proof. destruct s as [|c s]; simpl; [reflexivity | now intros ->]. Qed.

Lemma trimStart_suffix (s : str) : exists pre, s = pre ++ trimStart s.
Proof.
  induction s as [|c s [pre IH]]; simpl; [now exists []|].
  destruct (is_space c); [|now exists []].
  exists (c :: pre). simpl. now rewrite <- IH.
Qed.

Lemma startsClean_app (a b : str) :
  a <> [] -> startsClean (a ++ b) -> startsClean a.
Proof. destruct a; [contradiction | intros _ H; exact H]. Qed.

Lemma rev_trimStart_clean (s : str) :
  startsClean (rev s) -> startsClean (rev (trimStart s)).
Proof.
  destruct (trimStart_suffix s) as [pre E]. intros H.
  destruct (trimStart s) as [|c t] eqn:Et; [exact I|].
  rewrite E, rev_app_distr in H. apply (startsClean_app _ (rev pre)); [|exact H].
  simpl. intros Hn. apply app_eq_nil in Hn as [_ Hn]. discriminate Hn.
Qed.

Lemma trim_clean (s : str) :
  startsClean (trim s) /\ startsClean (rev (trim s)).
Proof.
  unfold trim. split.
  - apply rev_trimStart_clean. rewrite rev_involutive. apply trimStart_clean.
  - rewrite rev_involutive. apply trimStart_clean.
Qed.

Lemma trim_fixed (s : str) :
  startsClean s -> startsClean (rev s) -> trim s = s.
Proof.
  intros H1 H2. unfold trim.
  rewrite (trimStart_fixed s H1), (trimStart_fixed _ H2).
  apply rev_involutive.
Qed.

Lemma trim_trim (s : str) : trim (trim s) = trim s.
Proof. destruct (trim_clean s). now apply trim_fixed. Qed.

Lemma cleanTitle_trimmed_eq (title : str) (parsedMeta : ParsedMetadata)
    (originalSearchTitle : option str) :
  trim (cleanTitle title parsedMeta originalSearchTitle)
  = cleanTitle title parsedMeta originalSearchTitle.
Proof.
  unfold cleanTitle.
  destruct ((length (primaryClean title parsedMeta) <? 5) && (10 <? length title)
            || test fourDigitsRegex (primaryClean title parsedMeta)).
  - unfold fallbackClean.
    match goal with
    | |- context [match collapse ?x with _ => _ end] =>
        destruct (collapse x) as [|c l] eqn:E
    end.
    + destruct (releaseGroup parsedMeta) as [[|c g]|]; apply trim_trim.
    + rewrite <- E. unfold collapse. apply trim_trim.
  - unfold primaryClean, collapse. apply trim_trim.
Qed.

(** [cleanTitle] never returns a text with white space at either end,
    whichever of its branches produces the result. *)
Theorem cleanTitle_trimmed (title : str) (parsedMeta : ParsedMetadata)
    (originalSearchTitle : option str) :
  trim (cleanTitle title parsedMeta originalSearchTitle)
  = cleanTitle title parsedMeta originalSearchTitle.
Proof. apply cleanTitle_trimmed_eq. Qed.

(** ** Release group and size *)

Lemma in_cset_alnum (a : ascii) :
  in_cset true [CRange "a" "z"; CRange "A" "Z"; CRange "0" "9"] a
  = is_alnum a.
Proof.
  destruct a as [[|] [|] [|] [|] [|] [|] [|] [|]]; vm_compute; reflexivity.
Qed.

Lemma alnum_not_hyphen (a : ascii) (s : str) :
  is_alnum a = true -> startsWith (a :: s) "-" = false.
Proof.
  intros H. cbn [startsWith S_ list_ascii_of_string]. rewrite andb_true_r.
  destruct (ascii_eqb "-" a) eqn:E; [|reflexivity].
  apply ascii_eqb_eq in E. subst a. discriminate H.
Qed.

(** The text the RELEASE_GROUP pattern captures: a run of letters and
    digits, optionally followed by one hyphen and a second run, that ends
    the subject. *)
Lemma RELEASE_GROUP_exec (s : str) (m : rmatch_result) :
  exec REGEX_PATTERNS.RELEASE_GROUP s = Some m ->
  exists pre a1 more,
    s = pre ++ a1 ++ more
    /\ group1_or_whole m = a1 ++ more
    /\ a1 <> [] /\ forallb is_alnum a1 = true
    /\ (more = []
        \/ exists a2, more = "-"%char :: a2 /\ a2 <> []
                      /\ forallb is_alnum a2 = true).
Proof.
  intros H. apply exec_accepts in H as (p' & Hacc & _ & Hs & Hr & Hsplit).
  unfold REGEX_PATTERNS.RELEASE_GROUP in Hacc. cbn [body ignoreCase seq] in Hacc.
  match type of Hacc with
  | accepts _ (RSeq ?h (RSeq (RGroup 1 ?g) REol)) _ _ _ _ =>
      remember g as G eqn:EG; remember h as Hd eqn:EH
  end.
  cbn [accepts] in Hacc.
  destruct Hacc as (q1 & d1 & H1 & q2 & d2 & (d3 & HG & ->) & (Hend & -> & Hg)).
  destruct (accepts_reads _ _ _ _ _ _ H1) as (t0 & E0 & _).
  destruct (accepts_reads _ _ _ _ _ _ HG) as (t1 & E1 & _).
  rewrite (consumed_reads _ _ _ E1) in Hg.
  rewrite rest_pos_at, Hs in E0. rewrite <- Hr, Hend, app_nil_r in Hs, E0, Hsplit.
  rewrite Hend, app_nil_r in E1.
  assert (Hg1 : group1_or_whole m = t1 /\ t1 <> []
                /\ exists a1 more, t1 = a1 ++ more /\ a1 <> []
                     /\ forallb is_alnum a1 = true
                     /\ (more = []
                         \/ exists a2, more = "-"%char :: a2 /\ a2 <> []
                                       /\ forallb is_alnum a2 = true)).
  { subst G. cbn [accepts seq opt] in HG.
    destruct HG as (q3 & d4 & Hp1 & Hopt).
    apply accepts_plus_class in Hp1 as (x & xs & Ex & Hx & _ & ->).
    rewrite (forallb_ext_eq _ _ _ in_cset_alnum) in Hx.
    assert (Hne : t1 <> []).
    { intros ->. rewrite E1 in Ex. discriminate Ex. }
    split; [|split; [exact Hne|]].
    - unfold group1_or_whole. rewrite Hg. cbn [group Nat.eqb].
      destruct t1; [contradiction | reflexivity].
    - destruct Hopt as [Hopt|[-> ->]].
      + destruct Hopt as (q4 & d5 & (h & tl & Eh & Hh & -> & ->) & Hp2).
        apply accepts_plus_class in Hp2 as (y & ys & Ey & Hy & _ & _).
        rewrite (forallb_ext_eq _ _ _ in_cset_alnum) in Hy.
        cbn [rest] in Ey. rewrite Hend, app_nil_r in Ey.
        rewrite in_cset_char_ci in Hh. apply same_char_ci_eq in Hh.
        assert (h = "-"%char).
        { revert Hh. clear.
          destruct h as [[|] [|] [|] [|] [|] [|] [|] [|]]; vm_compute;
            congruence. }
        subst h. exists (x :: xs), ("-"%char :: y :: ys).
        rewrite E1 in Ex. rewrite Ex, Eh, Ey.
        split; [reflexivity|]. split; [discriminate|]. split; [exact Hx|].
        right. exists (y :: ys). split; [reflexivity|].
        split; [discriminate | exact Hy].
      + exists (x :: xs), []. rewrite E1 in Ex. rewrite Hend in Ex.
        rewrite Ex. split; [reflexivity|]. split; [discriminate|].
        split; [exact Hx | now left]. }
  destruct Hg1 as (Hgw & _ & a1 & more & Et & Hrest).
  exists (firstn (index m) s ++ t0), a1, more.
  rewrite Hgw, <- Et, <- app_assoc.
  split; [|split; [reflexivity | exact Hrest]].
  rewrite Hsplit at 1. f_equal. rewrite E0, E1. reflexivity.
Qed.

Lemma parseInt_nonneg (s : str) : (0 <= parseInt s)%Z.
Proof.
  unfold parseInt.
  assert (H : forall acc, (0 <= acc)%Z ->
            (0 <= fold_left (fun acc c => acc * 10 + digit_val c) s acc)%Z).
  { induction s as [|c s IH]; intros acc Hacc; [exact Hacc|].
    simpl. apply IH. unfold digit_val. lia. }
  apply H. lia.
Qed.

Lemma parseFloat_nonneg (s : str) : (0 <= parseFloat s)%Q.
Proof.
  unfold parseFloat. destruct (take_digits s) as [ip r].
  pose proof (parseInt_nonneg ip) as Hi.
  assert (H0 : (0 <= inject_Z (parseInt ip))%Q).
  { change 0%Q with (inject_Z 0). now rewrite <- Zle_Qle. }
  destruct r as [|c r']; [exact H0|].
  destruct (ascii_eqb c "."); [|exact H0].
  destruct (take_digits r') as [fp r2].
  pose proof (parseInt_nonneg fp) as Hf.
  assert (H1 : (0 <= Qmake (parseInt fp) (Pos.of_nat (10 ^ length fp)))%Q).
  { unfold Qle. simpl. lia. }
  lra.
Qed.

(** The text the SIZE pattern accepts: a decimal number, white space, and a
    unit, the number being group 1 and the unit group 2. *)
Lemma SIZE_accepts (p p' : pos) (c' : caps) :
  accepts true (body sizeRegexLocal) p [] p' c' ->
  exists num ws u unit k,
    rest p = num ++ ws ++ u ++ rest p'
    /\ c' = [(2, u); (1, num)]
    /\ decimalText num /\ forallb is_space ws = true
    /\ In (unit, k) sizeUnits /\ same_ci u (S_ unit).
Proof.
  unfold sizeRegexLocal. cbn [body seq]. intros H.
  match type of H with
  | accepts _ (RSeq (RGroup 1 ?g) (RSeq ?w (RGroup 2 ?u))) _ _ _ _ =>
      remember g as G eqn:EG; remember u as U eqn:EU
  end.
  cbn [accepts] in H.
  destruct H as (q1 & d1 & (d2 & HG & ->) & q2 & d3 & Hws & (d4 & HU & ->)).
  change (accepts true (RStar (RSet [CSpace])) q1
                  ((1, consumed p q1) :: d2) q2 d3) in Hws.
  apply accepts_star_class in Hws as (ws & Ews & Hws & _ & ->).
  rewrite (forallb_ext_eq _ _ _ (in_cset_space true)) in Hws.
  subst U. apply accepts_words in HU as (unit & u & Hin & Eu & Hu & _ & ->).
  rewrite (consumed_reads _ _ _ Eu).
  destruct (accepts_reads _ _ _ _ _ _ HG) as (num & En & _).
  rewrite (consumed_reads _ _ _ En).
  assert (Hnum : decimalText num /\ d2 = []).
  { subst G. cbn [accepts seq opt] in HG.
    destruct HG as (q3 & d5 & Hp1 & Hopt).
    apply accepts_plus_class in Hp1 as (x & xs & Ex & Hx & _ & ->).
    rewrite (forallb_ext_eq _ _ _ (in_cset_digit true)) in Hx.
    destruct Hopt as [Hopt|[-> ->]].
    - destruct Hopt as (q4 & d6 & (h & tl & Eh & Hh & -> & ->) & Hp2).
      apply accepts_plus_class in Hp2 as (y & ys & Ey & Hy & _ & ->).
      rewrite (forallb_ext_eq _ _ _ (in_cset_digit true)) in Hy.
      cbn [rest] in Ey. split; [|reflexivity].
      rewrite in_cset_char_ci in Hh. apply same_char_ci_eq in Hh.
      assert (h = "."%char).
      { revert Hh. clear.
        destruct h as [[|] [|] [|] [|] [|] [|] [|] [|]]; vm_compute;
          congruence. }
      subst h. exists (x :: xs). split; [discriminate|]. split; [exact Hx|].
      right. exists (y :: ys). split; [discriminate|]. split; [exact Hy|].
      apply (app_inv_tail (rest q1)). rewrite <- En, Ex, Eh, Ey.
      now rewrite <- !app_assoc.
    - split; [|reflexivity]. exists (x :: xs). split; [discriminate|].
      split; [exact Hx|]. left. apply (app_inv_tail (rest q3)).
      now rewrite <- En, Ex. }
  destruct Hnum as [Hnum ->].
  assert (Hk : exists k, In (unit, k) sizeUnits).
  { simpl in Hin. unfold sizeUnits.
    repeat (destruct Hin as [<-|Hin]; [eexists; simpl; eauto 10|]).
    contradiction. }
  destruct Hk as [k Hk].
  exists num, ws, u, unit, k. rewrite En, Ews, Eu.
  repeat split; assumption.
Qed.

Lemma parseSize_of_match (m : rmatch_result) (s : str) :
  exec sizeRegexLocal s = Some m ->
  exists v, parseSize s = Some v /\ (0 <= v)%Q.
Proof.
  intros H. unfold parseSize. rewrite H.
  apply exec_accepts in H as (p' & Hacc & _).
  apply SIZE_accepts in Hacc
    as (num & ws & u & unit & k & _ & Eg & _ & _ & Hin & Hu).
  unfold group_text. rewrite Eg. cbn [group Nat.eqb]. rewrite Hu.
  destruct (parseSize_unit_binary (parseFloat num) unit k Hin) as (v & E & Hv).
  exists v. split; [exact E|]. rewrite Hv.
  pose proof (parseFloat_nonneg num) as Hn.
  assert (Hp : (0 <= inject_Z (1024 ^ k))%Q).
  { change 0%Q with (inject_Z 0). rewrite <- Zle_Qle.
    apply Z.pow_nonneg. lia. }
  now apply Qmult_le_0_compat.
Qed.

(** The pattern of [parseSize] at any place of a text that holds a number,
    white space and a unit there. *)
Lemma size_match_at (num ws u : str) (unit : string) (k : Z) (tail : str)
    (prev : option ascii) :
  decimalText num -> forallb is_space ws = true ->
  In (unit, k) sizeUnits -> same_ci u (S_ unit) ->
  is_some (match_here sizeRegexLocal (Pos prev (num ++ ws ++ u ++ tail)))
  = true.
Proof.
  intros Hnum Hws Hin Hs.
  assert (H : exists x, match_here sizeRegexLocal
                          (Pos prev (num ++ ws ++ u ++ tail)) = Some x);
    [|destruct H as [x ->]; reflexivity].
  eexists.
  unfold match_here, sizeRegexLocal. cbn [body ignoreCase seq].
  rewrite rmatch_seq_group.
  apply size_number_part; try assumption.
  - destruct ws as [|w ws'].
    + destruct (unit_starts_with_letter u unit k Hin Hs) as (a & u' & -> & Ha).
      change (in_cset true [CDigit] a = false). rewrite in_cset_digit.
      now apply letter_is_plain.
    + change (in_cset true [CDigit] w = false). rewrite in_cset_digit.
      simpl in Hws. apply andb_true_iff in Hws as [Hw _].
      revert Hw. clear.
      destruct w as [[|] [|] [|] [|] [|] [|] [|] [|]]; vm_compute; congruence.
  - destruct ws as [|w ws'].
    + destruct (unit_starts_with_letter u unit k Hin Hs) as (a & u' & -> & Ha).
      change (in_cset true [CChar "."] a = false). rewrite in_cset_char_ci.
      now apply letter_is_plain.
    + change (in_cset true [CChar "."] w = false). rewrite in_cset_char_ci.
      simpl in Hws. apply andb_true_iff in Hws as [Hw _].
      revert Hw. clear.
      destruct w as [[|] [|] [|] [|] [|] [|] [|] [|]]; vm_compute; congruence.
  - rewrite (consumed_app prev _ num (ws ++ u ++ tail)).
    apply (size_unit_part ws u unit k tail _ _ Hws Hin Hs).
Qed.

(** [parseSize] answers exactly for the texts that hold, somewhere, a
    decimal number followed by optional white space and one of the eight
    units in any letter case; its answer is never negative.  The last
    [return undefined] of the function is never reached. *)
Theorem parseSize_answers (sizeStr : str) :
  (parseSize sizeStr <> None <->
   exists pre num ws u unit k tail,
     sizeStr = pre ++ num ++ ws ++ u ++ tail
     /\ decimalText num /\ forallb is_space ws = true
     /\ In (unit, k) sizeUnits /\ same_ci u (S_ unit))
  /\ (forall v, parseSize sizeStr = Some v -> (0 <= v)%Q).
Proof.
  split; [split|].
  - intros H. destruct (exec sizeRegexLocal sizeStr) as [m|] eqn:E;
      [|unfold parseSize in H; now rewrite E in H].
    apply exec_accepts in E as (p' & Hacc & _ & Hs & Hr & Hsplit).
    apply SIZE_accepts in Hacc
      as (num & ws & u & unit & k & Erest & _ & Hn & Hw & Hin & Hu).
    exists (firstn (index m) sizeStr), num, ws, u, unit, k, (rest p').
    rewrite rest_pos_at in Erest. rewrite <- Erest.
    split; [symmetry; apply firstn_skipn|]. repeat split; assumption.
  - intros (pre & num & ws & u & unit & k & tail & -> & Hn & Hw & Hin & Hu).
    assert (Ht : test sizeRegexLocal (pre ++ num ++ ws ++ u ++ tail) = true).
    { apply test_spec. exists (length pre).
      destruct (split_at_prefix pre (num ++ ws ++ u ++ tail)) as [Hl Hsk].
      split; [exact Hl|]. unfold pos_at, pos_from. rewrite Hsk.
      now apply (size_match_at num ws u unit k tail). }
    unfold test in Ht.
    destruct (exec sizeRegexLocal (pre ++ num ++ ws ++ u ++ tail)) as [m|] eqn:E;
      [|discriminate Ht].
    destruct (parseSize_of_match m _ E) as (v & -> & _). discriminate.
  - intros v Hv. destruct (exec sizeRegexLocal sizeStr) as [m|] eqn:E;
      [|unfold parseSize in Hv; rewrite E in Hv; discriminate Hv].
    destruct (parseSize_of_match m _ E) as (v' & E' & Hle).
    rewrite E' in Hv. now injection Hv as <-.
Qed.

(** What the SIZE pattern finds parses to a size. *)
Lemma SIZE_exec (s : str) (m : rmatch_result) :
  exec sizeRegexLocal s = Some m ->
  exists v, parseSize (whole m) = Some v /\ (0 <= v)%Q
            /\ nonempty (whole m) = true.
Proof.
  intros E. apply exec_accepts in E as (p' & Hacc & _ & Hs & Hr & _).
  apply SIZE_accepts in Hacc
    as (num & ws & u & unit & k & Er & _ & Hn & Hw & Hin & Hu).
  rewrite rest_pos_at, Hs, Hr in Er.
  assert (Ew : whole m = num ++ ws ++ u ++ []).
  { apply (app_inv_tail (after_rest m)). rewrite Er, app_nil_r.
    now rewrite <- !app_assoc. }
  destruct (parseSize_number_unit num ws u unit k [] Hn Hw Hin Hu)
    as (v & Ev & Hv).
  rewrite Ew. exists v. split; [exact Ev|]. split.
  - rewrite Hv. pose proof (parseFloat_nonneg num) as Hf.
    assert (Hp : (0 <= inject_Z (1024 ^ k))%Q).
    { change 0%Q with (inject_Z 0). rewrite <- Zle_Qle.
      apply Z.pow_nonneg. lia. }
    now apply Qmult_le_0_compat.
  - destruct Hn as (ip & Hne & _ & [->|(fp & _ & _ & ->)]);
      destruct ip; try contradiction; reflexivity.
Qed.

Section ParsedTail.

Variable title : str.
Variable originalSearchTitle : option str.
Variable torrentYearFromBitmagnet : option Z.

Local Abbreviation state :=
  (stateAfter title originalSearchTitle torrentYearFromBitmagnet).
Local Abbreviation parsed :=
  (parseTorrentTitle title originalSearchTitle torrentYearFromBitmagnet).

(** The release group of the result is the end of the title: a run of
    letters and digits, optionally followed by one hyphen and a second run.
    It holds no character that means something in a regular expression, and
    it never starts with a hyphen, so the stripping of a leading hyphen
    never applies. *)
Theorem parseTorrentTitle_releaseGroup (g : str) :
  releaseGroup parsed = Some g ->
  exists pre a1 more,
    title = pre ++ g /\ g = a1 ++ more
    /\ a1 <> [] /\ forallb is_alnum a1 = true
    /\ (more = []
        \/ exists a2, more = "-"%char :: a2 /\ a2 <> []
                      /\ forallb is_alnum a2 = true).
Proof.
  assert (H : read FreleaseGroup parsed = read FreleaseGroup (state 9)).
  { apply settled_after. intros j [H1 H2].
    do 9 (destruct j as [|j]; [lia|]).
    do 3 (destruct j as [|j]; [simpl; solve [intuition discriminate]|]). lia. }
  unfold read in H. injection H as H. rewrite H. clear H.
  assert (H8 : read FreleaseGroup (state 8)
               = read FreleaseGroup (emptyMetadata title))
    by (apply unset_before; untargeted).
  unfold read in H8. injection H8 as H8.
  change (releaseGroup (state 8) = None) in H8.
  change (state 9) with (pass_releaseGroup title (state 8)).
  unfold pass_releaseGroup, extractFirstMatch, is_set.
  cbn [fget fset f_releaseGroup]. rewrite H8.
  destruct (exec REGEX_PATTERNS.RELEASE_GROUP title) as [m|] eqn:E;
    [|rewrite H8; discriminate].
  apply RELEASE_GROUP_exec in E
    as (pre & a1 & more & Et & Eg & Hne & Ha & Hmore).
  rewrite Eg. destruct a1 as [|a a1]; [contradiction|].
  assert (Hh : startsWith ((a :: a1) ++ more) "-" = false).
  { apply alnum_not_hyphen. simpl in Ha. now apply andb_true_iff in Ha as [Ha _]. }
  rewrite Hh. unfold set_releaseGroup, releaseGroup.
  intros Hg. injection Hg as <-.
  exists pre, (a :: a1), more. repeat split; assumption.
Qed.

(** A size text found in the title always yields a size: [rawSize] and
    [calculatedSize] are present or absent together, and the size is the one
    [parseSize] computes from [rawSize], never negative. *)
Theorem parseTorrentTitle_size :
  (rawSize parsed = None <-> calculatedSize parsed = None)
  /\ forall raw, rawSize parsed = Some raw ->
       calculatedSize parsed = parseSize raw
       /\ exists v, parseSize raw = Some v /\ (0 <= v)%Q.
Proof.
  assert (Hr : read FrawSize parsed = read FrawSize (state 10)).
  { apply settled_after. intros j [H1 H2].
    do 10 (destruct j as [|j]; [lia|]).
    do 2 (destruct j as [|j]; [simpl; solve [intuition discriminate]|]). lia. }
  assert (Hc : read FcalculatedSize parsed = read FcalculatedSize (state 10)).
  { apply settled_after. intros j [H1 H2].
    do 10 (destruct j as [|j]; [lia|]).
    do 2 (destruct j as [|j]; [simpl; solve [intuition discriminate]|]). lia. }
  unfold read in Hr, Hc. injection Hr as Hr. injection Hc as Hc.
  rewrite Hr, Hc. clear Hr Hc.
  assert (H9r : read FrawSize (state 9) = read FrawSize (emptyMetadata title))
    by (apply unset_before; untargeted).
  assert (H9c : read FcalculatedSize (state 9)
                = read FcalculatedSize (emptyMetadata title))
    by (apply unset_before; untargeted).
  unfold read in H9r, H9c. injection H9r as H9r. injection H9c as H9c.
  change (rawSize (state 9) = None) in H9r.
  change (calculatedSize (state 9) = None) in H9c.
  change (state 10) with (pass_size title (state 9)).
  unfold pass_size.
  change REGEX_PATTERNS.SIZE with sizeRegexLocal.
  destruct (exec sizeRegexLocal title) as [m|] eqn:E.
  - destruct (SIZE_exec title m E) as (v & Hv & Hle & Hne).
    rewrite Hne. cbn [set_rawSize calculatedSize]. rewrite H9c.
    cbn [truthy_Q]. unfold set_calculatedSize, rawSize, calculatedSize.
    rewrite Hv. split; [split; discriminate|].
    intros raw Hraw. injection Hraw as <-. rewrite Hv.
    split; [reflexivity|]. exists v. split; [reflexivity | exact Hle].
  - rewrite H9r, H9c. split; [tauto|]. discriminate.
Qed.

End ParsedTail.

Section ParsedTitles.

Variable title : str.
Variable originalSearchTitle : option str.
Variable torrentYearFromBitmagnet : option Z.

Local Abbreviation state :=
  (stateAfter title originalSearchTitle torrentYearFromBitmagnet).
Local Abbreviation parsed :=
  (parseTorrentTitle title originalSearchTitle torrentYearFromBitmagnet).

(** Every result carries the title it was parsed from, unchanged, and a
    cleaned title with no white space at either end. *)
Theorem parseTorrentTitle_titles :
  originalTitle parsed = title
  /\ exists cleaned, cleanedTitle parsed = Some cleaned
                     /\ trim cleaned = cleaned.
Proof.
  split; [apply parsed_originalTitle|].
  assert (H : read FcleanedTitle parsed = read FcleanedTitle (state 11)).
  { apply settled_after. intros j [H1 H2].
    do 11 (destruct j as [|j]; [lia|]).
    destruct j as [|j]; [simpl; solve [intuition discriminate] | lia]. }
  unfold read in H. injection H as H. rewrite H.
  change (state 11) with (pass_cleanedTitle title originalSearchTitle (state 10)).
  unfold pass_cleanedTitle, set_cleanedTitle, cleanedTitle.
  eexists. split; [reflexivity | apply cleanTitle_trimmed_eq].
Qed.

End ParsedTitles.

(** The parser on sample titles. *)
Lemma parseTorrentTitle_year_range_witness : (1980 <= 1999 <= 2029)%Z.
Proof.
  apply (parseTorrentTitle_year_range "Movie.1999.720p.BluRay" None None
           1999%Z); vm_compute; reflexivity.
Defined.

Lemma parseTorrentTitle_releaseGroup_witness :
  exists pre a1 more,
    S_ "Movie.2019.1080p.BluRay.x264-GRP" = pre ++ S_ "x264-GRP"
    /\ S_ "x264-GRP" = a1 ++ more
    /\ a1 <> [] /\ forallb is_alnum a1 = true
    /\ (more = []
        \/ exists a2, more = "-"%char :: a2 /\ a2 <> []
                      /\ forallb is_alnum a2 = true).
Proof.
  apply (parseTorrentTitle_releaseGroup "Movie.2019.1080p.BluRay.x264-GRP"
           None None (S_ "x264-GRP")).
  vm_compute. reflexivity.
Defined.

(** ** standardizeYear *)

(** The text the pattern of [standardizeYear] accepts: four digits that
    spell a number from 1800 to 2099. *)
Lemma yearRegex_accepts (p p' : pos) (c' : caps) :
  accepts false (body yearRegex) p [] p' c' ->
  exists y, rest p = y ++ rest p' /\ length y = 4
            /\ forallb is_digit y = true
            /\ (1800 <= parseInt y <= 2099)%Z.
Proof.
  unfold yearRegex. cbn [body seq]. intros H.
  cbn [accepts rep upto opt lit chr digit S_ list_ascii_of_string Nat.sub] in H.
  destruct H as (q1 & d1 & (_ & -> & ->) & q2 & d2 & Hy & (_ & -> & ->)).
  destruct Hy as [Hy|Hy].
  - destruct Hy as (q3 & d3 & (a1 & tl1 & E1 & D1 & -> & ->)
                    & q4 & d4 & (a2 & tl2 & E2 & D2 & -> & ->)
                    & q5 & d5 & (a3 & tl3 & E3 & D3 & -> & ->)
                    & q6 & d6 & (a4 & tl4 & E4 & D4 & -> & ->)
                    & (-> & ->)).
    cbn [rest] in *. subst. apply in_cset_char in D1. subst a1.
    rewrite in_cset_digit in D3, D4.
    exists ["1"; a2; a3; a4]%char. rewrite E1. split; [reflexivity|].
    split; [reflexivity|].
    assert (H2 : is_digit a2 = true /\ (8 <= digit_val a2 <= 9)%Z).
    { apply in_cset_two in D2 as [-> | ->]; vm_compute;
        repeat split; discriminate. }
    destruct H2 as [H2 R2]. split.
    + cbn [forallb]. now rewrite H2, D3, D4.
    + apply digit_val_range in D3, D4. unfold parseInt. cbn [fold_left].
      change (digit_val "1") with 1%Z. lia.
  - destruct Hy as (q3 & d3 & (q7 & d7 & (a1 & tl1 & E1 & D1 & -> & ->)
                               & (a2 & tl2 & E2 & D2 & -> & ->))
                    & q5 & d5 & (a3 & tl3 & E3 & D3 & -> & ->)
                    & q6 & d6 & (a4 & tl4 & E4 & D4 & -> & ->)
                    & (-> & ->)).
    cbn [rest] in *. subst. apply in_cset_char in D1, D2. subst a1 a2.
    rewrite in_cset_digit in D3, D4.
    exists ["2"; "0"; a3; a4]%char. rewrite E1. split; [reflexivity|].
    split; [reflexivity|]. split.
    + cbn [forallb]. now rewrite D3, D4.
    + apply digit_val_range in D3, D4. unfold parseInt. cbn [fold_left].
      change (digit_val "2") with 2%Z. change (digit_val "0") with 0%Z. lia.
Qed.

(** A year [standardizeYear] returns is spelled by four digits of the
    trimmed input, and lies between 1880 and the smaller of 2099 and the
    current year plus five. *)
Theorem standardizeYear_sound (currentYear : Z) (yearInput : str) (y : Z) :
  standardizeYear currentYear yearInput = Some y ->
  (1880 <= y <= 2099)%Z /\ (y <= currentYear + 5)%Z
  /\ exists pre digits post,
       trim yearInput = pre ++ digits ++ post
       /\ length digits = 4 /\ forallb is_digit digits = true
       /\ parseInt digits = y.
Proof.
  unfold standardizeYear.
  destruct (exec yearRegex (trim yearInput)) as [m|] eqn:E; [|discriminate].
  apply exec_accepts in E as (p' & Hacc & _ & Hs & Hr & Hsplit).
  apply yearRegex_accepts in Hacc as (d & Ed & Hl & Hd & Hrange).
  rewrite rest_pos_at, Hs, Hr in Ed. apply app_inv_tail in Ed.
  destruct (nonempty (whole m)); [|discriminate].
  destruct (Z.leb_spec 1880 (parseInt (whole m))) as [H1|]; [|discriminate].
  destruct (Z.leb_spec (parseInt (whole m)) (currentYear + 5)) as [H2|];
    [|discriminate].
  cbn [andb]. intros H. injection H as <-. rewrite Ed in *.
  split; [lia|]. split; [exact H2|].
  exists (firstn (index m) (trim yearInput)), d, (after_rest m).
  repeat split; assumption.
Qed.

Lemma standardizeYear_sound_witness :
  (1880 <= 2023 <= 2099)%Z /\ (2023 <= 2026 + 5)%Z
  /\ exists pre digits post,
       trim (S_ " 2023-10-26T00:00:00Z") = pre ++ digits ++ post
       /\ length digits = 4 /\ forallb is_digit digits = true
       /\ parseInt digits = 2023%Z.
Proof.
  apply (standardizeYear_sound 2026%Z " 2023-10-26T00:00:00Z" 2023%Z).
  vm_compute. reflexivity.
Defined.

Lemma trimStart_app_clean (x y : str) :
  y <> [] -> startsClean y -> trimStart (x ++ y) = trimStart x ++ y.
Proof.
  intros Hne Hy. induction x as [|c x IH]; simpl.
  - now apply trimStart_fixed.
  - destruct (is_space c); [exact IH | reflexivity].
Qed.

(** Trimming a text that starts with characters other than white space
    only shortens what follows them. *)
Lemma trim_keeps_head (d tail : str) :
  d <> [] -> forallb (fun c => negb (is_space c)) d = true ->
  exists tail' cut, trim (d ++ tail) = d ++ tail' /\ tail = tail' ++ cut.
Proof.
  intros Hne Hd. unfold trim.
  assert (H1 : trimStart (d ++ tail) = d ++ tail).
  { apply trimStart_fixed. destruct d as [|c d]; [contradiction|].
    simpl in *. apply andb_true_iff in Hd as [Hc _].
    now apply negb_true_iff in Hc. }
  rewrite H1, rev_app_distr.
  assert (H2 : startsClean (rev d)).
  { clear H1 Hne. induction d as [|c d IH]; [exact I|].
    simpl in Hd. apply andb_true_iff in Hd as [Hc Hd]. simpl.
    destruct (rev d) as [|x r] eqn:Er.
    - simpl. now apply negb_true_iff in Hc.
    - simpl. exact (IH Hd). }
  rewrite trimStart_app_clean; [|intros E; apply Hne;
                                 now rewrite <- (rev_involutive d), E|exact H2].
  rewrite rev_app_distr, rev_involutive.
  destruct (trimStart_suffix (rev tail)) as [pre E].
  exists (rev (trimStart (rev tail))), (rev pre). split; [reflexivity|].
  rewrite <- rev_app_distr, <- E. symmetry. apply rev_involutive.
Qed.

Lemma digit_not_space (c : ascii) : is_digit c = true -> is_space c = false.
Proof.
  destruct c as [[|] [|] [|] [|] [|] [|] [|] [|]]; vm_compute; congruence.
Qed.

(** The pattern of [standardizeYear] at the start of a text that begins
    with the four digits of a year 18dd, 19dd or 20dd and goes on with
    something else than a digit. *)
Lemma yearRegex_leading (a b c d : ascii) (r : str) :
  (a = "1"%char /\ (b = "8"%char \/ b = "9"%char))
  \/ (a = "2"%char /\ b = "0"%char) ->
  is_digit c = true -> is_digit d = true -> stops false [CDigit] r ->
  match_here yearRegex (Pos None (a :: b :: c :: d :: r))
  = Some (Pos (Some d) r, []).
Proof.
  intros Hab Hc Hd Hr.
  assert (Hc' : in_cset false [CDigit] c = true) by now rewrite in_cset_digit.
  assert (Hd' : in_cset false [CDigit] d = true) by now rewrite in_cset_digit.
  unfold match_here, yearRegex.
  destruct r as [|x r']; [|unfold stops in Hr];
    destruct Hab as [[-> [-> | ->]] | [-> ->]];
    cbn [body ignoreCase seq rmatch rep upto opt lit chr digit before rest S_
         list_ascii_of_string Nat.sub];
    repeat match goal with
           | |- context [in_cset false ?cs (Ascii ?b0 ?b1 ?b2 ?b3 ?b4 ?b5 ?b6 ?b7)] =>
               let v := eval vm_compute in
                          (in_cset false cs (Ascii b0 b1 b2 b3 b4 b5 b6 b7)) in
               change (in_cset false cs (Ascii b0 b1 b2 b3 b4 b5 b6 b7)) with v
           end;
    cbv iota; rewrite Hc', Hd', ?Hr; reflexivity.
Qed.

(** On a text that starts with the year, such as a release date
    "YYYY-MM-DD", [standardizeYear] answers that year when it lies between
    1880 and the current year plus five, and nothing otherwise: a later year
    in the text is not looked for. *)
Theorem standardizeYear_leading_year (currentYear : Z) (a b c d : ascii)
    (tail : str) :
  (a = "1"%char /\ (b = "8"%char \/ b = "9"%char))
  \/ (a = "2"%char /\ b = "0"%char) ->
  is_digit c = true -> is_digit d = true -> stops false [CDigit] tail ->
  standardizeYear currentYear (a :: b :: c :: d :: tail)
  = if (1880 <=? parseInt [a; b; c; d])%Z
       && (parseInt [a; b; c; d] <=? currentYear + 5)%Z
    then Some (parseInt [a; b; c; d]) else None.
Proof.
  intros Hab Hc Hd Hr.
  assert (Ha : is_digit a = true /\ is_digit b = true).
  { destruct Hab as [[-> [-> | ->]] | [-> ->]]; split; reflexivity. }
  destruct Ha as [Ha Hb].
  destruct (trim_keeps_head [a; b; c; d] tail ltac:(discriminate))
    as (tail' & cut & Et & Ec).
  { cbn [forallb]. now rewrite !digit_not_space. }
  change ([a; b; c; d] ++ tail) with (a :: b :: c :: d :: tail) in Et.
  unfold standardizeYear. rewrite Et.
  assert (Hr' : stops false [CDigit] tail').
  { destruct tail' as [|x t]; [exact I|]. rewrite Ec in Hr. exact Hr. }
  pose proof (yearRegex_leading a b c d tail' Hab Hc Hd Hr') as Hm.
  unfold exec. change ([a; b; c; d] ++ tail') with (a :: b :: c :: d :: tail').
  rewrite (exec_from_leftmost yearRegex 0 _ None 0 _ (Nat.le_0_l _) Hm)
    by (intros j Hj; lia).
  unfold result_at, whole, consumed. cbn [fst rest pos_from skipn length app].
  replace (S (S (S (S (length tail')))) - length tail') with 4 by lia.
  cbn [firstn nonempty]. reflexivity.
Qed.

Lemma standardizeYear_leading_year_witness :
  standardizeYear 2026%Z "2023-10-26T00:00:00Z"
  = if (1880 <=? parseInt "2023")%Z && (parseInt "2023" <=? 2026 + 5)%Z
    then Some (parseInt "2023") else None.
Proof.
  apply (standardizeYear_leading_year 2026%Z "2" "0" "2" "3"
           "-10-26T00:00:00Z").
  - right. split; reflexivity.
  - reflexivity.
  - reflexivity.
  - reflexivity.
Defined.

(** ** Global replacement *)

Lemma replace_from_no_match (re : RegExp) (repl : str) (free : str -> Prop) :
  (forall a tl, free (a :: tl) -> free tl) ->
  (forall prev s, free s -> match_here re (Pos prev s) = None) ->
  forall fuel prev s, free s -> replace_from fuel re repl prev s = s.
Proof.
  intros Htl Hnone. induction fuel as [|fuel IH]; intros prev s Hs;
    [reflexivity|].
  cbn [replace_from]. rewrite (Hnone prev s Hs).
  destruct s as [|a tl]; [reflexivity|]. f_equal. apply IH. now apply (Htl a).
Qed.

Lemma exec_from_no_match (re : RegExp) (free : str -> Prop) :
  (forall a tl, free (a :: tl) -> free tl) ->
  (forall prev s, free s -> match_here re (Pos prev s) = None) ->
  forall s prev i, free s -> exec_from re prev s i = None.
Proof.
  intros Htl Hnone. induction s as [|a tl IH]; intros prev i Hs;
    cbn [exec_from]; rewrite (Hnone prev _ Hs); [reflexivity|].
  apply IH. now apply (Htl a).
Qed.

Lemma avoids_tail (ic : bool) (cs : list cset) (a : ascii) (tl : str) :
  avoids ic cs (a :: tl) -> avoids ic cs tl.
Proof. intros H. now inversion H. Qed.

(** A pattern that starts with a character of a class finds nothing in a
    text without such characters. *)
Lemma class_start_no_match (ic : bool) (cs : list cset) (r : regex)
    (prev : option ascii) (s : str) :
  avoids ic cs s ->
  match_here (Re (RSeq (RSet cs) r) ic) (Pos prev s) = None.
Proof.
  intros H. unfold match_here. cbn [body ignoreCase rmatch rest].
  destruct s as [|a tl]; [reflexivity|]. inversion H as [|? ? Ha _]; subst.
  now rewrite Ha.
Qed.

Lemma class_no_match (ic : bool) (cs : list cset) (prev : option ascii)
    (s : str) :
  avoids ic cs s -> match_here (Re (RSet cs) ic) (Pos prev s) = None.
Proof.
  intros H. unfold match_here. cbn [body ignoreCase rmatch rest].
  destruct s as [|a tl]; [reflexivity|]. inversion H as [|? ? Ha _]; subst.
  now rewrite Ha.
Qed.

(** Replacing every character of a class. *)
Lemma replace_from_class (ic : bool) (cs : list cset) (repl : str) :
  forall fuel s prev,
    length s < fuel ->
    replace_from fuel (Re (RSet cs) ic) repl prev s
    = flat_map (fun a => if in_cset ic cs a then repl else [a]) s.
Proof.
  induction fuel as [|fuel IH]; intros s prev Hf; [lia|].
  destruct s as [|a tl]; cbn [replace_from flat_map].
  - unfold match_here. cbn [body ignoreCase rmatch rest]. reflexivity.
  - unfold match_here. cbn [body ignoreCase rmatch rest].
    simpl in Hf. destruct (in_cset ic cs a).
    + cbn [rest before]. rewrite (proj2 (Nat.ltb_lt _ _)) by (simpl; lia).
      f_equal. apply IH. lia.
    + simpl. f_equal. apply IH. lia.
Qed.

(** The longest run of characters of a class at the start of a text. *)
Lemma leading_run (ic : bool) (cs : list cset) (s : str) :
  exists ds r, s = ds ++ r /\ forallb (in_cset ic cs) ds = true
               /\ stops ic cs r.
Proof.
  induction s as [|a tl (ds & r & E & Hds & Hr)].
  - exists [], []. repeat split.
  - destruct (in_cset ic cs a) eqn:Ea.
    + exists (a :: ds), r. rewrite E. simpl. rewrite Ea, Hds. auto.
    + exists [], (a :: tl). repeat split. exact Ea.
Qed.

Lemma squeeze_run (ic : bool) (cs : list cset) (repl : str) (ds r : str) :
  forallb (in_cset ic cs) ds = true ->
  squeeze ic cs repl true (ds ++ r) = squeeze ic cs repl true r.
Proof.
  induction ds as [|d ds IH]; intros H; [reflexivity|].
  simpl in H. apply andb_true_iff in H as [Hd H]. simpl. rewrite Hd.
  now apply IH.
Qed.

Lemma squeeze_after_run (ic : bool) (cs : list cset) (repl : str) (r : str) :
  stops ic cs r -> squeeze ic cs repl true r = squeeze ic cs repl false r.
Proof.
  destruct r as [|a r]; [reflexivity|]. simpl. now intros ->.
Qed.

(** Replacing every run of characters of a class. *)
Lemma replace_from_runs (ic : bool) (cs : list cset) (repl : str) :
  forall fuel s prev,
    length s < fuel ->
    replace_from fuel (Re (plus (RSet cs)) ic) repl prev s
    = squeeze ic cs repl false s.
Proof.
  induction fuel as [|fuel IH]; intros s prev Hf; [lia|].
  destruct s as [|a tl].
  - cbn [replace_from]. unfold match_here, plus.
    cbn [body ignoreCase rmatch rest]. reflexivity.
  - destruct (in_cset ic cs a) eqn:Ea.
    + destruct (leading_run ic cs tl) as (ds & r & E & Hds & Hr).
      assert (Hm : match_here (Re (plus (RSet cs)) ic)
                              (Pos prev ((a :: ds) ++ r))
                   = Some (Pos (prev_after prev (a :: ds)) r, [])).
      { unfold match_here. cbn [body ignoreCase].
        apply plus_class_greedy; [|exact Hr|reflexivity].
        simpl. now rewrite Ea, Hds. }
      cbn [replace_from]. rewrite E. change (a :: ds ++ r) with ((a :: ds) ++ r).
      rewrite Hm. cbn [rest before].
      rewrite (proj2 (Nat.ltb_lt _ _)) by (rewrite length_app; simpl; lia).
      rewrite IH by (simpl in Hf; rewrite E, length_app in Hf; lia).
      simpl. rewrite Ea. f_equal.
      rewrite squeeze_run by exact Hds. symmetry. now apply squeeze_after_run.
    + cbn [replace_from].
      assert (Hm : match_here (Re (plus (RSet cs)) ic) (Pos prev (a :: tl))
                   = None).
      { unfold match_here, plus. cbn [body ignoreCase rmatch rest].
        now rewrite Ea. }
      rewrite Hm. simpl. rewrite Ea. f_equal. apply IH. simpl in Hf. lia.
Qed.

Lemma replaceAll_runs (ic : bool) (cs : list cset) (repl s : str) :
  replaceAll (Re (plus (RSet cs)) ic) repl s = squeeze ic cs repl false s.
Proof. unfold replaceAll. apply replace_from_runs. lia. Qed.

(** What a replacement leaves comes from the text or from the replacement. *)
Lemma replace_from_In (re : RegExp) (repl : str) (x : ascii) :
  forall fuel prev s,
    In x (replace_from fuel re repl prev s) -> In x s \/ In x repl.
Proof.
  induction fuel as [|fuel IH]; intros prev s H; [now left|].
  cbn [replace_from] in H.
  assert (Hstep : In x match s with
                       | [] => []
                       | a :: tl => a :: replace_from fuel re repl (Some a) tl
                       end -> In x s \/ In x repl).
  { destruct s as [|a tl]; [tauto|]. intros [->|Hin]; [left; now left|].
    apply IH in Hin as [Hin|Hin]; [left; now right | now right]. }
  destruct (match_here re (Pos prev s)) as [[p' c']|] eqn:E;
    [|now apply Hstep].
  unfold match_here in E. apply rmatch_accepts in E as (q & d & Hacc & Hk).
  injection Hk as -> ->. apply accepts_reads in Hacc as (t & Et & _).
  cbn [rest] in Et.
  destruct (length (rest p') <? length s).
  - apply in_app_or in H as [H|H]; [now right|].
    apply IH in H as [H|H]; [|now right].
    left. rewrite Et. apply in_or_app. now right.
  - apply in_app_or in H as [H|H]; [now right | now apply Hstep].
Qed.

Lemma replaceFirst_In (re : RegExp) (repl s : str) (x : ascii) :
  In x (replaceFirst re repl s) -> In x s \/ In x repl.
Proof.
  unfold replaceFirst. destruct (exec re s) as [m|] eqn:E; [|now left].
  apply exec_accepts in E as (p' & _ & _ & _ & _ & Hs). intros H.
  apply in_app_or in H as [H|H].
  - left. rewrite Hs. apply in_or_app. now left.
  - apply in_app_or in H as [H|H]; [now right|].
    left. rewrite Hs. apply in_or_app. right. apply in_or_app. now right.
Qed.

(** ** The clean-up of titles *)

Lemma squeeze_In (ic : bool) (cs : list cset) (repl : str) (x : ascii) :
  forall s b, In x (squeeze ic cs repl b s) -> In x s \/ In x repl.
Proof.
  induction s as [|a tl IH]; intros b H; [now left|]. simpl in H.
  destruct (in_cset ic cs a).
  - destruct b.
    + apply IH in H as [H|H]; [left; now right | now right].
    + apply in_app_or in H as [H|H]; [now right|].
      apply IH in H as [H|H]; [left; now right | now right].
  - destruct H as [->|H]; [left; now left|].
    apply IH in H as [H|H]; [left; now right | now right].
Qed.

Lemma squeeze_avoids (ic : bool) (cs : list cset) (repl : str) :
  avoids ic cs repl -> forall s b, avoids ic cs (squeeze ic cs repl b s).
Proof.
  intros Hr. induction s as [|a tl IH]; intros b; [constructor|]. simpl.
  destruct (in_cset ic cs a) eqn:Ea.
  - destruct b; [apply IH|]. apply Forall_app. split; [exact Hr | apply IH].
  - constructor; [exact Ea | apply IH].
Qed.

Lemma squeeze_fixed (ic : bool) (cs : list cset) (repl s : str) :
  avoids ic cs s -> squeeze ic cs repl false s = s.
Proof.
  induction 1 as [|a tl Ha _ IH]; [reflexivity|]. simpl. now rewrite Ha, IH.
Qed.

Lemma squeeze_singleSpaced (s : str) : forall b,
  singleSpaced b (squeeze false [CSpace] " " b s) = true.
Proof.
  induction s as [|a tl IH]; intros b; [reflexivity|].
  cbn [squeeze]. rewrite in_cset_space. destruct (is_space a) eqn:Ea.
  - destruct b; [apply IH|]. cbn [app S_ list_ascii_of_string singleSpaced].
    change (is_space " ") with true. cbv iota.
    change (ascii_eqb " " " ") with true. cbn [andb negb]. apply IH.
  - cbn [singleSpaced]. rewrite Ea. apply IH.
Qed.

Lemma singleSpaced_fixed (s : str) : forall b,
  singleSpaced b s = true -> squeeze false [CSpace] " " b s = s.
Proof.
  induction s as [|a tl IH]; intros b H; [reflexivity|].
  cbn [squeeze singleSpaced] in *. rewrite in_cset_space.
  destruct (is_space a) eqn:Ea.
  - apply andb_true_iff in H as [H H2]. apply andb_true_iff in H as [H0 H1].
    apply ascii_eqb_eq in H0. subst a. destruct b; [discriminate H1|].
    rewrite (IH true H2). reflexivity.
  - now rewrite (IH false H).
Qed.

Lemma singleSpaced_weaken (s : str) (b : bool) :
  singleSpaced b s = true -> singleSpaced false s = true.
Proof.
  destruct s as [|a tl]; [reflexivity|]. cbn [singleSpaced].
  destruct (is_space a); [|auto]. intros H.
  apply andb_true_iff in H as [H H2]. apply andb_true_iff in H as [H0 _].
  now rewrite H0, H2.
Qed.

Lemma singleSpaced_segment (pre mid post : str) : forall b,
  singleSpaced b (pre ++ mid ++ post) = true -> singleSpaced false mid = true.
Proof.
  assert (Hpre : forall mid b, singleSpaced b (mid ++ post) = true ->
                               singleSpaced b mid = true).
  { induction mid0 as [|a tl IH]; intros b H; [reflexivity|].
    cbn [app singleSpaced] in *. destruct (is_space a).
    - apply andb_true_iff in H as [H H2]. rewrite H. now apply IH.
    - now apply IH. }
  induction pre as [|a tl IH]; intros b H.
  - apply (singleSpaced_weaken _ b). now apply Hpre.
  - cbn [app singleSpaced] in H. destruct (is_space a).
    + apply andb_true_iff in H as [_ H]. now apply (IH true).
    + now apply (IH false).
Qed.

Lemma trim_segment (s : str) : exists pre post, s = pre ++ trim s ++ post.
Proof.
  unfold trim. destruct (trimStart_suffix s) as [pre E].
  destruct (trimStart_suffix (rev (trimStart s))) as [post' E'].
  exists pre, (rev post'). rewrite <- rev_app_distr, <- E', rev_involutive.
  exact E.
Qed.

(** The clean-up [.replace(/[._-]+/g, ' ').replace(/\s+/g, ' ').trim()]
    returns a text in clean form, and leaves a text in clean form as it
    is. *)
Lemma collapse_clean (s : str) : cleanText (collapse s).
Proof.
  unfold collapse, spacesRegex, separatorsRegex. rewrite !replaceAll_runs.
  fold titleSeparators.
  set (t := squeeze false [CSpace] " " false
              (squeeze false titleSeparators " " false s)).
  destruct (trim_segment t) as (pre & post & E).
  split; [|split].
  - assert (Ht : avoids false titleSeparators t).
    { apply Forall_forall. intros x Hx. unfold t in Hx.
      apply squeeze_In in Hx as [Hx|Hx].
      - pose proof (squeeze_avoids false titleSeparators " "
                      ltac:(repeat constructor) s false) as Hs.
        unfold avoids in Hs. rewrite Forall_forall in Hs. now apply Hs.
      - destruct Hx as [<-|[]]. reflexivity. }
    unfold avoids in *. rewrite E in Ht.
    apply Forall_app in Ht as [_ Ht]. now apply Forall_app in Ht as [Ht _].
  - apply (singleSpaced_segment pre _ post false). rewrite <- E.
    apply squeeze_singleSpaced.
  - apply trim_trim.
Qed.

Lemma collapse_fixed (s : str) : cleanText s -> collapse s = s.
Proof.
  intros (Ha & Hs & Ht). unfold collapse, spacesRegex, separatorsRegex.
  rewrite !replaceAll_runs. fold titleSeparators.
  rewrite (squeeze_fixed _ _ _ _ Ha), (singleSpaced_fixed _ _ Hs). exact Ht.
Qed.

(** [cleanTitle] returns a text in clean form (no [.], [_] or [-], single
    blanks only, none at either end), on which its clean-up is the
    identity, whenever it returns the primary result or the fallback's
    stripping leaves something; only when the fallback leaves nothing does
    it return the last resort, the trimmed title with the release group
    removed when there is one. *)
Theorem cleanTitle_clean_form (title : str) (parsedMeta : ParsedMetadata)
    (originalSearchTitle : option str) :
  let cleaned := cleanTitle title parsedMeta originalSearchTitle in
  let stripped := fallbackStripped title parsedMeta originalSearchTitle in
  (takesFallback title parsedMeta = false ->
   cleaned = primaryClean title parsedMeta
   /\ cleanText cleaned /\ collapse cleaned = cleaned)
  /\ (takesFallback title parsedMeta = true -> stripped <> [] ->
      cleaned = stripped /\ cleanText cleaned /\ collapse cleaned = cleaned)
  /\ (takesFallback title parsedMeta = true -> stripped = [] ->
      cleaned = lastResort title parsedMeta /\ trim cleaned = cleaned).
Proof.
  assert (Hc : forall x, cleanText (collapse x)
                         /\ collapse (collapse x) = collapse x).
  { intros x. split; [apply collapse_clean|].
    apply collapse_fixed, collapse_clean. }
  cbv zeta. rewrite cleanTitle_cases, fallbackClean_cases.
  split; [|split].
  - intros ->. split; [reflexivity|]. unfold primaryClean. apply Hc.
  - intros -> Hs.
    destruct (fallbackStripped title parsedMeta originalSearchTitle)
      as [|c l] eqn:E; [contradiction|].
    split; [reflexivity|]. rewrite <- E. unfold fallbackStripped. apply Hc.
  - intros -> ->. split; [reflexivity|]. unfold lastResort.
    destruct (releaseGroup parsedMeta) as [[|c g]|]; apply trim_trim.
Qed.

(** ** standardizeTitle *)

Lemma avoids_subset (ic : bool) (cs cs' : list cset) (s : str) :
  (forall x, In x cs' -> In x cs) -> avoids ic cs s -> avoids ic cs' s.
Proof.
  intros Hsub H. unfold avoids in *. rewrite Forall_forall in *.
  intros a Ha. specialize (H a Ha). unfold in_cset in *.
  destruct (existsb (fun x => in_cset1 ic x a) cs') eqn:E; [|reflexivity].
  apply existsb_exists in E as (x & Hx & Hxa).
  assert (Hc : existsb (fun x => in_cset1 ic x a) cs = true).
  { apply existsb_exists. exists x. split; [now apply Hsub | exact Hxa]. }
  congruence.
Qed.

Lemma runs_start_no_match (ic : bool) (cs : list cset) (r : regex)
    (prev : option ascii) (s : str) :
  avoids ic cs s ->
  match_here (Re (RSeq (plus (RSet cs)) r) ic) (Pos prev s) = None.
Proof.
  intros H. unfold match_here, plus. cbn [body ignoreCase rmatch rest].
  destruct s as [|a tl]; [reflexivity|]. inversion H as [|? ? Ha _]; subst.
  now rewrite Ha.
Qed.

Lemma replaceAll_untouched (ic : bool) (cs : list cset) (re : RegExp)
    (repl s : str) :
  (forall prev t, avoids ic cs t -> match_here re (Pos prev t) = None) ->
  avoids ic cs s -> replaceAll re repl s = s.
Proof.
  intros Hn Hs. unfold replaceAll.
  apply (replace_from_no_match re repl (avoids ic cs)); try assumption.
  apply avoids_tail.
Qed.

Lemma replaceFirst_untouched (ic : bool) (cs : list cset) (re : RegExp)
    (repl s : str) :
  (forall prev t, avoids ic cs t -> match_here re (Pos prev t) = None) ->
  avoids ic cs s -> replaceFirst re repl s = s.
Proof.
  intros Hn Hs. unfold replaceFirst, exec.
  rewrite (exec_from_no_match re (avoids ic cs)); try assumption;
    [reflexivity | apply avoids_tail].
Qed.

Lemma avoids_space_clean (s : str) :
  avoids false [CSpace] s -> startsClean s /\ startsClean (rev s).
Proof.
  intros H. assert (Hr : avoids false [CSpace] (rev s)).
  { unfold avoids in *. rewrite Forall_forall in *. intros a Ha.
    apply H. now apply in_rev. }
  split; [destruct H as [|a tl Ha _] | destruct Hr as [|a tl Ha _]];
    try exact I; simpl; now rewrite in_cset_space in Ha.
Qed.

Lemma standardizeTitle_untouched (title : str) :
  avoids false wordBreaks title -> standardizeTitle title = title.
Proof.
  intros H. destruct title as [|c title]; [reflexivity|].
  assert (Hsp : avoids false [CSpace] (c :: title)).
  { apply (avoids_subset false wordBreaks); [|exact H].
    intros x [<-|[]]. now left. }
  assert (Hpu : avoids false [CChar "."; CChar "_"; CChar "("; CChar ")";
                              CChar "["; CChar "]"] (c :: title)).
  { apply (avoids_subset false wordBreaks); [|exact H].
    intros x Hx. right. simpl in Hx. simpl. tauto. }
  assert (Hhy : avoids false [CChar "-"] (c :: title)).
  { apply (avoids_subset false wordBreaks); [|exact H].
    intros x [<-|[]]. simpl. tauto. }
  assert (Hruns : forall re r repl,
             body re = RSeq (plus (RSet [CSpace])) r ->
             replaceAll re repl (c :: title) = c :: title
             /\ replaceFirst re repl (c :: title) = c :: title).
  { intros [b ic] r repl E. cbn [body] in E. subst b.
    assert (Hic : avoids ic [CSpace] (c :: title)).
    { unfold avoids in *. rewrite Forall_forall in *. intros a Ha.
      rewrite in_cset_space. specialize (Hsp a Ha).
      now rewrite in_cset_space in Hsp. }
    split.
    - apply (replaceAll_untouched ic [CSpace]); [|exact Hic].
      intros prev t. apply runs_start_no_match.
    - apply (replaceFirst_untouched ic [CSpace]); [|exact Hic].
      intros prev t. apply runs_start_no_match. }
  unfold standardizeTitle.
  rewrite (proj1 (Hruns ampersandRegex _ " and " eq_refl)).
  rewrite (proj1 (Hruns andRegex _ " and " eq_refl)).
  rewrite (replaceAll_untouched false _ punctuationRegex " " _
             (fun prev t => class_no_match false _ prev t) Hpu).
  rewrite (replaceAll_untouched false _ hyphenRegex " " _
             (fun prev t => class_no_match false _ prev t) Hhy).
  unfold spacesRegex. rewrite replaceAll_runs.
  rewrite (squeeze_fixed _ _ _ _ Hsp).
  destruct (avoids_space_clean _ Hsp) as [Hc1 Hc2].
  rewrite (trim_fixed _ Hc1 Hc2).
  rewrite (proj2 (Hruns trailingYearRegex _ [] eq_refl)).
  rewrite (proj2 (Hruns trailingEpisodeRegex _ [] eq_refl)).
  rewrite (proj2 (Hruns trailingSeasonRegex _ [] eq_refl)).
  assert (Htags : forall tags,
             fold_left (fun standardized tag =>
                          replaceAll (tagRegex tag) [] standardized)
                       tags (c :: title) = c :: title).
  { induction tags as [|tag tags IH]; [reflexivity|]. cbn [fold_left].
    rewrite (proj1 (Hruns (tagRegex tag) _ [] eq_refl)). exact IH. }
  rewrite Htags. now apply trim_fixed.
Qed.

(** A title made of one word (no white space, none of [. _ ( ) [ ] -]),
    such as an IMDB identifier, is returned unchanged. *)
Theorem standardizeTitle_plain_word (title : str) :
  avoids false wordBreaks title -> standardizeTitle title = title.
Proof. exact (standardizeTitle_untouched title). Qed.

Lemma standardizeTitle_plain_word_witness :
  standardizeTitle "tt0123456" = S_ "tt0123456".
Proof.
  apply (standardizeTitle_plain_word "tt0123456").
  unfold avoids. repeat constructor.
Defined.

Lemma replaceAll_class (ic : bool) (cs : list cset) (repl s : str) :
  replaceAll (Re (RSet cs) ic) repl s
  = flat_map (fun a => if in_cset ic cs a then repl else [a]) s.
Proof. unfold replaceAll. apply replace_from_class. lia. Qed.

Lemma replaceAll_In (re : RegExp) (repl s : str) (x : ascii) :
  In x (replaceAll re repl s) -> In x s \/ In x repl.
Proof. unfold replaceAll. apply replace_from_In. Qed.

Lemma squeeze_class_In (ic : bool) (cs : list cset) (repl : str) (x : ascii) :
  forall s b,
    In x (squeeze ic cs repl b s) -> in_cset ic cs x = true -> In x repl.
Proof.
  induction s as [|a tl IH]; intros b H Hx; [contradiction|]. simpl in H.
  destruct (in_cset ic cs a) eqn:Ea.
  - destruct b; [now apply (IH true)|].
    apply in_app_or in H as [H|H]; [exact H | now apply (IH true)].
  - destruct H as [->|H]; [congruence | now apply (IH false)].
Qed.

Lemma trim_In (s : str) (x : ascii) : In x (trim s) -> In x s.
Proof.
  destruct (trim_segment s) as (pre & post & E). intros H. rewrite E.
  apply in_or_app. right. apply in_or_app. now left.
Qed.

Lemma standardizeTitle_cons (t0 : ascii) (title : str) :
  standardizeTitle (t0 :: title)
  = trim (fold_left (fun standardized tag =>
                       replaceAll (tagRegex tag) [] standardized) commonTags
            (replaceFirst trailingSeasonRegex []
               (replaceFirst trailingEpisodeRegex []
                  (replaceFirst trailingYearRegex []
                     (trim (replaceAll spacesRegex " "
                        (replaceAll hyphenRegex " "
                           (replaceAll punctuationRegex " "
                              (replaceAll andRegex " and "
                                 (replaceAll ampersandRegex " and "
                                    (t0 :: title))))))))))).
Proof. reflexivity. Qed.

Lemma standardizeTitle_normal (title : str) :
  trim (standardizeTitle title) = standardizeTitle title
  /\ forall c, In c (standardizeTitle title) ->
       in_cset false titlePunctuation c = false
       /\ (is_space c = true -> c = " "%char).
Proof.
  split; [destruct title; [reflexivity | apply trim_trim]|].
  intros c Hc. destruct title as [|t0 title]; [contradiction|].
  rewrite standardizeTitle_cons in Hc.
  remember (replaceAll andRegex " and "
              (replaceAll ampersandRegex " and " (t0 :: title))) as s1 eqn:Es1.
  clear Es1.
  remember (replaceAll hyphenRegex " "
              (replaceAll punctuationRegex " " s1)) as s2 eqn:Es2.
  remember (trim (replaceAll spacesRegex " " s2)) as s3 eqn:Es3.
  assert (H3 : In c s3).
  { apply trim_In in Hc.
    assert (Htags : forall tags s, In c (fold_left
                       (fun standardized tag =>
                          replaceAll (tagRegex tag) [] standardized) tags s) ->
                     In c s).
    { induction tags as [|tag tags IH]; intros s H; [exact H|].
      cbn [fold_left] in H. apply IH in H.
      apply replaceAll_In in H as [H|[]]. exact H. }
    apply Htags in Hc.
    repeat (apply replaceFirst_In in Hc as [Hc|[]]). exact Hc. }
  rewrite Es3 in H3. apply trim_In in H3.
  unfold spacesRegex in H3. rewrite replaceAll_runs in H3.
  assert (H2 : forall x, In x s2 -> in_cset false titlePunctuation x = false).
  { intros x Hx. rewrite Es2 in Hx. unfold hyphenRegex, punctuationRegex, chr in Hx.
    rewrite !replaceAll_class in Hx.
    apply in_flat_map in Hx as (y & Hy & Hx).
    apply in_flat_map in Hy as (z & Hz & Hy).
    destruct (in_cset false [CChar "-"] y) eqn:E1;
      [destruct Hx as [<-|[]]; reflexivity|].
    destruct Hx as [<-|[]].
    destruct (in_cset false [CChar "."; CChar "_"; CChar "("; CChar ")";
                             CChar "["; CChar "]"] z) eqn:E2.
    - destruct Hy as [<-|[]]. reflexivity.
    - destruct Hy as [<-|[]]. revert E1 E2. unfold titlePunctuation, in_cset.
      cbn [existsb]. rewrite !orb_false_r. clear. intros E1 E2.
      rewrite !orb_false_iff in E2. rewrite !orb_false_iff. tauto. }
  split.
  - apply squeeze_In in H3 as [H3|H3]; [now apply H2|].
    destruct H3 as [<-|[]]. reflexivity.
  - intros Hs. rewrite <- (in_cset_space false) in Hs.
    apply (squeeze_class_In _ _ _ _ _ _ H3) in Hs. destruct Hs as [<-|[]].
    reflexivity.
Qed.

(** The result of [standardizeTitle] has no white space at either end, none
    of the characters [. _ ( ) [ ] -], and no white space other than
    blanks. *)
Theorem standardizeTitle_form (title : str) :
  trim (standardizeTitle title) = standardizeTitle title
  /\ forall c, In c (standardizeTitle title) ->
       in_cset false titlePunctuation c = false
       /\ (is_space c = true -> c = " "%char).
Proof. exact (standardizeTitle_normal title). Qed.

(** ** The queries of a request *)

(** The queries of a request.  None is sent, and nothing is answered
    whatever the index holds, when the standardized title is empty.
    Otherwise between one and three are sent, the title-only query always
    among them.  Every query searches for the standardized title, a
    non-empty text without white space at either end and without any of
    [. _ ( ) [ ] -], asks for the content type of the request, and carries
    no year or the standardized year of the request. *)
Theorem queries_shape (currentYear : Z) (request : StremioRequestType) :
  let title := standardizedTitleOf request in
  (title = [] -> queries currentYear request = []
                 /\ forall config results,
                      candidates currentYear config request results = [])
  /\ (title <> [] ->
      In (mkQuery title None (contentTypeOf (r_type request)))
         (queries currentYear request)
      /\ 1 <= length (queries currentYear request) <= 3)
  /\ forall q, In q (queries currentYear request) ->
       q_query q = title /\ title <> []
       /\ trim (q_query q) = q_query q
       /\ (forall c, In c (q_query q) ->
             in_cset false titlePunctuation c = false)
       /\ q_contentType q = contentTypeOf (r_type request)
       /\ (q_year q = None
           \/ q_year q = standardizedYearOf currentYear request).
Proof.
  cbv zeta.
  assert (Hn : trim (standardizedTitleOf request) = standardizedTitleOf request
               /\ forall c, In c (standardizedTitleOf request) ->
                    in_cset false titlePunctuation c = false).
  { unfold standardizedTitleOf.
    destruct (nonempty (searchTitleOf request)).
    - destruct (standardizeTitle_normal (searchTitleOf request)) as [Ht Hc].
      split; [exact Ht | intros c H; now apply Hc].
    - split; [reflexivity | intros c []]. }
  destruct Hn as [Ht Hc]. unfold queries, candidates.
  destruct (standardizedTitleOf request) as [|c t] eqn:E; cbn [nonempty].
  - split; [auto|]. split; [intros H; contradiction | intros q []].
  - split; [discriminate|].
    destruct (truthy_Z (standardizedYearOf currentYear request));
      destruct (str_eqb (c :: t) (r_id request)) eqn:Ei;
      try (apply str_eqb_eq in Ei; rewrite <- Ei);
      cbn [app length In]; (split; [split; [tauto | lia]|]);
      intros q Hq;
      repeat (destruct Hq as [<-|Hq];
              [cbn [q_query q_year q_contentType];
               repeat split; auto; discriminate|]);
      contradiction.
Qed.

Lemma split_colon_head (s : str) :
  ~ In ":"%char (nth 0 (split_colon s) []).
Proof.
  induction s as [|c s IH]; simpl; [tauto|].
  destruct (ascii_eqb c ":") eqn:E; simpl; [tauto|].
  destruct (split_colon s) as [|w ws]; simpl in *.
  - intros [->|[]]. now rewrite (proj2 (ascii_eqb_eq _ _) eq_refl) in E.
  - intros [->|H]; [|now apply IH].
    now rewrite (proj2 (ascii_eqb_eq _ _) eq_refl) in E.
Qed.

Lemma includes_char (s : str) (c : ascii) :
  includes s [c] = false -> ~ In c s.
Proof.
  intros H Hin. apply in_split in Hin as (pre & post & ->).
  assert (Ht : includes (pre ++ c :: post) [c] = true);
    [|rewrite Ht in H; discriminate H].
  apply includes_spec. now exists pre, post.
Qed.

Lemma forwarded_name (endpointConfigured : bool) (type idWithOpts : str)
    (stremioRequest : RouteRequest) :
  streamRoute endpointConfigured type idWithOpts = Forwarded stremioRequest ->
  startsWith (rr_id stremioRequest) "tt" = true
  /\ rr_name stremioRequest = S_ "Media for ID " ++ rr_id stremioRequest.
Proof.
  unfold streamRoute.
  destruct (negb (nonempty type) || _ || _) eqn:E; [discriminate|].
  destruct endpointConfigured; [|discriminate]. cbn [negb].
  intros H. injection H as <-. cbn. split; [|reflexivity].
  apply orb_false_iff in E as [E _]. apply orb_false_iff in E as [_ E].
  now apply negb_false_iff in E.
Qed.

(** What the stream route forwards to [processStreamRequest]: an id that
    starts with "tt" and holds no colon, the placeholder name "Media for ID
    <id>", and, for the type "series", a season and an episode that are both
    numbers. *)
Theorem streamRoute_forwards (endpointConfigured : bool)
    (type idWithOpts : str) (stremioRequest : RouteRequest) :
  streamRoute endpointConfigured type idWithOpts = Forwarded stremioRequest ->
  rr_type stremioRequest = type /\ type <> []
  /\ startsWith (rr_id stremioRequest) "tt" = true
  /\ ~ In ":"%char (rr_id stremioRequest)
  /\ rr_name stremioRequest = S_ "Media for ID " ++ rr_id stremioRequest
  /\ (type = S_ "series" ->
      exists season episode,
        rr_season stremioRequest = number season
        /\ rr_episode stremioRequest = number episode).
Proof.
  unfold streamRoute.
  set (imdbId := if includes idWithOpts ":" then nth 0 (split_colon idWithOpts) []
                 else idWithOpts).
  set (season := if includes idWithOpts ":"
                 then routeNumber (nth_error (split_colon idWithOpts) 1)
                 else undefined).
  set (episode := if includes idWithOpts ":"
                  then routeNumber (nth_error (split_colon idWithOpts) 2)
                  else undefined).
  destruct (nonempty type) eqn:Et; [|discriminate].
  destruct (startsWith imdbId "tt") eqn:Es; [|discriminate].
  cbn [negb orb].
  destruct (str_eqb type "series" && (notANumber season || notANumber episode))
    eqn:Ev; [discriminate|].
  destruct endpointConfigured; [|discriminate]. cbn [negb].
  intros H. injection H as <-. cbn.
  split; [reflexivity|]. split; [now destruct type|].
  split; [exact Es|]. split.
  - unfold imdbId. destruct (includes idWithOpts ":") eqn:Ei.
    + apply split_colon_head.
    + now apply includes_char.
  - split; [reflexivity|]. intros ->. rewrite str_eqb_refl in Ev.
    cbn [andb] in Ev. apply orb_false_iff in Ev as [E1 E2].
    destruct season as [| |s]; try discriminate E1.
    destruct episode as [| |e]; try discriminate E2. eauto.
Qed.

Lemma streamRoute_forwards_witness :
  rr_type (mkRouteRequest "series" "tt0903747" "Media for ID tt0903747"
                          (number 1) (number 2)) = S_ "series"
  /\ S_ "series" <> []
  /\ startsWith (S_ "tt0903747") "tt" = true
  /\ ~ In ":"%char (S_ "tt0903747")
  /\ S_ "Media for ID tt0903747" = S_ "Media for ID " ++ S_ "tt0903747"
  /\ (S_ "series" = S_ "series" ->
      exists season episode,
        number 1 = number season /\ number 2 = number episode).
Proof.
  exact (streamRoute_forwards true "series" "tt0903747:1:2"
           (mkRouteRequest "series" "tt0903747" "Media for ID tt0903747"
                           (number 1) (number 2)) eq_refl).
Defined.

(** Every request the route forwards is searched by its id: the placeholder
    name is recognised, no year is known, so no query carries a year; and
    when the id is a single word, as every IMDB id is, the same title-only
    query for the id is sent twice. *)
Theorem forwarded_request_queries (currentYear : Z) (endpointConfigured : bool)
    (type idWithOpts : str) (stremioRequest : RouteRequest) :
  streamRoute endpointConfigured type idWithOpts = Forwarded stremioRequest ->
  let request := requestOf stremioRequest in
  searchTitleOf request = rr_id stremioRequest
  /\ standardizedYearOf currentYear request = None
  /\ (forall q, In q (queries currentYear request) -> q_year q = None)
  /\ (avoids false wordBreaks (rr_id stremioRequest) ->
      queries currentYear request
      = [mkQuery (rr_id stremioRequest) None (contentTypeOf (r_type request));
         mkQuery (rr_id stremioRequest) None (contentTypeOf (r_type request))]).
Proof.
  intros H. apply forwarded_name in H as (Htt & Hname).
  cbv zeta.
  assert (Hs : searchTitleOf (requestOf stremioRequest) = rr_id stremioRequest).
  { unfold searchTitleOf, requestOf. cbn [r_name r_id text]. rewrite Hname.
    rewrite (startsWith_app (S_ "Media for ID")
               (" "%char :: rr_id stremioRequest) :
             startsWith (S_ "Media for ID " ++ rr_id stremioRequest)
                        "Media for ID" = true).
    now rewrite orb_true_r. }
  split; [exact Hs|]. split; [reflexivity|].
  unfold queries, standardizedTitleOf. rewrite Hs.
  change (standardizedYearOf currentYear (requestOf stremioRequest))
    with (@None Z).
  cbn [truthy_Z app]. split.
  - intros q. destruct (nonempty (rr_id stremioRequest)); [|contradiction].
    destruct (nonempty (standardizeTitle (rr_id stremioRequest)));
      [|contradiction].
    destruct (str_eqb _ _); cbn [In];
      intros Hq; repeat (destruct Hq as [<-|Hq]; [reflexivity|]);
      contradiction.
  - intros Hw. rewrite (standardizeTitle_untouched _ Hw).
    destruct (rr_id stremioRequest) as [|c s] eqn:Ei; [discriminate Htt|].
    cbn [nonempty requestOf r_id]. rewrite Ei, str_eqb_refl. reflexivity.
Qed.

Lemma forwarded_request_queries_witness :
  searchTitleOf (requestOf (mkRouteRequest "movie" "tt0111161"
                              "Media for ID tt0111161" undefined undefined))
  = S_ "tt0111161"
  /\ standardizedYearOf 2026%Z
       (requestOf (mkRouteRequest "movie" "tt0111161" "Media for ID tt0111161"
                                  undefined undefined)) = None
  /\ (forall q,
        In q (queries 2026%Z
                (requestOf (mkRouteRequest "movie" "tt0111161"
                              "Media for ID tt0111161" undefined undefined))) ->
        q_year q = None)
  /\ (avoids false wordBreaks (S_ "tt0111161") ->
      queries 2026%Z
        (requestOf (mkRouteRequest "movie" "tt0111161" "Media for ID tt0111161"
                                   undefined undefined))
      = [mkQuery (S_ "tt0111161") None (Some (S_ "MOVIE"));
         mkQuery (S_ "tt0111161") None (Some (S_ "MOVIE"))]).
Proof.
  exact (forwarded_request_queries 2026%Z true "movie" "tt0111161"
           (mkRouteRequest "movie" "tt0111161" "Media for ID tt0111161"
                           undefined undefined) eq_refl).
Defined.
